(** * libftpp network transport: Message codec, Client and Server

    A shallow embedding of [includes/network/message.{hpp,tpp}],
    [src/network/message.cpp], [src/network/client.cpp] and
    [src/network/server.cpp], with the properties of the transport
    specification stated over it.

    Conventions
    - [size_t] is the 64-bit unsigned type of the supported targets; its
      values are [Z] and every addition the source performs on it is
      written with its wrap-around ([size_add]).
    - [std::vector<char>] and [std::string] are [list byte].
    - [memcpy] of a scalar copies its object representation; the host is
      little-endian (the source does no byte-order normalisation).
    - A C++ exception leaves the object in the state reached when it was
      thrown: operations are computations in a state-and-exception monad
      that returns the state on both outcomes. *)

From Stdlib Require Import ZArith Lia List Strings.Byte.
From stdpp Require Import base option list sorting gmap.

Local Open Scope Z_scope.

(** ** Exceptions and the state-and-exception monad *)

Inductive exn : Type :=
  | DeserializationFailed   (* Message::DeserializationFailedException *)
  | LengthError             (* std::length_error from std::string::assign *)
  | NotConnected            (* Client::NotConnectedException *)
  | SendingFailed           (* Client/Server::SendingFailedException *)
  | AlreadyStarted          (* Server::AlreadyStartedException *)
  | NotStarted              (* Server::NotStartedException *)
  | StartFailed             (* Server::StartFailedException *)
  | UnknownClient           (* Server::UnknownClientException *)
  | BatchSendingFailed.     (* Server::BatchSendingFailedException *)

Inductive result (A : Type) : Type :=
  | Ok (a : A)
  | Throw (e : exn).
Arguments Ok {A} a.
Arguments Throw {A} e.

Definition M (S A : Type) : Type := S -> S * result A.

Definition ret {S A} (a : A) : M S A := fun s => (s, Ok a).
Definition throw {S A} (e : exn) : M S A := fun s => (s, Throw e).
Definition bind {S A B} (c : M S A) (k : A -> M S B) : M S B :=
  fun s => match c s with
           | (s', Ok a) => k a s'
           | (s', Throw e) => (s', Throw e)
           end.
Definition modify {S} (f : S -> S) : M S unit := fun s => (f s, Ok tt).

(** [try { c } catch (const E&) { h }], with [catches] the exceptions that
    are an [E]; the handler starts from the state the exception left. *)
Definition try_catch {S A} (c : M S A) (catches : exn -> bool) (h : M S A) : M S A :=
  fun s => match c s with
           | (s', Throw e) => if catches e then h s' else (s', Throw e)
           | r => r
           end.

Notation "'do' x <- c1 ; c2" := (bind c1 (fun x => c2))
  (at level 10, x name, c1 at level 100, c2 at level 200).
Notation "c1 >>> c2" := (bind c1 (fun _ => c2))
  (at level 100, c2 at level 200, right associativity).

(** ** Object representations *)

Definition byte_of_Z (z : Z) : byte :=
  match Byte.of_N (Z.to_N (z mod 256)) with
  | Some b => b
  | None => x00
  end.

Definition Z_of_byte (b : byte) : Z := Z.of_N (Byte.to_N b).

(** The [n] bytes of the two's-complement representation of [x], least
    significant byte first. *)
Fixpoint le_bytes (n : nat) (x : Z) : list byte :=
  match n with
  | O => []
  | S k => byte_of_Z x :: le_bytes k (x / 256)
  end.

Fixpoint le_value (bs : list byte) : Z :=
  match bs with
  | [] => 0
  | b :: r => Z_of_byte b + 256 * le_value r
  end.

(** The scalar types the embedding instantiates the templates
    [operator<<] and [operator>>] at. *)
Inductive ctype : Type :=
  | Tchar | Tuchar | Tshort | Tushort | Tint | Tuint | Tllong | Tsize_t.

Definition sizeof_nat (t : ctype) : nat :=
  match t with
  | Tchar | Tuchar => 1
  | Tshort | Tushort => 2
  | Tint | Tuint => 4
  | Tllong | Tsize_t => 8
  end%nat.

Definition sizeof (t : ctype) : Z := Z.of_nat (sizeof_nat t).

Definition is_signed (t : ctype) : bool :=
  match t with
  | Tchar | Tshort | Tint | Tllong => true
  | Tuchar | Tushort | Tuint | Tsize_t => false
  end.

Definition bits (t : ctype) : Z := 8 * sizeof t.

(** The values of type [t]. *)
Definition in_range (t : ctype) (x : Z) : Prop :=
  if is_signed t then - 2 ^ (bits t - 1) <= x < 2 ^ (bits t - 1)
  else 0 <= x < 2 ^ bits t.

(** [memcpy(dst, &x, sizeof(T))] and [memcpy(&x, src, sizeof(T))]. *)
Definition encode (t : ctype) (x : Z) : list byte := le_bytes (sizeof_nat t) x.

Definition decode (t : ctype) (bs : list byte) : Z :=
  let u := le_value bs in
  if is_signed t && (2 ^ (bits t - 1) <=? u) then u - 2 ^ bits t else u.

Arguments encode : simpl never.
Arguments decode : simpl never.
Arguments sizeof : simpl never.

(** ** size_t arithmetic *)

Definition size_modulus : Z := 2 ^ 64.
Definition size_add (a b : Z) : Z := (a + b) mod size_modulus.

(** [std::vector<char>::max_size()] and [std::string::max_size()] are at
    most [PTRDIFF_MAX] on the 64-bit targets. *)
Definition max_size : Z := 2 ^ 63 - 1.

Definition size {A} (l : list A) : Z := Z.of_nat (length l).

Arguments size : simpl never.

(** The [n] elements of [l] from index [pos] on. *)
Definition slice {A} (pos n : Z) (l : list A) : list A :=
  take (Z.to_nat n) (drop (Z.to_nat pos) l).

(** ** Message *)

Module Message.

Record t : Type := mk {
  msgType : Z;            (* Type = int *)
  buffer : list byte;     (* std::vector<char> *)
  readPos : Z             (* mutable size_t *)
}.

Definition set_buffer (b : list byte) (m : t) : t :=
  mk (msgType m) b (readPos m).
Definition set_readPos (p : Z) (m : t) : t :=
  mk (msgType m) (buffer m) p.

(** [explicit Message(Type type = 0)] *)
Definition ctor (type : Z) : t := mk type [] 0.

(** [Message(const Message& other)] *)
Definition copy (other : t) : t := mk (msgType other) (buffer other) 0.

(** Message objects live at addresses; two references may name the same
    object. *)
Definition loc : Type := positive.

(** [Message& operator=(const Message& other)], with [this] and [other]
    the addresses of the two objects. A reference always names a live
    object; an address outside the store is not a program state and
    leaves it as it is. *)
Definition op_assign (this other : loc) (h : gmap loc t) : gmap loc t :=
  if decide (this ≠ other) then
    match h !! other with
    | Some o => <[this := mk (msgType o) (buffer o) 0]> h
    | None => h
    end
  else h.

(** [Message copy(other)] constructs a new object at the address [new]. *)
Definition copy_construct (new other : loc) (h : gmap loc t) : gmap loc t :=
  match h !! other with
  | Some o => <[new := copy o]> h
  | None => h
  end.

Definition type (m : t) : Z := msgType m.

(** [template <typename T> Message& operator<<(const T& data)] *)
Definition push (ty : ctype) (data : Z) : M t unit :=
  modify (fun m => set_buffer (buffer m ++ encode ty data) m).

(** [template <typename T> Message& operator>>(T& data)]; the [const]
    overload has the same body. *)
Definition pop (ty : ctype) : M t Z := fun m =>
  if size (buffer m) <? size_add (readPos m) (sizeof ty)
  then (m, Throw DeserializationFailed)
  else (set_readPos (size_add (readPos m) (sizeof ty)) m,
        Ok (decode ty (slice (readPos m) (sizeof ty) (buffer m)))).

(** [template <> Message& operator<<(const std::string& data)] *)
Definition push_string (data : list byte) : M t unit :=
  push Tsize_t (size data) >>>
  modify (fun m => set_buffer (buffer m ++ data) m).

(** [data.assign(&buffer[readPos], size)]: a count that reaches past the
    end of the buffer can only come from a wrapped guard; it is then
    above [std::string::max_size()] and [assign] throws. *)
Definition string_assign (pos n : Z) (m : t) : result (list byte) :=
  if pos + n <=? size (buffer m) then Ok (slice pos n (buffer m))
  else Throw LengthError.

(** [template <> Message& operator>>(std::string& data)] *)
Definition pop_string : M t (list byte) :=
  do n <- pop Tsize_t;
  fun m =>
    if size (buffer m) <? size_add (readPos m) n
    then (m, Throw DeserializationFailed)
    else match string_assign (readPos m) n m with
         | Ok data => (set_readPos (size_add (readPos m) n) m, Ok data)
         | Throw e => (m, Throw e)
         end.

(** [std::string serialize() const] *)
Definition serialize (m : t) : list byte :=
  encode Tint (msgType m) ++ buffer m.

(** [void deserialize(const std::string& data)] *)
Definition deserialize (data : list byte) : M t unit := fun m =>
  if size data <? sizeof Tint
  then (m, Throw DeserializationFailed)
  else (mk (decode Tint (slice 0 (sizeof Tint) data))
           (slice (sizeof Tint) (size data - sizeof Tint) data)
           0,
        Ok tt).

(** [void resetRead() const] *)
Definition resetRead : M t unit := modify (set_readPos 0).

(** The states a Message can be in: the cursor is inside the payload and
    the payload is a representable vector. *)
Definition wf (m : t) : Prop :=
  0 <= readPos m <= size (buffer m) /\ size (buffer m) <= max_size.

(** The bytes between the cursor and the end of the payload. *)
Definition remaining (m : t) : Z := size (buffer m) - readPos m.

(** The length prefix a string read finds at the cursor. *)
Definition prefix_at_cursor (m : t) : Z :=
  decode Tsize_t (slice (readPos m) (sizeof Tsize_t) (buffer m)).

End Message.

(** ** Typed values of a payload *)

Inductive vtype : Type :=
  | TScalar (ty : ctype)
  | TString.

Inductive value : Type :=
  | VScalar (ty : ctype) (x : Z)
  | VString (s : list byte).

Definition type_of (v : value) : vtype :=
  match v with
  | VScalar ty _ => TScalar ty
  | VString _ => TString
  end.

(** A scalar is a value of its type; a string is a representable string. *)
Definition value_ok (v : value) : Prop :=
  match v with
  | VScalar ty x => in_range ty x
  | VString s => size s <= max_size
  end.

(** [msg << v] at the type of [v]. *)
Definition push_value (v : value) : M Message.t unit :=
  match v with
  | VScalar ty x => Message.push ty x
  | VString s => Message.push_string s
  end.

(** [msg >> x] with [x] declared at type [ty]. *)
Definition pop_value (ty : vtype) : M Message.t value :=
  match ty with
  | TScalar ty => do x <- Message.pop ty; ret (VScalar ty x)
  | TString => do s <- Message.pop_string; ret (VString s)
  end.

(** [msg << v1 << v2 << ...] *)
Fixpoint push_values (vs : list value) : M Message.t unit :=
  match vs with
  | [] => ret tt
  | v :: rest => push_value v >>> push_values rest
  end.

(** [msg >> x1 >> x2 >> ...] *)
Fixpoint pop_values (tys : list vtype) : M Message.t (list value) :=
  match tys with
  | [] => ret []
  | ty :: rest =>
      do v <- pop_value ty;
      do vs <- pop_values rest;
      ret (v :: vs)
  end.

(** The bytes a value occupies in a payload, as the specification describes
    them: a scalar verbatim, a string behind its 8-byte length. *)
Definition value_bytes (v : value) : list byte :=
  match v with
  | VScalar ty x => encode ty x
  | VString s => encode Tsize_t (size s) ++ s
  end.

Definition payload (vs : list value) : list byte :=
  concat (map value_bytes vs).


(** ** Socket calls

    The I/O threads are functions of what their system calls returned. *)

(** What [::recv(fd, buf, n, MSG_WAITALL)] returned: the bytes it stored in
    [buf], whose number is its return value (none: the peer has closed),
    or -1. *)
Inductive recv_result : Type :=
  | Recv (bs : list byte)
  | RecvFailed.

Definition bytesRead (r : recv_result) : Z :=
  match r with
  | Recv bs => size bs
  | RecvFailed => -1
  end.

Definition received (r : recv_result) : list byte :=
  match r with
  | Recv bs => bs
  | RecvFailed => []
  end.

(** [::send(fd, buf, n, 0)] returning [sent]: the kernel has taken the
    first [sent] bytes of [buf] (none when it returns -1). The state is the
    byte stream written to the socket so far. *)
Definition sys_send (sent : Z) (buf : list byte) : M (list byte) Z :=
  fun tx => (tx ++ slice 0 sent buf, Ok sent).

(** The body shared by [Client::sendMessage] and [Server::sendToClient]:
    the 8-byte length, then the serialized Message. [r1] and [r2] are the
    return values of the two [::send] calls. *)
Definition send_frame (message : Message.t) (r1 r2 : Z) : M (list byte) unit :=
  let serialized := Message.serialize message in
  let messageSize := size serialized in
  do sent <- sys_send r1 (encode Tsize_t messageSize);
  if negb (sent =? sizeof Tsize_t) then throw SendingFailed
  else
    do sent <- sys_send r2 serialized;
    if negb (sent =? messageSize) then throw SendingFailed
    else ret tt.

(** The frame of a Message on the wire, as the specification gives it:
    [8-byte length N][N bytes = serialize(Message)]. *)
Definition frame (m : Message.t) : list byte :=
  encode Tsize_t (size (Message.serialize m)) ++ Message.serialize m.

(** The system calls of the receiving half of an I/O loop iteration. *)
Record recv_io : Type := mk_recv_io {
  readable : bool;            (* select: activity > 0 && FD_ISSET *)
  recv_hdr : recv_result;     (* recv of the 8-byte messageSize *)
  recv_body : recv_result     (* recv of messageSize bytes *)
}.

(** How one pass through a loop body ends. [Abort] is an exception that
    leaves the thread function: [std::terminate]. *)
Inductive loop_step (S : Type) : Type :=
  | Continue (s : S)
  | Break (s : S)
  | Abort.
Arguments Continue {S} s.
Arguments Break {S} s.
Arguments Abort {S}.

(** What the receiving half does with the calls' results, up to the
    deserialized Message: [Continue None] is an iteration that enqueues
    nothing (timeout, short header, malformed frame). *)
Definition recv_frame (i : recv_io) : loop_step (option Message.t) :=
  if negb (readable i) then Continue None
  else if bytesRead (recv_hdr i) <=? 0 then Break None
  else if bytesRead (recv_hdr i) =? sizeof Tsize_t then
    let messageSize := decode Tsize_t (received (recv_hdr i)) in
    (* std::vector<char> messageData(messageSize) *)
    if max_size <? messageSize then Abort
    else if (bytesRead (recv_body i) <=? 0)
            || negb (bytesRead (recv_body i) =? messageSize) then Break None
    else
      (* Message msg(0); try { msg.deserialize(dataStr); ... } catch ... *)
      match Message.deserialize (received (recv_body i)) (Message.ctor 0) with
      | (msg, Ok _) => Continue (Some msg)
      | (_, Throw _) => Continue None
      end
  else Continue None.

(** ** Client *)

(** The exceptions of [Client::connect]. *)
Inductive connect_exn : Type :=
  | AlreadyConnected        (* Client::AlreadyConnectedException *)
  | ConnectionFailed.       (* Client::ConnectionFailedException *)

(** How a call of [Client::connect] ends. [ConnectTerminated] is
    [std::terminate]: the move assignment of [std::thread] calls it when
    the thread assigned to is joinable. *)
Inductive connect_result : Type :=
  | ConnectOk
  | ConnectThrow (e : connect_exn)
  | ConnectTerminated.

(** Where the receiver thread of a Client is in its loop. It reads the
    flags [isConnected] and [shouldStop] in the loop test only, so once it
    has passed the test it goes through the rest of the iteration. *)
Inductive thread_at : Type :=
  | AtTest      (* at [while (isConnected && !shouldStop)] *)
  | AtSend      (* past the test, the sending half still to come *)
  | AtRecv.     (* past the sending half, at [select] and [::recv] *)

(** How the destruction of a Client ends. *)
Inductive dtor_result : Type :=
  | Destroyed (fds : gset Z)   (* the descriptors that are left open *)
  | DtorTerminated             (* [~thread] on a joinable thread: [std::terminate] *)
  | DtorNoReturn.              (* [disconnect()] has not returned *)

(** The [for (rp = result; rp != NULL; rp = rp->ai_next)] loop of
    [Client::connect]. Each address of the [getaddrinfo] list comes with
    what [socket] returned for it and whether [::connect] returned 0. The
    state is [sockfd] and the open descriptors of the process. *)
Fixpoint connect_loop (addrs : list (Z * bool)) (sockfd : Z) (fds : gset Z)
    : Z * gset Z :=
  match addrs with
  | [] => (sockfd, fds)
  | (fd, connected) :: rest =>
      (* sockfd = socket(...) *)
      if fd <? 0 then connect_loop rest fd fds
      else if connected then (fd, {[fd]} ∪ fds)
      else connect_loop rest (-1) (fds ∖ {[fd]})
  end.

Module Client.
Section WithApp.
(** The application state the callbacks act on. *)
Context {App : Type}.

(** [std::function<void(const Message& msg)>]; [None] is the empty
    function. A callback may throw. *)
Definition Action : Type := option (Message.t -> M App unit).

Record t : Type := mk {
  sockfd : Z;
  isConnected : bool;
  shouldStop : bool;
  receiverThread : bool;                 (* joinable() *)
  receivedMessages : list Message.t;     (* std::queue, front first *)
  messagesToSend : list Message.t;
  actions : gmap Z Action
}.

Definition set_sockfd (x : Z) (c : t) : t :=
  mk x (isConnected c) (shouldStop c) (receiverThread c)
     (receivedMessages c) (messagesToSend c) (actions c).
Definition set_isConnected (x : bool) (c : t) : t :=
  mk (sockfd c) x (shouldStop c) (receiverThread c)
     (receivedMessages c) (messagesToSend c) (actions c).
Definition set_shouldStop (x : bool) (c : t) : t :=
  mk (sockfd c) (isConnected c) x (receiverThread c)
     (receivedMessages c) (messagesToSend c) (actions c).
Definition set_receiverThread (x : bool) (c : t) : t :=
  mk (sockfd c) (isConnected c) (shouldStop c) x
     (receivedMessages c) (messagesToSend c) (actions c).
Definition set_receivedMessages (x : list Message.t) (c : t) : t :=
  mk (sockfd c) (isConnected c) (shouldStop c) (receiverThread c)
     x (messagesToSend c) (actions c).
Definition set_messagesToSend (x : list Message.t) (c : t) : t :=
  mk (sockfd c) (isConnected c) (shouldStop c) (receiverThread c)
     (receivedMessages c) x (actions c).
Definition set_actions (x : gmap Z Action) (c : t) : t :=
  mk (sockfd c) (isConnected c) (shouldStop c) (receiverThread c)
     (receivedMessages c) (messagesToSend c) x.

(** [Client::Client()] *)
Definition ctor : t := mk (-1) false false false [] [] ∅.

(** [void defineAction(const Message::Type&, const Action&)] *)
Definition defineAction (messageType : Z) (action : Action) : M t unit :=
  modify (fun c => set_actions (<[messageType := action]> (actions c)) c).

(** [void send(const Message& message)] *)
Definition send (message : Message.t) : M t unit := fun c =>
  if negb (isConnected c) then (c, Throw NotConnected)
  else (set_messagesToSend (messagesToSend c ++ [Message.copy message]) c, Ok tt).

(** The [while (!messagesToProcess.empty())] loop of [update].
    [Message msg = std::move(front)] runs the copy constructor: the class
    declares no move constructor. *)
Fixpoint dispatch (currentActions : gmap Z Action)
    (messagesToProcess : list Message.t) : M App unit :=
  match messagesToProcess with
  | [] => ret tt
  | front :: rest =>
      let msg := Message.copy front in
      match currentActions !! Message.type msg with
      | Some (Some action) => action msg >>> dispatch currentActions rest
      | _ => dispatch currentActions rest
      end
  end.

(** [void update()], on the Client and the application state. An
    exception of a callback leaves [update]; the local
    [messagesToProcess] is destroyed with what it still holds. *)
Definition update : M (t * App) unit := fun '(c, app) =>
  if negb (isConnected c) then ((c, app), Throw NotConnected)
  else
    let messagesToProcess := receivedMessages c in
    let currentActions := actions c in
    let c := set_receivedMessages [] c in
    match dispatch currentActions messagesToProcess app with
    | (app', r) => ((c, app'), r)
    end.

(** [void sendMessage(const Message& message)] *)
Definition sendMessage (message : Message.t) (r1 r2 : Z) : M (list byte) unit :=
  send_frame message r1 r2.

(** The sending half of the body of [receiverLoop]; [tx] is the stream
    written to the socket. *)
Definition send_part (r1 r2 : Z) (c : t) (tx : list byte)
    : loop_step (t * list byte) :=
  match messagesToSend c with
  | [] => Continue (c, tx)
  | front :: rest =>
      match sendMessage front r1 r2 tx with
      | (tx', Ok _) => Continue (set_messagesToSend rest c, tx')
      | (tx', Throw _) => Break (set_shouldStop true c, tx')
      end
  end.

(** The receiving half of the body of [receiverLoop]. *)
Definition recv_part (i : recv_io) (c : t) : loop_step t :=
  match recv_frame i with
  | Continue (Some msg) =>
      Continue (set_receivedMessages (receivedMessages c ++ [Message.copy msg]) c)
  | Continue None => Continue c
  | Break _ => Break (set_shouldStop true c)
  | Abort => Abort
  end.

(** One pass through the body of [while (isConnected && !shouldStop)]. *)
Definition receiverLoop_body (r1 r2 : Z) (i : recv_io) (c : t) (tx : list byte)
    : loop_step (t * list byte) :=
  match send_part r1 r2 c tx with
  | Continue (c, tx) =>
      match recv_part i c with
      | Continue c => Continue (c, tx)
      | Break c => Break (c, tx)
      | Abort => Abort
      end
  | other => other
  end.

(** [void receiverLoop()] over the results of the calls of its successive
    iterations; [None] when the thread has not returned: it is still in
    the loop when the list ends, or the process has been terminated. *)
Fixpoint receiverLoop (calls : list (Z * Z * recv_io)) (c : t) (tx : list byte)
    : option (t * list byte) :=
  if isConnected c && negb (shouldStop c) then
    match calls with
    | [] => None
    | (r1, r2, i) :: calls =>
        match receiverLoop_body r1 r2 i c tx with
        | Continue (c, tx) => receiverLoop calls c tx
        | Break (c, tx) => Some (set_isConnected false c, tx)
        | Abort => None
        end
    end
  else Some (set_isConnected false c, tx).

(** [receiverLoop()] from where the thread is, over the results [calls]
    of the calls it still makes. [None] when the thread does not return:
    a [::recv] with MSG_WAITALL of the iteration it is in has not returned
    ([calls] is empty), it is still in the loop when the list ends, or
    the process has been terminated. *)
Definition receiverLoop_from (pos : thread_at) (calls : list (Z * Z * recv_io))
    (c : t) (tx : list byte) : option (t * list byte) :=
  match pos, calls with
  | AtTest, _ => receiverLoop calls c tx
  | _, [] => None
  | AtSend, (r1, r2, i) :: calls =>
      match receiverLoop_body r1 r2 i c tx with
      | Continue (c, tx) => receiverLoop calls c tx
      | Break (c, tx) => Some (set_isConnected false c, tx)
      | Abort => None
      end
  | AtRecv, (_, _, i) :: calls =>
      match recv_part i c with
      | Continue c => receiverLoop calls c tx
      | Break c => Some (set_isConnected false c, tx)
      | Abort => None
      end
  end.

(** [receiverThread.join()] in [disconnect()]: it returns when
    [receiverLoop] has returned, [None] when it does not. [pos] is where
    the thread was when the flags were stored. *)
Definition join (pos : thread_at) (calls : list (Z * Z * recv_io)) (c : t)
    : option t :=
  match receiverLoop_from pos calls c [] with
  | Some (c, _) => Some (set_receiverThread false c)
  | None => None
  end.

(** [void disconnect()]; [fds] are the open descriptors of the process.
    [None] when it does not return. *)
Definition disconnect (pos : thread_at) (calls : list (Z * Z * recv_io))
    (fds : gset Z) (c : t) : option (t * gset Z) :=
  if negb (isConnected c) then Some (c, fds)
  else
    let c := set_shouldStop true c in
    let c := set_isConnected false c in
    match (if receiverThread c then join pos calls c else Some c) with
    | None => None
    | Some c =>
        let fds := fds ∖ {[sockfd c]} in
        let c := set_sockfd (-1) c in
        let c := set_receivedMessages [] c in
        let c := set_messagesToSend [] c in
        Some (c, fds)
    end.

(** [void connect(const std::string& address, const size_t& port)].
    [resolved] is the list [getaddrinfo] produced, [None] when it returned
    an error. *)
Definition connect (resolved : option (list (Z * bool))) (fds : gset Z) (c : t)
    : t * gset Z * connect_result :=
  if isConnected c then (c, fds, ConnectThrow AlreadyConnected)
  else
    match resolved with
    | None => (c, fds, ConnectThrow ConnectionFailed)
    | Some addrs =>
        let '(fd, fds) := connect_loop addrs (sockfd c) fds in
        let c := set_sockfd fd c in
        if fd <? 0 then (c, fds, ConnectThrow ConnectionFailed)
        else
          let c := set_isConnected true c in
          let c := set_shouldStop false c in
          (* receiverThread = std::thread(&Client::receiverLoop, this) *)
          if receiverThread c then (c, fds, ConnectTerminated)
          else (set_receiverThread true c, fds, ConnectOk)
    end.

(** [Client::~Client()]: the body calls [disconnect()], then the members
    are destroyed, and [~thread] calls [std::terminate] when the thread
    is joinable. *)
Definition dtor (pos : thread_at) (calls : list (Z * Z * recv_io))
    (fds : gset Z) (c : t) : dtor_result :=
  match disconnect pos calls fds c with
  | None => DtorNoReturn
  | Some (c, fds) => if receiverThread c then DtorTerminated else Destroyed fds
  end.

End WithApp.
Arguments t : clear implicits.
Arguments Action : clear implicits.
End Client.

(** ** Server *)

(** [ClientID = long long]: the successor, with the wrap-around of the
    64-bit two's-complement representation. *)
Definition llong_succ (x : Z) : Z := (x + 1 + 2 ^ 63) mod 2 ^ 64 - 2 ^ 63.

Module Server.
Section WithApp.
Context {App : Type}.

(** [std::function<void(ClientID& clientID, const Message& msg)>] *)
Definition Action : Type := option (Z -> Message.t -> M App unit).

Record t : Type := mk {
  serverSocket : Z;
  isRunning : bool;
  shouldStop : bool;
  acceptorThread : bool;                        (* joinable() *)
  clients : gmap Z Z;                           (* ClientID -> socket *)
  receivedMessages : list (Z * Message.t);      (* std::vector *)
  messagesToSend : gmap Z (list Message.t);     (* ClientID -> std::queue *)
  actions : gmap Z Action;
  nextClientID : Z
}.

Definition set_serverSocket (x : Z) (s : t) : t :=
  mk x (isRunning s) (shouldStop s) (acceptorThread s) (clients s)
     (receivedMessages s) (messagesToSend s) (actions s) (nextClientID s).
Definition set_isRunning (x : bool) (s : t) : t :=
  mk (serverSocket s) x (shouldStop s) (acceptorThread s) (clients s)
     (receivedMessages s) (messagesToSend s) (actions s) (nextClientID s).
Definition set_acceptorThread (x : bool) (s : t) : t :=
  mk (serverSocket s) (isRunning s) (shouldStop s) x (clients s)
     (receivedMessages s) (messagesToSend s) (actions s) (nextClientID s).
Definition set_clients (x : gmap Z Z) (s : t) : t :=
  mk (serverSocket s) (isRunning s) (shouldStop s) (acceptorThread s) x
     (receivedMessages s) (messagesToSend s) (actions s) (nextClientID s).
Definition set_receivedMessages (x : list (Z * Message.t)) (s : t) : t :=
  mk (serverSocket s) (isRunning s) (shouldStop s) (acceptorThread s) (clients s)
     x (messagesToSend s) (actions s) (nextClientID s).
Definition set_messagesToSend (x : gmap Z (list Message.t)) (s : t) : t :=
  mk (serverSocket s) (isRunning s) (shouldStop s) (acceptorThread s) (clients s)
     (receivedMessages s) x (actions s) (nextClientID s).
Definition set_actions (x : gmap Z Action) (s : t) : t :=
  mk (serverSocket s) (isRunning s) (shouldStop s) (acceptorThread s) (clients s)
     (receivedMessages s) (messagesToSend s) x (nextClientID s).
Definition set_nextClientID (x : Z) (s : t) : t :=
  mk (serverSocket s) (isRunning s) (shouldStop s) (acceptorThread s) (clients s)
     (receivedMessages s) (messagesToSend s) (actions s) x.

(** [Server::Server()] *)
Definition ctor : t := mk (-1) false false false ∅ [] ∅ ∅ 1.

(** [void start(const size_t& port)]. [sock] is what [socket] returned;
    the flags tell whether [setsockopt], [bind] and [listen] succeeded.
    [fds] are the open descriptors of the process. *)
Definition start (sock : Z) (opt_ok bind_ok listen_ok : bool)
    : M (t * gset Z) unit := fun '(s, fds) =>
  if isRunning s then ((s, fds), Throw AlreadyStarted)
  else
    let s := set_serverSocket sock s in
    if sock <? 0 then ((s, fds), Throw StartFailed)
    else if negb (opt_ok && bind_ok && listen_ok)
    then ((s, fds ∖ {[sock]}), Throw StartFailed)
    else ((set_acceptorThread true (set_isRunning true s), {[sock]} ∪ fds), Ok tt).

(** [void defineAction(const Message::Type&, const Action&)] *)
Definition defineAction (messageType : Z) (action : Action) : M t unit :=
  modify (fun s => set_actions (<[messageType := action]> (actions s)) s).

(** The content of [messagesToSend[clientID]]; [operator[]] makes an
    empty queue where the map has none. *)
Definition queue (s : t) (clientID : Z) : list Message.t :=
  default [] (messagesToSend s !! clientID).

(** [messagesToSend[clientID].push(message)] *)
Definition push_to (clientID : Z) (message : Message.t) (s : t) : t :=
  set_messagesToSend
    (<[clientID := queue s clientID ++ [Message.copy message]]> (messagesToSend s)) s.

(** [void sendTo(const Message& message, ClientID clientID)] *)
Definition sendTo (message : Message.t) (clientID : Z) : M t unit := fun s =>
  if negb (isRunning s) then (s, Throw NotStarted)
  else
    match clients s !! clientID with
    | None => (s, Throw UnknownClient)
    | Some _ => (push_to clientID message s, Ok tt)
    end.

Definition is_UnknownClient (e : exn) : bool :=
  match e with UnknownClient => true | _ => false end.

(** The [for (ClientID clientID : clientIDs)] loop of [sendToArray]. *)
Fixpoint sendToArray_loop (message : Message.t) (clientIDs : list Z)
    (error : bool) : M t bool :=
  match clientIDs with
  | [] => ret error
  | clientID :: rest =>
      do error <- try_catch (sendTo message clientID >>> ret error)
                    is_UnknownClient (ret true);
      sendToArray_loop message rest error
  end.

(** [void sendToArray(const Message&, std::vector<ClientID>)] *)
Definition sendToArray (message : Message.t) (clientIDs : list Z) : M t unit :=
  fun s =>
    if negb (isRunning s) then (s, Throw NotStarted)
    else
      (do error <- sendToArray_loop message clientIDs false;
       if error then throw BatchSendingFailed else ret tt) s.

(** The [for (auto& client : clients)] loop of [sendToAll]; [catch (...)]
    catches whatever the push throws. *)
Fixpoint sendToAll_loop (message : Message.t) (cs : list (Z * Z))
    (error : bool) : M t bool :=
  match cs with
  | [] => ret error
  | client :: rest =>
      do error <- try_catch (modify (push_to client.1 message) >>> ret error)
                    (fun _ => true) (ret true);
      sendToAll_loop message rest error
  end.

(** [void sendToAll(const Message& message)] *)
Definition sendToAll (message : Message.t) : M t unit := fun s =>
  if negb (isRunning s) then (s, Throw NotStarted)
  else
    (do error <- sendToAll_loop message (map_to_list (clients s)) false;
     if error then throw BatchSendingFailed else ret tt) s.

(** The [for (auto& pair : messagesToProcess)] loop of [update]; the
    callback gets the queued Message itself. *)
Fixpoint dispatch (currentActions : gmap Z Action)
    (messagesToProcess : list (Z * Message.t)) : M App unit :=
  match messagesToProcess with
  | [] => ret tt
  | (clientID, msg) :: rest =>
      match currentActions !! Message.type msg with
      | Some (Some action) => action clientID msg >>> dispatch currentActions rest
      | _ => dispatch currentActions rest
      end
  end.

(** [void update()] *)
Definition update : M (t * App) unit := fun '(s, app) =>
  if negb (isRunning s) then ((s, app), Throw NotStarted)
  else
    let messagesToProcess := receivedMessages s in
    let currentActions := actions s in
    let s := set_receivedMessages [] s in
    match dispatch currentActions messagesToProcess app with
    | (app', r) => ((s, app'), r)
    end.

(** The accepting half of the body of [acceptorLoop]. [accepted] is what
    [accept] returned when [select] reported the listening socket
    readable. The result names the handler thread that was started. *)
Definition accept_part (accepted : option Z) (s : t) : t * option (Z * Z) :=
  match accepted with
  | Some clientSocket =>
      if 0 <=? clientSocket then
        let clientID := nextClientID s in
        let s := set_nextClientID (llong_succ clientID) s in
        let s := set_clients (<[clientID := clientSocket]> (clients s)) s in
        let s := set_messagesToSend (<[clientID := []]> (messagesToSend s)) s in
        (s, Some (clientID, clientSocket))
      else (s, None)
  | None => (s, None)
  end.

(** [void sendToClient(const Message&, ClientID)]; the second component
    of the state holds the stream written to each socket. *)
Definition sendToClient (message : Message.t) (clientID : Z) (r1 r2 : Z)
    : M (t * gmap Z (list byte)) unit := fun '(s, net) =>
  match clients s !! clientID with
  | None => ((s, net), Throw UnknownClient)
  | Some sock =>
      match send_frame message r1 r2 (default [] (net !! sock)) with
      | (tx, r) => ((s, <[sock := tx]> net), r)
      end
  end.

(** The [while (!it->second.empty())] loop of [acceptorLoop] on the queue
    [q] of [clientID]; [rets k] are the return values of the two [::send]
    calls for the [k]-th Message. After a failed send the loop erases
    [it] and then increments it: [None], the behaviour is undefined. *)
Fixpoint flush_queue (clientID : Z) (rets : nat -> Z * Z) (k : nat)
    (q : list Message.t) (w : t * gmap Z (list byte))
    : option (t * gmap Z (list byte)) :=
  match q with
  | [] => Some w
  | front :: rest =>
      match sendToClient front clientID (rets k).1 (rets k).2 w with
      | ((s, net), Ok _) =>
          flush_queue clientID rets (S k) rest
            (set_messagesToSend (<[clientID := rest]> (messagesToSend s)) s, net)
      | (_, Throw _) => None
      end
  end.

(** The [for (auto it = messagesToSend.begin(); ...)] loop of
    [acceptorLoop] over the keys [ids]. *)
Fixpoint flush_loop (rets : Z -> nat -> Z * Z) (ids : list Z)
    (w : t * gmap Z (list byte)) : option (t * gmap Z (list byte)) :=
  match ids with
  | [] => Some w
  | clientID :: ids =>
      match clients w.1 !! clientID with
      | None =>
          flush_loop rets ids
            (set_messagesToSend (delete clientID (messagesToSend w.1)) w.1, w.2)
      | Some _ =>
          match flush_queue clientID (rets clientID) 0 (queue w.1 clientID) w with
          | Some w => flush_loop rets ids w
          | None => None
          end
      end
  end.

(** The keys of a [std::map] in iteration order. *)
Definition keys {V} (m : gmap Z V) : list Z :=
  merge_sort Z.le (map_to_list m).*1.

(** One pass through the body of [acceptorLoop]. *)
Definition acceptorLoop_body (accepted : option Z) (rets : Z -> nat -> Z * Z)
    (w : t * gmap Z (list byte))
    : option (t * gmap Z (list byte)) * option (Z * Z) :=
  let '(s, spawned) := accept_part accepted w.1 in
  (flush_loop rets (keys (messagesToSend s)) (s, w.2), spawned).

(** One pass through the body of the loop of [handleClient]. *)
Definition handleClient_body (clientID : Z) (i : recv_io) (s : t) : loop_step t :=
  match recv_frame i with
  | Continue (Some msg) =>
      Continue (set_receivedMessages
                  (receivedMessages s ++ [(clientID, Message.copy msg)]) s)
  | Continue None => Continue s
  | Break _ => Break s
  | Abort => Abort
  end.

(** The statements of [handleClient] after its loop. *)
Definition handleClient_exit (clientID clientSocket : Z) (w : t * gset Z)
    : t * gset Z :=
  (set_messagesToSend (delete clientID (messagesToSend w.1))
     (set_clients (delete clientID (clients w.1)) w.1),
   w.2 ∖ {[clientSocket]}).

End WithApp.
Arguments t : clear implicits.
Arguments Action : clear implicits.
End Server.

(** ** Dispatch, as the specification describes it *)

(** Calls made one after the other; an exception ends the sequence. *)
Fixpoint run_all {S} (cs : list (M S unit)) : M S unit :=
  match cs with
  | [] => ret tt
  | c :: cs => c >>> run_all cs
  end.

(** The callback invocations a Client's queue [q] stands for under the
    action table [a]: for each Message, in arrival order, the callback
    registered for its type, if there is one. *)
Definition client_calls {App} (a : gmap Z (Client.Action App))
    (q : list Message.t) : list (M App unit) :=
  omap (fun m => match a !! Message.type m with
                 | Some (Some f) => Some (f (Message.copy m))
                 | _ => None
                 end) q.

(** The same for the Server's queue of [(clientID, message)] pairs. *)
Definition server_calls {App} (a : gmap Z (Server.Action App))
    (q : list (Z * Message.t)) : list (M App unit) :=
  omap (fun p => match a !! Message.type p.2 with
                 | Some (Some f) => Some (f p.1 p.2)
                 | _ => None
                 end) q.

(** ** Batch sends, as the specification describes them *)

(** How many times [id] occurs in [ids]. *)
Definition occurrences (id : Z) (ids : list Z) : nat :=
  length (filter (fun x => x = id) ids).

(** Is [id] a key of the client table? *)
Definition known {App} (s : Server.t App) (id : Z) : bool :=
  bool_decide (is_Some (Server.clients s !! id)).

(** What a pass over [ids] that enqueues [message] for the ids selected by
    [sel] leaves behind: each selected queue has grown by one copy for each
    occurrence of its id, the entries of the other ids are as they were,
    and nothing but the outbound queues has changed. *)
Definition pushed {App} (sel : Z -> bool) (message : Message.t) (ids : list Z)
    (s s' : Server.t App) : Prop :=
  (forall id, Server.queue s' id
              = Server.queue s id
                ++ replicate (if sel id then occurrences id ids else 0%nat)
                     (Message.copy message))
  /\ (forall id, sel id = false ->
        Server.messagesToSend s' !! id = Server.messagesToSend s !! id)
  /\ s' = Server.set_messagesToSend (Server.messagesToSend s') s.

(** What the body of the receiver loop leaves alone: it touches the two
    queues and the stop flag only. *)
Definition same_connection {App} (c c' : Client.t App) : Prop :=
  Client.sockfd c' = Client.sockfd c
  /\ Client.isConnected c' = Client.isConnected c
  /\ Client.receiverThread c' = Client.receiverThread c
  /\ Client.actions c' = Client.actions c.

(** ** A Server process

    The Server object, the application state, the streams written to the
    client sockets and the open descriptors, driven by the calls of the
    application thread and the iterations of the acceptor thread and of
    the handler threads, in any interleaving. *)

Module Run.
Section WithApp.
Context {App : Type}.

Record world : Type := mk {
  server : Server.t App;
  app : App;
  net : gmap Z (list byte);
  fds : gset Z
}.

Inductive event : Type :=
  | Start (sock : Z) (opt_ok bind_ok listen_ok : bool)
  | DefineAction (messageType : Z) (action : Server.Action App)
  | SendTo (message : Message.t) (clientID : Z)
  | SendToArray (message : Message.t) (clientIDs : list Z)
  | SendToAll (message : Message.t)
  | Update
  | Acceptor (accepted : option Z) (rets : Z -> nat -> Z * Z)
  | Handler (clientID clientSocket : Z) (i : recv_io).

(** [Server server;] in a process that has nothing open yet. *)
Definition init (a : App) : world := mk Server.ctor a ∅ ∅.

Definition with_server (w : world) (s : Server.t App) : world :=
  mk s (app w) (net w) (fds w).

(** One event. The first component is the world it leaves, [None] when
    the process is gone ([std::terminate]) or its behaviour undefined;
    the second is the ClientID it assigned, if it accepted a connection.
    An exception of an API call is caught by the application. *)
Definition step (ev : event) (w : world) : option world * option Z :=
  let s := server w in
  match ev with
  | Start sock opt_ok bind_ok listen_ok =>
      let '((s', fds'), _) := Server.start sock opt_ok bind_ok listen_ok (s, fds w) in
      (Some (mk s' (app w) (net w) fds'), None)
  | DefineAction messageType action =>
      (Some (with_server w (Server.defineAction messageType action s).1), None)
  | SendTo message clientID =>
      (Some (with_server w (Server.sendTo message clientID s).1), None)
  | SendToArray message clientIDs =>
      (Some (with_server w (Server.sendToArray message clientIDs s).1), None)
  | SendToAll message =>
      (Some (with_server w (Server.sendToAll message s).1), None)
  | Update =>
      let '((s', app'), _) := Server.update (s, app w) in
      (Some (mk s' app' (net w) (fds w)), None)
  | Acceptor accepted rets =>
      if Server.isRunning s && negb (Server.shouldStop s) then
        let '(flushed, spawned) := Server.acceptorLoop_body accepted rets (s, net w) in
        (match flushed with
         | Some (s', net') =>
             Some (mk s' (app w) net'
                     (match spawned with
                      | Some (_, clientSocket) => {[clientSocket]} ∪ fds w
                      | None => fds w
                      end))
         | None => None
         end,
         fst <$> spawned)
      else (Some w, None)
  | Handler clientID clientSocket i =>
      if Server.isRunning s && negb (Server.shouldStop s) then
        match Server.handleClient_body clientID i s with
        | Continue s' => (Some (with_server w s'), None)
        | Break s' =>
            let '(s'', fds') :=
              Server.handleClient_exit clientID clientSocket (s', fds w) in
            (Some (mk s'' (app w) (net w) fds'), None)
        | Abort => (None, None)
        end
      else
        let '(s', fds') :=
          Server.handleClient_exit clientID clientSocket (s, fds w) in
        (Some (mk s' (app w) (net w) fds'), None)
  end.

(** The world a run leaves, [None] when the process is gone. *)
Fixpoint exec (evs : list event) (w : world) : option world :=
  match evs with
  | [] => Some w
  | ev :: evs =>
      match (step ev w).1 with
      | Some w' => exec evs w'
      | None => None
      end
  end.

(** The ClientIDs assigned along a run, in the order of assignment. *)
Fixpoint assigned (evs : list event) (w : world) : list Z :=
  match evs with
  | [] => []
  | ev :: evs =>
      let '(w', id) := step ev w in
      option_list id ++ match w' with
                        | Some w' => assigned evs w'
                        | None => []
                        end
  end.

End WithApp.
Arguments world : clear implicits.
Arguments event : clear implicits.
End Run.

(** ** One connection

    A Client, the Server that has accepted it as [cid], and the two byte
    streams between them, while the connection does not fail: every
    [::send] takes all it is given, and [::recv] with MSG_WAITALL returns
    the bytes asked for as soon as the stream holds them. *)

(** What [select] and the two [::recv] calls of one iteration return on
    the bytes [stream] that have arrived, and the bytes they leave; [None]
    while [::recv] is waiting for the rest of a frame. *)
Definition read_frame (stream : list byte) : option (recv_io * list byte) :=
  if size stream =? 0 then Some (mk_recv_io false RecvFailed RecvFailed, [])
  else if size stream <? sizeof Tsize_t then None
  else
    let hdr := slice 0 (sizeof Tsize_t) stream in
    let n := decode Tsize_t hdr in
    if size stream - sizeof Tsize_t <? n then None
    else Some (mk_recv_io true (Recv hdr) (Recv (slice (sizeof Tsize_t) n stream)),
               slice (sizeof Tsize_t + n) (size stream - (sizeof Tsize_t + n)) stream).

(** The return values of the two [::send] calls that transmit [m] whole. *)
Definition sends_whole (m : Message.t) : Z * Z :=
  (sizeof Tsize_t, size (Message.serialize m)).

(** A Message that can exist: its type is an [int] and its serialized form
    is a representable string. *)
Definition representable (m : Message.t) : Prop :=
  in_range Tint (Message.msgType m) /\ size (Message.serialize m) <= max_size.

Module Link.
Section WithApp.
Context {CApp SApp : Type}.
(** The ClientID the Server has given the connection. *)
Variable cid : Z.

Record state : Type := mk {
  client : Client.t CApp;
  server : Server.t SApp;
  up : list byte;       (* written by the Client, not yet read by the handler *)
  down : list byte      (* written by the Server, not yet read by the Client *)
}.

Inductive event : Type :=
  | ClientSend (message : Message.t)     (* client.send(message) *)
  | ServerSendTo (message : Message.t)   (* server.sendTo(message, cid) *)
  | ClientIteration                      (* body of Client::receiverLoop *)
  | HandlerIteration                     (* body of Server::handleClient *)
  | AcceptorIteration.                   (* body of Server::acceptorLoop *)

(** One event; [None] when it cannot happen on a connection that has not
    failed: the thread is waiting in [::recv], or it would leave its
    loop. *)
Definition step (ev : event) (st : state) : option state :=
  let c := client st in
  let s := server st in
  match ev with
  | ClientSend message =>
      Some (mk (Client.send message c).1 s (up st) (down st))
  | ServerSendTo message =>
      Some (mk c (Server.sendTo message cid s).1 (up st) (down st))
  | ClientIteration =>
      if Client.isConnected c && negb (Client.shouldStop c) then
        match read_frame (down st) with
        | Some (i, rest) =>
            let rets := match Client.messagesToSend c with
                        | front :: _ => sends_whole front
                        | [] => (0, 0)
                        end in
            match Client.receiverLoop_body rets.1 rets.2 i c [] with
            | Continue (c', tx) => Some (mk c' s (up st ++ tx) rest)
            | _ => None
            end
        | None => None
        end
      else None
  | HandlerIteration =>
      if Server.isRunning s && negb (Server.shouldStop s) then
        match read_frame (up st) with
        | Some (i, rest) =>
            match Server.handleClient_body cid i s with
            | Continue s' => Some (mk c s' rest (down st))
            | _ => None
            end
        | None => None
        end
      else None
  | AcceptorIteration =>
      if Server.isRunning s && negb (Server.shouldStop s) then
        match Server.clients s !! cid with
        | Some sock =>
            let rets := fun id k =>
                          match Server.queue s id !! k with
                          | Some m => sends_whole m
                          | None => (0, 0)
                          end in
            match Server.acceptorLoop_body None rets (s, ∅) with
            | (Some (s', net), _) =>
                Some (mk c s' (up st) (down st ++ default [] (net !! sock)))
            | (None, _) => None
            end
        | None => None
        end
      else None
  end.

Fixpoint run (evs : list event) (st : state) : option state :=
  match evs with
  | [] => Some st
  | ev :: evs =>
      match step ev st with
      | Some st' => run evs st'
      | None => None
      end
  end.

(** The Messages the Client's application has handed to [send], and the
    Server's application to [sendTo], in call order. *)
Definition client_sent (evs : list event) : list Message.t :=
  omap (fun ev => match ev with ClientSend m => Some m | _ => None end) evs.
Definition server_sent (evs : list event) : list Message.t :=
  omap (fun ev => match ev with ServerSendTo m => Some m | _ => None end) evs.

(** A connection on which nothing has been sent yet; the socket the
    Server holds for [cid] is the socket of no other client. *)
Definition fresh (st : state) : Prop :=
  Client.isConnected (client st) = true
  /\ Client.messagesToSend (client st) = []
  /\ Client.receivedMessages (client st) = []
  /\ Server.isRunning (server st) = true
  /\ (exists sock,
        Server.clients (server st) !! cid = Some sock
        /\ forall id, id ≠ cid -> Server.clients (server st) !! id ≠ Some sock)
  /\ Server.queue (server st) cid = []
  /\ Server.receivedMessages (server st) = []
  /\ up st = [] /\ down st = [].

End WithApp.
Arguments state : clear implicits.
End Link.

(** Where the Messages the Client has sent are: [done] in the Server's
    inbound queue under [cid], [flight] as frames on the stream, the rest
    in the Client's outbound queue, in this order. *)
Definition upstream {CApp SApp} (cid : Z) (st : Link.state CApp SApp)
    (sent : list Message.t) : Prop :=
  Client.isConnected (Link.client st) = true
  /\ exists done flight,
      Server.receivedMessages (Link.server st) = (fun m => (cid, m)) <$> done
      /\ Link.up st = concat (frame <$> flight)
      /\ Message.copy <$> sent
         = done ++ flight ++ Client.messagesToSend (Link.client st).

(** Where the Messages the Server has sent to [cid] are: in the Client's
    inbound queue, as frames on the stream, and in the Server's outbound
    queue for [cid], in this order. The socket of [cid] is the socket of
    no other client. *)
Definition downstream {CApp SApp} (cid : Z) (st : Link.state CApp SApp)
    (sent : list Message.t) : Prop :=
  Server.isRunning (Link.server st) = true
  /\ (exists sock,
        Server.clients (Link.server st) !! cid = Some sock
        /\ forall id, id ≠ cid -> Server.clients (Link.server st) !! id ≠ Some sock)
  /\ exists flight,
      Link.down st = concat (frame <$> flight)
      /\ Message.copy <$> sent
         = Client.receivedMessages (Link.client st) ++ flight
           ++ Server.queue (Link.server st) cid.

(** A schedule that delivers [ms] to the Server: the application sends
    them, the receiver loop of the Client runs once for each, and then the
    handler loop of the Server runs once for each. *)
Definition deliver_all (ms : list Message.t) : list Link.event :=
  (Link.ClientSend <$> ms)
  ++ replicate (length ms) Link.ClientIteration
  ++ replicate (length ms) Link.HandlerIteration.

(** ** What holds of a Server *)

(** The client table and the map of outbound queues have the same keys:
    every client has its queue and every queue its client. *)
Definition agree_on_keys {App} (s : Server.t App) : Prop :=
  forall id, is_Some (Server.clients s !! id)
             <-> is_Some (Server.messagesToSend s !! id).

(** Every Message the Server holds, received or waiting to be sent, has
    its read cursor at the start of the payload. *)
Definition cursors_at_start {App} (s : Server.t App) : Prop :=
  Forall (fun p => Message.readPos p.2 = 0) (Server.receivedMessages s)
  /\ forall id, Forall (fun m => Message.readPos m = 0) (Server.queue s id).

(** What holds of the Server in every state a run reaches. *)
Definition server_inv {App} (s : Server.t App) : Prop :=
  agree_on_keys s /\ cursors_at_start s.
(** ** Sample data *)

(** The characters of "net". *)
Definition bytes_net : list byte := [x6e; x65; x74].

(** A payload that holds the length prefix 5 and none of the 5 characters. *)
Definition msg_truncated_string : Message.t :=
  Message.mk 1 (encode Tsize_t 5) 0.

(** A payload whose length prefix is the largest [size_t]. *)
Definition msg_huge_prefix : Message.t :=
  Message.mk 1 (encode Tsize_t (size_modulus - 1)) 0.

(** A Message whose four payload bytes have all been read. *)
Definition msg_consumed : Message.t :=
  Message.mk 7 [x01; x02; x03; x04] 4.

(** Two Message objects: the consumed Message at address 1 and a fresh
    one at address 2. *)
Definition two_messages : gmap Message.loc Message.t :=
  <[2%positive := Message.ctor 0]> {[1%positive := msg_consumed]}.

(** A callback that reads an [int] from the Message and appends it to a
    log; the read throws when the payload is short. *)
Definition read_int_cb (msg : Message.t) : M (list Z) unit := fun log =>
  match Message.pop Tint msg with
  | (_, Ok v) => (log ++ [v], Ok tt)
  | (_, Throw e) => (log, Throw e)
  end.

(** A type-1 Message without payload and one that carries the [int] 7. *)
Definition msg_empty : Message.t := Message.ctor 1.
Definition msg_seven : Message.t := Message.mk 1 (encode Tint 7) 0.

(** A connected Client that has received both and dispatches type 1 to
    [read_int_cb]. *)
Definition client_two_received : Client.t (list Z) :=
  Client.mk 3 true false true [msg_empty; msg_seven] []
    {[1 := Some read_int_cb]}.

(** The same Client with [msg_seven] alone in its inbound queue. *)
Definition client_one_received : Client.t (list Z) :=
  Client.mk 3 true false true [msg_seven] [] {[1 := Some read_int_cb]}.

(** A running Server with the clients 1 and 2; client 1 has [msg_empty]
    queued. *)
Definition server_two_clients : Server.t (list Z) :=
  Server.mk 3 true false true
    (<[2 := 5]> {[1 := 4]}) []
    (<[2 := []]> {[1 := [msg_empty]]}) ∅ 3.

(** Return values of [::send] for acceptor iterations that find every
    outbound queue empty: none of them is consulted. *)
Definition no_sends : Z -> nat -> Z * Z := fun _ _ => (8, 0).

(** No data on the socket: [select] times out. *)
Definition idle : recv_io := mk_recv_io false RecvFailed RecvFailed.

(** The peer has closed: the socket is readable and [recv] returns 0. *)
Definition peer_closed : recv_io := mk_recv_io true (Recv []) (Recv []).

(** A Server is started, accepts two connections, loses the first client,
    whose handler cleans up, and accepts a third connection. *)
Definition three_accepts : list (Run.event (list Z)) :=
  [ Run.Start 3 true true true;
    Run.Acceptor (Some 4) no_sends;
    Run.Acceptor (Some 5) no_sends;
    Run.Handler 1 4 peer_closed;
    Run.Acceptor None no_sends;
    Run.Acceptor (Some 4) no_sends ].

(** Three Messages of different types and payloads. *)
Definition msg_A : Message.t := Message.mk 1 (encode Tint 7 ++ encode Tsize_t 3 ++ bytes_net) 0.
Definition msg_B : Message.t := Message.ctor 2.
Definition msg_C : Message.t := Message.mk 3 (encode Tllong (-1)) 0.

(** A Client connected to a Server that has accepted it as client 1 on
    socket 4, next to a client 2 on socket 5. *)
Definition link_start : Link.state unit unit :=
  Link.mk (Client.mk 3 true false true [] [] ∅)
    (Server.mk 3 true false true (<[2 := 5]> {[1 := 4]}) []
       (<[2 := []]> {[1 := []]}) ∅ 3)
    [] [].

(** The Client sends A, B and C while its receiver thread and the handler
    thread of the Server run; the Server answers with C and A. *)
Definition abc_schedule : list Link.event :=
  [ Link.ClientSend msg_A; Link.ClientSend msg_B; Link.ClientIteration;
    Link.HandlerIteration; Link.ClientSend msg_C; Link.ClientIteration;
    Link.ServerSendTo msg_C; Link.ServerSendTo msg_A; Link.ClientIteration;
    Link.AcceptorIteration; Link.HandlerIteration; Link.HandlerIteration;
    Link.ClientIteration; Link.HandlerIteration; Link.ClientIteration ].

(** The state [abc_schedule] leaves: everything delivered, in order. *)
Definition abc_final : Link.state unit unit :=
  Link.mk (Client.mk 3 true false true [msg_C; msg_A] [] ∅)
    (Server.mk 3 true false true (<[2 := 5]> {[1 := 4]})
       [(1, msg_A); (1, msg_B); (1, msg_C)]
       (<[2 := []]> {[1 := []]}) ∅ 3)
    [] [].

(** A connected Client with nothing queued and no callback, its receiver
    thread running. *)
Definition client_idle : Client.t unit := Client.mk 3 true false true [] [] ∅.

(** Three addresses for [connect]: no socket for the first, a refused
    connection on descriptor 5 for the second, an accepted one on
    descriptor 6 for the third. *)
Definition three_candidates : list (Z * bool) := [(-1, false); (5, false); (6, true)].

(** The world [three_accepts] leaves: the clients 2 and 3 on the sockets
    5 and 4. *)
Definition three_accepts_final : Run.world (list Z) :=
  Run.mk (Server.mk 3 true false true (<[3 := 4]> {[2 := 5]}) []
            (<[3 := []]> {[2 := []]}) ∅ 4)
    [] ∅ {[3; 4; 5]}.

(** A Server is started and accepts a connection; the client sends
    [msg_consumed], whose cursor is at the end of its payload, and the
    application sends the same Message back. *)
Definition served_run : list (Run.event (list Z)) :=
  [ Run.Start 3 true true true;
    Run.Acceptor (Some 4) no_sends;
    Run.Handler 1 4
      (mk_recv_io true (Recv (encode Tsize_t 8))
         (Recv (Message.serialize msg_consumed)));
    Run.SendTo msg_consumed 1 ].

(** The world [served_run] leaves. *)
Definition served_final : Run.world (list Z) :=
  Run.mk (Server.mk 3 true false true {[1 := 4]}
            [(1, Message.mk 7 [x01; x02; x03; x04] 0)]
            {[1 := [Message.mk 7 [x01; x02; x03; x04] 0]]} ∅ 2)
    [] ∅ {[3; 4]}.
(** * Properties *)

(** ** Object representations *)

Lemma Z_of_byte_range b : 0 <= Z_of_byte b < 256.
Proof.
  unfold Z_of_byte. pose proof (Byte.to_N_bounded b). lia.
Qed.

Lemma Z_of_byte_of_Z z : Z_of_byte (byte_of_Z z) = z mod 256.
Proof.
  unfold Z_of_byte, byte_of_Z.
  pose proof (Z.mod_pos_bound z 256 ltac:(lia)) as Hr.
  destruct (Byte.of_N (Z.to_N (z mod 256))) as [b|] eqn:E.
  - apply Byte.to_of_N in E. rewrite E. lia.
  - apply Byte.of_N_None_iff in E. lia.
Qed.

Lemma length_le_bytes n x : length (le_bytes n x) = n.
Proof. revert x. induction n; intros; simpl; auto. Qed.

Lemma le_value_range bs : 0 <= le_value bs < 2 ^ (8 * size bs).
Proof.
  unfold size. induction bs as [|b r IH]; simpl le_value.
  - simpl. lia.
  - pose proof (Z_of_byte_range b).
    replace (8 * Z.of_nat (length (b :: r))) with (8 + 8 * Z.of_nat (length r))
      by (simpl length; lia).
    rewrite Z.pow_add_r by lia. change (2 ^ 8) with 256. nia.
Qed.

Lemma le_value_le_bytes n x :
  le_value (le_bytes n x) = x mod 2 ^ (8 * Z.of_nat n).
Proof.
  revert x. induction n as [|k IH]; intros x.
  - simpl. now rewrite Z.mod_1_r.
  - cbn [le_bytes le_value]. rewrite Z_of_byte_of_Z, IH.
    replace (8 * Z.of_nat (S k)) with (8 + 8 * Z.of_nat k) by lia.
    rewrite Z.pow_add_r by lia. change (2 ^ 8) with 256.
    rewrite Z.rem_mul_r by lia. reflexivity.
Qed.

Lemma size_encode ty x : size (encode ty x) = sizeof ty.
Proof. unfold size, encode, sizeof. now rewrite length_le_bytes. Qed.

Lemma decode_encode ty x : in_range ty x -> decode ty (encode ty x) = x.
Proof.
  unfold in_range, decode, encode. rewrite le_value_le_bytes.
  fold (sizeof ty). fold (bits ty).
  assert (Hb : 0 < bits ty) by (destruct ty; cbv; reflexivity).
  assert (Hp : 2 ^ bits ty = 2 * 2 ^ (bits ty - 1)).
  { rewrite <- Z.pow_succ_r by lia. f_equal. lia. }
  assert (0 < 2 ^ (bits ty - 1)) by (apply Z.pow_pos_nonneg; lia).
  destruct (is_signed ty); simpl; intros Hx.
  - destruct (Z.leb_spec (2 ^ (bits ty - 1)) (x mod 2 ^ bits ty)) as [Hge|Hlt].
    + destruct (Z.neg_nonneg_cases x) as [Hn|Hn].
      * rewrite <- (Z.mod_add x 1) by lia.
        rewrite Z.mod_small by lia. lia.
      * rewrite Z.mod_small in Hge by lia. lia.
    + destruct (Z.neg_nonneg_cases x) as [Hn|Hn].
      * rewrite <- (Z.mod_add x 1) in Hlt by lia.
        rewrite Z.mod_small in Hlt by lia. lia.
      * apply Z.mod_small. lia.
  - apply Z.mod_small. lia.
Qed.

(** ** Slices and size_t sums *)

Lemma size_app {A} (l k : list A) : size (l ++ k) = size l + size k.
Proof. unfold size. rewrite length_app. lia. Qed.

Lemma size_nonneg {A} (l : list A) : 0 <= size l.
Proof. unfold size. lia. Qed.

Lemma slice_middle {A} (pre a post : list A) :
  slice (size pre) (size a) (pre ++ a ++ post) = a.
Proof.
  unfold slice, size. rewrite !Nat2Z.id.
  rewrite drop_app_length. apply take_app_length.
Qed.

Lemma slice_all {A} (n : Z) (l : list A) : size l <= n -> slice 0 n l = l.
Proof.
  unfold slice, size. intros H. simpl. apply take_ge. lia.
Qed.

Lemma slice_tail {A} (pre l : list A) :
  slice (size pre) (size (pre ++ l) - size pre) (pre ++ l) = l.
Proof.
  rewrite size_app. replace (size pre + size l - size pre) with (size l) by lia.
  rewrite <- (app_nil_r l) at 2. rewrite slice_middle. reflexivity.
Qed.

Lemma size_add_small a b :
  0 <= a -> 0 <= b -> a + b < size_modulus -> size_add a b = a + b.
Proof. intros. unfold size_add. apply Z.mod_small. lia. Qed.

Lemma max_size_lt_modulus : max_size < size_modulus.
Proof. reflexivity. Qed.

Lemma max_size_headroom : max_size + 8 < size_modulus.
Proof. reflexivity. Qed.

Lemma sizeof_bounds ty : 1 <= sizeof ty <= 8.
Proof. destruct ty; cbv; split; discriminate. Qed.

Lemma in_range_size {A} (l : list A) : size l <= max_size -> in_range Tsize_t (size l).
Proof.
  intros H. unfold in_range. simpl. pose proof (size_nonneg l).
  change (2 ^ bits Tsize_t) with size_modulus.
  pose proof max_size_lt_modulus. lia.
Qed.

(** ** Message: appends and reads *)

Lemma push_value_spec v m :
  push_value v m = (Message.set_buffer (Message.buffer m ++ value_bytes v) m, Ok tt).
Proof.
  destruct v as [ty x|s]; simpl.
  - reflexivity.
  - unfold Message.push_string, Message.push, bind, modify. simpl.
    unfold Message.set_buffer. simpl. now rewrite <- app_assoc.
Qed.

Lemma push_values_spec vs m :
  push_values vs m = (Message.set_buffer (Message.buffer m ++ payload vs) m, Ok tt).
Proof.
  revert m. induction vs as [|v vs IH]; intros m.
  - simpl. unfold ret, payload. simpl. rewrite app_nil_r. now destruct m.
  - cbn [push_values]. unfold bind. rewrite push_value_spec, IH.
    unfold Message.set_buffer, payload. simpl. now rewrite <- app_assoc.
Qed.

Lemma pop_at ty x mt pre post :
  size (pre ++ encode ty x ++ post) <= max_size ->
  in_range ty x ->
  Message.pop ty (Message.mk mt (pre ++ encode ty x ++ post) (size pre))
  = (Message.mk mt (pre ++ encode ty x ++ post) (size pre + sizeof ty), Ok x).
Proof.
  intros Hsz Hx. unfold Message.pop. simpl.
  pose proof (size_nonneg pre). pose proof (size_nonneg post).
  pose proof (sizeof_bounds ty). pose proof max_size_lt_modulus.
  rewrite !size_app, size_encode in Hsz.
  rewrite size_add_small by lia.
  rewrite !size_app, size_encode.
  destruct (Z.ltb_spec (size pre + (sizeof ty + size post)) (size pre + sizeof ty)); [lia|].
  unfold Message.set_readPos. simpl.
  rewrite <- (size_encode ty x) at 2. rewrite slice_middle.
  now rewrite decode_encode.
Qed.

Lemma pop_string_at s mt pre post :
  size (pre ++ (encode Tsize_t (size s) ++ s) ++ post) <= max_size ->
  Message.pop_string
    (Message.mk mt (pre ++ (encode Tsize_t (size s) ++ s) ++ post) (size pre))
  = (Message.mk mt (pre ++ (encode Tsize_t (size s) ++ s) ++ post)
       (size pre + (sizeof Tsize_t + size s)), Ok s).
Proof.
  intros Hsz. unfold Message.pop_string, bind.
  pose proof (size_nonneg pre). pose proof (size_nonneg post).
  pose proof (size_nonneg s). pose proof max_size_lt_modulus.
  pose proof (sizeof_bounds Tsize_t).
  assert (Hs : size s <= max_size).
  { rewrite !size_app in Hsz. pose proof (size_nonneg (encode Tsize_t (size s))). lia. }
  rewrite <- (app_assoc (encode _ _) s post).
  rewrite pop_at; [|now rewrite (app_assoc (encode _ _) s post)|now apply in_range_size].
  cbn [Message.readPos Message.buffer].
  rewrite !size_app, size_encode in Hsz.
  rewrite size_add_small by lia.
  assert (Hlen : size (pre ++ encode Tsize_t (size s) ++ s ++ post)
                 = size pre + sizeof Tsize_t + size s + size post).
  { rewrite !size_app, size_encode. lia. }
  rewrite Hlen.
  destruct (Z.ltb_spec (size pre + sizeof Tsize_t + size s + size post)
              (size pre + sizeof Tsize_t + size s)); [lia|].
  unfold Message.string_assign. cbn [Message.buffer]. rewrite Hlen.
  destruct (Z.leb_spec (size pre + sizeof Tsize_t + size s)
              (size pre + sizeof Tsize_t + size s + size post)); [|lia].
  unfold Message.set_readPos. cbn [Message.msgType Message.buffer Message.readPos].
  replace (size pre + sizeof Tsize_t) with (size (pre ++ encode Tsize_t (size s)))
    by (rewrite size_app, size_encode; reflexivity).
  rewrite (app_assoc pre). rewrite slice_middle.
  rewrite size_app, size_encode. do 2 f_equal. lia.
Qed.

Lemma payload_cons v vs : payload (v :: vs) = value_bytes v ++ payload vs.
Proof. reflexivity. Qed.

Lemma pop_value_at v mt pre post :
  value_ok v ->
  size (pre ++ value_bytes v ++ post) <= max_size ->
  pop_value (type_of v) (Message.mk mt (pre ++ value_bytes v ++ post) (size pre))
  = (Message.mk mt (pre ++ value_bytes v ++ post) (size pre + size (value_bytes v)),
     Ok v).
Proof.
  intros Hv Hsz. destruct v as [ty x|s]; cbn [type_of pop_value value_bytes] in *;
    unfold bind, ret.
  - rewrite pop_at by assumption. now rewrite size_encode.
  - rewrite pop_string_at by assumption. now rewrite size_app, size_encode.
Qed.

Lemma pop_values_at vs : forall mt pre post,
  Forall value_ok vs ->
  size (pre ++ payload vs ++ post) <= max_size ->
  pop_values (map type_of vs) (Message.mk mt (pre ++ payload vs ++ post) (size pre))
  = (Message.mk mt (pre ++ payload vs ++ post) (size pre + size (payload vs)), Ok vs).
Proof.
  induction vs as [|v vs IH]; intros mt pre post Hok Hsz.
  - cbn [map pop_values]. unfold ret. change (size (payload [])) with 0.
    now rewrite Z.add_0_r.
  - inversion Hok as [|? ? Hv Hvs]; subst.
    cbn [map pop_values]. unfold bind, ret.
    rewrite payload_cons in *. rewrite <- !app_assoc in *.
    rewrite pop_value_at by assumption.
    replace (size pre + size (value_bytes v)) with (size (pre ++ value_bytes v))
      by apply size_app.
    rewrite (app_assoc pre (value_bytes v)) in *.
    rewrite IH by assumption.
    rewrite !size_app. do 2 f_equal. lia.
Qed.

(** C1. Values appended to a Message with [operator<<] (fixed-size scalars
    and strings, in any number, none included) and then extracted with
    [operator>>] in the same order at the same types come back equal to the
    values appended. The Message is any one whose earlier content has been
    consumed, a freshly constructed one in particular; the values are values
    of their types and the payload is a representable vector. *)
Theorem message_roundtrip (m : Message.t) (vs : list value) :
  Message.readPos m = size (Message.buffer m) ->
  Forall value_ok vs ->
  size (Message.buffer m ++ payload vs) <= max_size ->
  (push_values vs >>> pop_values (map type_of vs)) m
  = (Message.mk (Message.msgType m) (Message.buffer m ++ payload vs)
       (size (Message.buffer m ++ payload vs)),
     Ok vs).
Proof.
  intros Hpos Hok Hsz. unfold bind. rewrite push_values_spec.
  destruct m as [mt buf pos]. cbn [Message.readPos Message.buffer Message.msgType] in *.
  subst pos. unfold Message.set_buffer. cbn [Message.readPos Message.buffer Message.msgType].
  rewrite <- (app_nil_r (payload vs)) at 1 2.
  rewrite pop_values_at; [|assumption|now rewrite app_nil_r].
  rewrite app_nil_r, size_app. reflexivity.
Qed.

Lemma message_roundtrip_witness :
  (push_values [VScalar Tint 7; VString bytes_net]
   >>> pop_values [TScalar Tint; TString]) (Message.ctor 1)
  = (Message.mk 1 (payload [VScalar Tint 7; VString bytes_net]) 15,
     Ok [VScalar Tint 7; VString bytes_net]).
Proof.
  apply (message_roundtrip (Message.ctor 1) [VScalar Tint 7; VString bytes_net]).
  - reflexivity.
  - repeat constructor; vm_compute; intuition discriminate.
  - vm_compute. discriminate.
Defined.

(** ** Message: failed reads *)

Lemma pop_no_wrap ty m :
  Message.wf m ->
  size_add (Message.readPos m) (sizeof ty) = Message.readPos m + sizeof ty.
Proof.
  intros [Hp Hs]. pose proof (sizeof_bounds ty).
  pose proof max_size_headroom. apply size_add_small; lia.
Qed.

Lemma pop_short ty m :
  Message.wf m -> Message.remaining m < sizeof ty ->
  Message.pop ty m = (m, Throw DeserializationFailed).
Proof.
  intros Hwf Hr. unfold Message.pop, Message.remaining in *.
  rewrite pop_no_wrap by assumption.
  destruct (Z.ltb_spec (size (Message.buffer m)) (Message.readPos m + sizeof ty));
    [reflexivity | lia].
Qed.

Lemma pop_enough ty m :
  Message.wf m -> sizeof ty <= Message.remaining m ->
  Message.pop ty m
  = (Message.set_readPos (Message.readPos m + sizeof ty) m,
     Ok (decode ty (slice (Message.readPos m) (sizeof ty) (Message.buffer m)))).
Proof.
  intros Hwf Hr. unfold Message.pop, Message.remaining in *.
  rewrite pop_no_wrap by assumption.
  destruct (Z.ltb_spec (size (Message.buffer m)) (Message.readPos m + sizeof ty));
    [lia | reflexivity].
Qed.

Lemma prefix_nonneg m : 0 <= Message.prefix_at_cursor m.
Proof.
  unfold Message.prefix_at_cursor, decode. cbn [is_signed andb].
  apply le_value_range.
Qed.

Lemma pop_string_short_prefix m :
  Message.wf m -> Message.remaining m < sizeof Tsize_t ->
  Message.pop_string m = (m, Throw DeserializationFailed).
Proof.
  intros Hwf Hr. unfold Message.pop_string, bind. now rewrite pop_short.
Qed.

Lemma pop_string_short_content m :
  Message.wf m -> sizeof Tsize_t <= Message.remaining m ->
  Message.remaining m - sizeof Tsize_t < Message.prefix_at_cursor m ->
  Message.readPos m + sizeof Tsize_t + Message.prefix_at_cursor m < size_modulus ->
  Message.pop_string m
  = (Message.set_readPos (Message.readPos m + sizeof Tsize_t) m,
     Throw DeserializationFailed).
Proof.
  intros Hwf Hr Hn Hw. unfold Message.pop_string, bind.
  rewrite pop_enough by assumption.
  fold (Message.prefix_at_cursor m).
  pose proof (prefix_nonneg m). destruct Hwf as [Hp Hs].
  pose proof (sizeof_bounds Tsize_t).
  unfold Message.set_readPos, Message.remaining in *.
  cbn [Message.readPos Message.buffer Message.msgType].
  rewrite size_add_small by lia.
  destruct (Z.ltb_spec (size (Message.buffer m))
              (Message.readPos m + sizeof Tsize_t + Message.prefix_at_cursor m));
    [reflexivity | lia].
Qed.

Lemma pop_string_enough m :
  Message.wf m -> sizeof Tsize_t <= Message.remaining m ->
  Message.prefix_at_cursor m <= Message.remaining m - sizeof Tsize_t ->
  Message.pop_string m
  = (Message.set_readPos
       (Message.readPos m + sizeof Tsize_t + Message.prefix_at_cursor m) m,
     Ok (slice (Message.readPos m + sizeof Tsize_t) (Message.prefix_at_cursor m)
           (Message.buffer m))).
Proof.
  intros Hwf Hr Hn. unfold Message.pop_string, bind.
  rewrite pop_enough by assumption.
  fold (Message.prefix_at_cursor m).
  pose proof (prefix_nonneg m). destruct Hwf as [Hp Hs].
  pose proof (sizeof_bounds Tsize_t). pose proof max_size_lt_modulus.
  unfold Message.set_readPos, Message.remaining, Message.string_assign in *.
  cbn [Message.readPos Message.buffer Message.msgType].
  rewrite size_add_small by lia.
  destruct (Z.ltb_spec (size (Message.buffer m))
              (Message.readPos m + sizeof Tsize_t + Message.prefix_at_cursor m));
    [lia|].
  destruct (Z.leb_spec
              (Message.readPos m + sizeof Tsize_t + Message.prefix_at_cursor m)
              (size (Message.buffer m))); [reflexivity | lia].
Qed.

(** C2, amended. In every Message state, a read of a fixed-size scalar
    raises DeserializationFailed if and only if fewer than [sizeof(T)]
    bytes remain after the cursor; it raises nothing else, it leaves the
    Message (its cursor included) unchanged when it raises, and it advances
    the cursor by [sizeof(T)] when it succeeds. A read of a string raises
    DeserializationFailed with the cursor unchanged when fewer than the 8
    bytes of the length prefix remain; when the prefix [n] can be read and
    fewer than [n] bytes remain after it (with cursor + 8 + n below 2^64),
    it raises DeserializationFailed and the cursor stays advanced past the
    prefix, by 8; when [n] bytes remain after the prefix it succeeds and
    the cursor advances by 8 + n. *)
Theorem pop_failure_and_cursor (m : Message.t) :
  Message.wf m ->
  (forall ty,
      ((exists m', Message.pop ty m = (m', Throw DeserializationFailed))
       <-> Message.remaining m < sizeof ty)
      /\ (forall m' e, Message.pop ty m = (m', Throw e) ->
            m' = m /\ e = DeserializationFailed)
      /\ (forall m' x, Message.pop ty m = (m', Ok x) ->
            m' = Message.set_readPos (Message.readPos m + sizeof ty) m))
  /\ (Message.remaining m < sizeof Tsize_t ->
        Message.pop_string m = (m, Throw DeserializationFailed))
  /\ (sizeof Tsize_t <= Message.remaining m ->
      Message.remaining m - sizeof Tsize_t < Message.prefix_at_cursor m ->
      Message.readPos m + sizeof Tsize_t + Message.prefix_at_cursor m < size_modulus ->
        Message.pop_string m
        = (Message.set_readPos (Message.readPos m + sizeof Tsize_t) m,
           Throw DeserializationFailed))
  /\ (sizeof Tsize_t <= Message.remaining m ->
      Message.prefix_at_cursor m <= Message.remaining m - sizeof Tsize_t ->
        Message.pop_string m
        = (Message.set_readPos
             (Message.readPos m + sizeof Tsize_t + Message.prefix_at_cursor m) m,
           Ok (slice (Message.readPos m + sizeof Tsize_t)
                 (Message.prefix_at_cursor m) (Message.buffer m)))).
Proof.
  intros Hwf. split; [|split; [|split]].
  - intros ty.
    destruct (Z.lt_ge_cases (Message.remaining m) (sizeof ty)) as [Hlt|Hge].
    + pose proof (pop_short ty m Hwf Hlt) as E. rewrite E.
      split; [|split].
      * split; [intros _; exact Hlt | intros _; eauto].
      * intros m' e [= <- <-]. auto.
      * intros m' x [=].
    + pose proof (pop_enough ty m Hwf Hge) as E. rewrite E.
      split; [|split].
      * split; [intros [m' [=]] | lia].
      * intros m' e [=].
      * intros m' x [= <- _]. reflexivity.
  - now apply pop_string_short_prefix.
  - now apply pop_string_short_content.
  - now apply pop_string_enough.
Qed.

Lemma msg_truncated_string_wf : Message.wf msg_truncated_string.
Proof. vm_compute. intuition discriminate. Qed.

Lemma pop_failure_and_cursor_witness :
  Message.wf msg_truncated_string
  /\ Message.pop_string msg_truncated_string
     = (Message.set_readPos 8 msg_truncated_string, Throw DeserializationFailed).
Proof.
  split; [exact msg_truncated_string_wf|].
  apply (pop_failure_and_cursor msg_truncated_string msg_truncated_string_wf);
    vm_compute; congruence.
Defined.

(** C2 as stated fails: a string read that finds its length prefix but not
    its content raises DeserializationFailed with the cursor moved. *)
Lemma pop_string_failure_moves_cursor :
  Message.wf msg_truncated_string
  /\ exists m',
      Message.pop_string msg_truncated_string = (m', Throw DeserializationFailed)
      /\ Message.readPos m' <> Message.readPos msg_truncated_string.
Proof.
  split; [exact msg_truncated_string_wf|].
  exists (Message.set_readPos 8 msg_truncated_string).
  split; [vm_compute; reflexivity | vm_compute; discriminate].
Qed.

(** The guard of the string read adds the untrusted prefix to the cursor in
    [size_t]: the sum wraps, the guard passes with no content behind the
    prefix, and the failure is not a DeserializationFailed. *)
Example pop_string_wrapped_guard :
  Message.wf msg_huge_prefix
  /\ Message.pop_string msg_huge_prefix
     = (Message.set_readPos 8 msg_huge_prefix, Throw LengthError).
Proof. split; [vm_compute; intuition discriminate | vm_compute; reflexivity]. Qed.

Lemma deserialize_short m data :
  size data < 4 ->
  Message.deserialize data m = (m, Throw DeserializationFailed).
Proof.
  intros H. unfold Message.deserialize. change (sizeof Tint) with 4.
  destruct (Z.ltb_spec (size data) 4); [reflexivity | lia].
Qed.

Lemma deserialize_enough m data :
  4 <= size data ->
  Message.deserialize data m
  = (Message.mk (decode Tint (take 4 data)) (drop 4 data) 0, Ok tt).
Proof.
  intros H. unfold Message.deserialize. change (sizeof Tint) with 4.
  destruct (Z.ltb_spec (size data) 4); [lia|].
  unfold slice. change (Z.to_nat 0) with 0%nat. change (Z.to_nat 4) with 4%nat.
  rewrite drop_0. rewrite (take_ge (drop 4 data)); [reflexivity|].
  rewrite length_drop. unfold size in *. lia.
Qed.

(** C3. [deserialize] on fewer bytes than the 4-byte type field raises
    DeserializationFailed and leaves type, payload and cursor as they were;
    on at least 4 bytes it makes the first 4 bytes the type, the remaining
    bytes the payload, and sets the cursor to zero. *)
Theorem deserialize_spec (m : Message.t) (data : list byte) :
  (size data < 4 ->
     Message.deserialize data m = (m, Throw DeserializationFailed))
  /\ (4 <= size data ->
     Message.deserialize data m
     = (Message.mk (decode Tint (take 4 data)) (drop 4 data) 0, Ok tt)).
Proof.
  split; [apply deserialize_short | apply deserialize_enough].
Qed.

Lemma deserialize_spec_witness :
  Message.deserialize bytes_net msg_consumed
  = (msg_consumed, Throw DeserializationFailed)
  /\ Message.deserialize (Message.serialize msg_consumed) (Message.ctor 0)
     = (Message.mk 7 [x01; x02; x03; x04] 0, Ok tt).
Proof.
  split.
  - apply (deserialize_spec msg_consumed bytes_net). vm_compute. reflexivity.
  - apply (deserialize_spec (Message.ctor 0) (Message.serialize msg_consumed)).
    vm_compute. discriminate.
Defined.

(** ** Message: copies *)

(** C10, amended. Copy-constructing from a Message gives a Message with the
    same type and the same payload and the read cursor at zero, whatever the
    cursor of the source. Copy-assigning from it to a different Message
    object does the same to the destination and leaves the source and every
    other object as they were. Assigning a Message to itself changes
    nothing: its cursor stays where it was. *)
Theorem copy_resets_cursor
    (h : gmap Message.loc Message.t) (this other : Message.loc) (o : Message.t) :
  h !! other = Some o ->
  Message.type (Message.copy o) = Message.type o
  /\ Message.buffer (Message.copy o) = Message.buffer o
  /\ Message.readPos (Message.copy o) = 0
  /\ (forall new, Message.copy_construct new other h !! new = Some (Message.copy o))
  /\ (this ≠ other ->
        Message.op_assign this other h !! this = Some (Message.copy o)
        /\ Message.op_assign this other h !! other = Some o
        /\ forall l, l ≠ this -> Message.op_assign this other h !! l = h !! l)
  /\ (this = other -> Message.op_assign this other h = h).
Proof.
  intros Ho. repeat split; try reflexivity.
  - intros new. unfold Message.copy_construct. rewrite Ho.
    apply lookup_insert_eq.
  - unfold Message.op_assign. rewrite decide_True by assumption. rewrite Ho.
    apply lookup_insert_eq.
  - unfold Message.op_assign. rewrite decide_True by assumption. rewrite Ho.
    rewrite lookup_insert_ne by assumption. exact Ho.
  - intros l Hl. unfold Message.op_assign. rewrite decide_True by assumption.
    rewrite Ho. rewrite lookup_insert_ne by congruence. reflexivity.
  - intros ->. unfold Message.op_assign. rewrite decide_False; [reflexivity|].
    intros Hne. now apply Hne.
Qed.

Lemma copy_resets_cursor_witness :
  Message.op_assign 2%positive 1%positive two_messages !! 2%positive = Some (Message.copy msg_consumed)
  /\ Message.readPos (Message.copy msg_consumed) = 0.
Proof.
  pose proof (copy_resets_cursor two_messages 2%positive 1%positive msg_consumed
                eq_refl) as (_ & _ & Hpos & _ & Hne & _).
  split; [apply Hne; discriminate | exact Hpos].
Defined.

(** C10 as stated fails at self-assignment: the Message assigned from has
    its cursor past zero, and the destination's cursor is not reset. *)
Lemma self_assignment_keeps_cursor :
  0 < Message.readPos msg_consumed
  /\ Message.op_assign 1%positive 1%positive two_messages !! 1%positive = Some msg_consumed
  /\ Message.readPos msg_consumed <> 0.
Proof. repeat split; vm_compute; congruence. Qed.

(** ** Message: the cursor stays inside the payload *)

Lemma wf_ctor type : Message.wf (Message.ctor type).
Proof. unfold Message.wf. cbn. change (size (@nil byte)) with 0. split; [lia|]. discriminate. Qed.

Lemma wf_copy m : size (Message.buffer m) <= max_size -> Message.wf (Message.copy m).
Proof. intros H. unfold Message.wf. cbn. pose proof (size_nonneg (Message.buffer m)). lia. Qed.

Lemma wf_push ty x m :
  Message.wf m -> size (Message.buffer m) + sizeof ty <= max_size ->
  Message.wf (Message.push ty x m).1.
Proof.
  intros [Hp Hs] Hfit. unfold Message.wf. cbn.
  rewrite size_app, size_encode. pose proof (sizeof_bounds ty). lia.
Qed.

Lemma wf_pop ty m : Message.wf m -> Message.wf (Message.pop ty m).1.
Proof.
  intros Hwf. destruct (Z.lt_ge_cases (Message.remaining m) (sizeof ty)) as [H|H].
  - now rewrite pop_short.
  - rewrite pop_enough by assumption. destruct Hwf as [Hp Hs].
    unfold Message.wf, Message.remaining in *. cbn.
    pose proof (sizeof_bounds ty). lia.
Qed.

Lemma wf_pop_string m : Message.wf m -> Message.wf (Message.pop_string m).1.
Proof.
  intros Hwf.
  destruct (Z.lt_ge_cases (Message.remaining m) (sizeof Tsize_t)) as [H|H].
  - now rewrite pop_string_short_prefix.
  - pose proof (wf_pop Tsize_t m Hwf) as Hwf1.
    unfold Message.pop_string, bind. rewrite pop_enough in * by assumption.
    fold (Message.prefix_at_cursor m). pose proof (prefix_nonneg m) as Hn.
    cbn [fst] in Hwf1.
    set (m1 := Message.set_readPos (Message.readPos m + sizeof Tsize_t) m) in *.
    destruct (size (Message.buffer m1)
              <? size_add (Message.readPos m1) (Message.prefix_at_cursor m));
      [exact Hwf1|].
    unfold Message.string_assign.
    destruct (Z.leb_spec (Message.readPos m1 + Message.prefix_at_cursor m)
                (size (Message.buffer m1))); [|exact Hwf1].
    cbn [fst]. destruct Hwf1 as [Hp Hs]. unfold Message.wf.
    cbn [Message.readPos Message.buffer Message.set_readPos].
    pose proof max_size_lt_modulus.
    rewrite size_add_small by lia. lia.
Qed.

Lemma wf_deserialize data m :
  Message.wf m -> size data <= max_size ->
  Message.wf (Message.deserialize data m).1.
Proof.
  intros Hwf Hs. destruct (Z.lt_ge_cases (size data) 4) as [H|H].
  - now rewrite deserialize_short.
  - rewrite deserialize_enough by assumption. unfold Message.wf. cbn.
    assert (size (drop 4 data) = size data - 4)
      by (unfold size in *; rewrite length_drop; lia).
    lia.
Qed.

(** ** update *)

Lemma run_all_app {S} (pre post : list (M S unit)) (s : S) :
  run_all (pre ++ post) s
  = match run_all pre s with
    | (s', Ok _) => run_all post s'
    | (s', Throw e) => (s', Throw e)
    end.
Proof.
  revert s. induction pre as [|c pre IH]; intros s; cbn [app run_all].
  - reflexivity.
  - unfold bind. destruct (c s) as [s1 [[]|e]]; [apply IH | reflexivity].
Qed.

Lemma client_dispatch_calls {App} (a : gmap Z (Client.Action App)) q :
  Client.dispatch a q = run_all (client_calls a q).
Proof.
  induction q as [|m q IH]; [reflexivity|].
  cbn [Client.dispatch]. unfold client_calls. cbn [omap list_omap].
  change (Message.type (Message.copy m)) with (Message.type m).
  destruct (a !! Message.type m) as [[f|]|]; cbn [run_all]; now rewrite IH.
Qed.

Lemma server_dispatch_calls {App} (a : gmap Z (Server.Action App)) q :
  Server.dispatch a q = run_all (server_calls a q).
Proof.
  induction q as [|[id m] q IH]; [reflexivity|].
  cbn [Server.dispatch]. unfold server_calls. cbn [omap list_omap fst snd].
  destruct (a !! Message.type m) as [[f|]|]; cbn [run_all]; now rewrite IH.
Qed.

(** C4, amended. [update] raises NotConnected (Client) or NotStarted
    (Server) when not connected or not running, and changes nothing. When
    connected or running it empties the inbound queue and invokes, in
    arrival order, the callback the action table holds for the type of each
    drained message, passing over the messages whose type has none, up to
    and including the first callback that throws: every callback is invoked
    when none throws; when one throws, its exception leaves [update] and
    the messages behind it are neither dispatched nor kept. A second
    [update] finds the queue empty and dispatches nothing. *)
Theorem update_dispatch {App : Type} :
  (forall (c : Client.t App) (app : App),
      (Client.isConnected c = false ->
         Client.update (c, app) = ((c, app), Throw NotConnected))
      /\ (Client.isConnected c = true ->
          let calls := client_calls (Client.actions c) (Client.receivedMessages c) in
          let c' := Client.set_receivedMessages [] c in
          Client.update (c, app)
          = ((c', (run_all calls app).1), (run_all calls app).2)
          /\ (forall pre k post app1 app2 e,
                calls = pre ++ k :: post ->
                run_all pre app = (app1, Ok tt) -> k app1 = (app2, Throw e) ->
                Client.update (c, app) = ((c', app2), Throw e))
          /\ forall app', Client.update (c', app') = ((c', app'), Ok tt)))
  /\ (forall (s : Server.t App) (app : App),
      (Server.isRunning s = false ->
         Server.update (s, app) = ((s, app), Throw NotStarted))
      /\ (Server.isRunning s = true ->
          let calls := server_calls (Server.actions s) (Server.receivedMessages s) in
          let s' := Server.set_receivedMessages [] s in
          Server.update (s, app)
          = ((s', (run_all calls app).1), (run_all calls app).2)
          /\ (forall pre k post app1 app2 e,
                calls = pre ++ k :: post ->
                run_all pre app = (app1, Ok tt) -> k app1 = (app2, Throw e) ->
                Server.update (s, app) = ((s', app2), Throw e))
          /\ forall app', Server.update (s', app') = ((s', app'), Ok tt))).
Proof.
  split.
  - intros c app. split; intros Hc.
    + unfold Client.update. now rewrite Hc.
    + intros calls c'.
      assert (Hu : Client.update (c, app)
                   = ((c', (run_all calls app).1), (run_all calls app).2)).
      { unfold Client.update. rewrite Hc. cbn [negb].
        rewrite client_dispatch_calls. fold calls.
        now destruct (run_all calls app). }
      split; [exact Hu|]. split.
      * intros pre k post app1 app2 e Hcalls Hpre Hk.
        rewrite Hu, Hcalls, run_all_app, Hpre. cbn [run_all]. unfold bind.
        now rewrite Hk.
      * intros app'. unfold Client.update. subst c'. cbn. now rewrite Hc.
  - intros s app. split; intros Hs.
    + unfold Server.update. now rewrite Hs.
    + intros calls s'.
      assert (Hu : Server.update (s, app)
                   = ((s', (run_all calls app).1), (run_all calls app).2)).
      { unfold Server.update. rewrite Hs. cbn [negb].
        rewrite server_dispatch_calls. fold calls.
        now destruct (run_all calls app). }
      split; [exact Hu|]. split.
      * intros pre k post app1 app2 e Hcalls Hpre Hk.
        rewrite Hu, Hcalls, run_all_app, Hpre. cbn [run_all]. unfold bind.
        now rewrite Hk.
      * intros app'. unfold Server.update. subst s'. cbn. now rewrite Hs.
Qed.

Lemma update_dispatch_witness :
  Client.update (client_one_received, [])
  = ((Client.set_receivedMessages [] client_one_received, [7]), Ok tt)
  /\ Client.update (Client.set_receivedMessages [] client_one_received, [7])
     = ((Client.set_receivedMessages [] client_one_received, [7]), Ok tt).
Proof.
  destruct (@update_dispatch (list Z)) as [Hc _].
  destruct (Hc client_one_received []) as [_ Hc'].
  destruct (Hc' eq_refl) as (Hu & _ & Hagain).
  split; [etransitivity; [exact Hu | reflexivity] | apply Hagain].
Defined.

(** C4 as stated fails: the callback of the first queued message throws,
    [update] is left with the exception, and the second message, whose
    callback would have logged 7, is not dispatched although it has left
    the queue. *)
Lemma update_stops_at_throwing_callback :
  Client.isConnected client_two_received = true
  /\ Client.actions client_two_received !! Message.type msg_seven
     = Some (Some read_int_cb)
  /\ read_int_cb (Message.copy msg_seven) [] = ([7], Ok tt)
  /\ Client.update (client_two_received, [])
     = ((Client.set_receivedMessages [] client_two_received, []),
        Throw DeserializationFailed).
Proof. repeat split; reflexivity. Qed.

(** ** sendTo, sendToArray, sendToAll *)

Section Sends.
Context {App : Type}.
Implicit Types (s : Server.t App) (message : Message.t).

Lemma queue_push_to_eq s id message :
  Server.queue (Server.push_to id message s) id
  = Server.queue s id ++ [Message.copy message].
Proof.
  unfold Server.queue at 1, Server.push_to.
  cbn [Server.messagesToSend Server.set_messagesToSend].
  now rewrite lookup_insert_eq.
Qed.

Lemma lookup_push_to_ne s id id' message :
  id' ≠ id ->
  Server.messagesToSend (Server.push_to id message s) !! id'
  = Server.messagesToSend s !! id'.
Proof.
  intros Hne. unfold Server.push_to.
  cbn [Server.messagesToSend Server.set_messagesToSend].
  now rewrite lookup_insert_ne.
Qed.

Lemma queue_push_to_ne s id id' message :
  id' ≠ id ->
  Server.queue (Server.push_to id message s) id' = Server.queue s id'.
Proof.
  intros Hne. unfold Server.queue. now rewrite lookup_push_to_ne.
Qed.

Lemma sendTo_known s message id :
  Server.isRunning s = true -> known s id = true ->
  Server.sendTo message id s = (Server.push_to id message s, Ok tt).
Proof.
  intros Hr Hk. unfold Server.sendTo. rewrite Hr. cbn [negb].
  apply bool_decide_eq_true in Hk. destruct Hk as [sock ->]. reflexivity.
Qed.

Lemma sendTo_unknown s message id :
  Server.isRunning s = true -> known s id = false ->
  Server.sendTo message id s = (s, Throw UnknownClient).
Proof.
  intros Hr Hk. unfold Server.sendTo. rewrite Hr. cbn [negb].
  apply bool_decide_eq_false in Hk.
  destruct (Server.clients s !! id) eqn:E; [|reflexivity].
  exfalso. apply Hk. eauto.
Qed.

End Sends.

(** C6. [sendTo(message, clientID)] on a Server that is not running raises
    NotStarted and changes nothing. On a running Server it raises
    UnknownClient when [clientID] is not in the client table, and changes
    nothing, no queue and no other state; when [clientID] is in the table
    it appends the message (a copy of it) to the outbound queue of that
    client and changes no other queue and no other state. *)
Theorem sendTo_spec {App : Type} (s : Server.t App) (message : Message.t)
    (clientID : Z) :
  (Server.isRunning s = false ->
     Server.sendTo message clientID s = (s, Throw NotStarted))
  /\ (Server.isRunning s = true -> Server.clients s !! clientID = None ->
     Server.sendTo message clientID s = (s, Throw UnknownClient))
  /\ (Server.isRunning s = true -> is_Some (Server.clients s !! clientID) ->
     exists s',
       Server.sendTo message clientID s = (s', Ok tt)
       /\ Server.queue s' clientID
          = Server.queue s clientID ++ [Message.copy message]
       /\ (forall id, id ≠ clientID ->
             Server.messagesToSend s' !! id = Server.messagesToSend s !! id)
       /\ s' = Server.set_messagesToSend (Server.messagesToSend s') s).
Proof.
  split; [|split].
  - intros Hr. unfold Server.sendTo. now rewrite Hr.
  - intros Hr Hc. apply sendTo_unknown; [assumption|].
    apply bool_decide_eq_false. rewrite Hc. now intros [? [=]].
  - intros Hr Hc. exists (Server.push_to clientID message s).
    split; [|split; [|split]].
    + apply sendTo_known; [assumption | now apply bool_decide_eq_true].
    + apply queue_push_to_eq.
    + intros id Hne. now apply lookup_push_to_ne.
    + reflexivity.
Qed.

Lemma sendTo_spec_witness :
  Server.sendTo msg_seven 7 server_two_clients
  = (server_two_clients, Throw UnknownClient)
  /\ exists s',
      Server.sendTo msg_seven 1 server_two_clients = (s', Ok tt)
      /\ Server.queue s' 1 = [msg_empty; msg_seven].
Proof.
  destruct (sendTo_spec server_two_clients msg_seven 7) as (_ & Hu & _).
  destruct (sendTo_spec server_two_clients msg_seven 1) as (_ & _ & Hk).
  split; [apply Hu; reflexivity|].
  destruct (Hk eq_refl) as (s' & Hs & Hq & _); [vm_compute; eauto|].
  exists s'. split; [exact Hs | rewrite Hq; reflexivity].
Defined.

Section Batch.
Context {App : Type}.
Implicit Types (s : Server.t App) (message : Message.t).

Lemma occurrences_cons id x ids :
  occurrences id (x :: ids)
  = if decide (x = id) then S (occurrences id ids) else occurrences id ids.
Proof.
  unfold occurrences. rewrite filter_cons. now destruct (decide (x = id)).
Qed.

Lemma occurrences_not_in id ids : id ∉ ids -> occurrences id ids = 0%nat.
Proof.
  induction ids as [|x ids IH]; intros Hn; [reflexivity|].
  rewrite occurrences_cons. apply not_elem_of_cons in Hn as [Hx Hn].
  rewrite decide_False by congruence. auto.
Qed.

Lemma occurrences_NoDup id ids :
  NoDup ids -> id ∈ ids -> occurrences id ids = 1%nat.
Proof.
  induction 1 as [|x ids Hx Hnd IH]; intros Hin.
  - now apply elem_of_nil in Hin.
  - rewrite occurrences_cons. destruct (decide (x = id)) as [->|Hne].
    + now rewrite occurrences_not_in.
    + apply elem_of_cons in Hin as [->|Hin]; [congruence | auto].
Qed.

Lemma pushed_nil sel message s : pushed sel message [] s s.
Proof.
  repeat split.
  - intros id. destruct (sel id); cbn; now rewrite app_nil_r.
  - now destruct s.
Qed.

Lemma pushed_skip sel message x ids s s' :
  sel x = false -> pushed sel message ids s s' ->
  pushed sel message (x :: ids) s s'.
Proof.
  intros Hx (Hq & Hu & Hs). repeat split; [|assumption..].
  intros id. rewrite Hq, occurrences_cons.
  destruct (decide (x = id)) as [->|]; [now rewrite Hx | reflexivity].
Qed.

Lemma pushed_push sel message x ids s s' :
  sel x = true -> pushed sel message ids (Server.push_to x message s) s' ->
  pushed sel message (x :: ids) s s'.
Proof.
  intros Hx (Hq & Hu & Hs). repeat split.
  - intros id. rewrite Hq, occurrences_cons.
    destruct (decide (x = id)) as [->|Hne].
    + rewrite queue_push_to_eq, Hx, <- app_assoc. reflexivity.
    + rewrite queue_push_to_ne by congruence. reflexivity.
  - intros id Hid. rewrite Hu by assumption.
    apply lookup_push_to_ne. congruence.
  - rewrite Hs at 1. reflexivity.
Qed.

Lemma known_push_to s x message id :
  known (Server.push_to x message s) id = known s id.
Proof. reflexivity. Qed.

Lemma sendToArray_loop_spec message ids : forall s error,
  Server.isRunning s = true ->
  exists s',
    Server.sendToArray_loop message ids error s
    = (s', Ok (error || existsb (fun id => negb (known s id)) ids))
    /\ pushed (known s) message ids s s'.
Proof.
  induction ids as [|x ids IH]; intros s error Hr.
  - exists s. cbn. rewrite orb_false_r. split; [reflexivity | apply pushed_nil].
  - cbn [Server.sendToArray_loop existsb]. unfold bind at 1, try_catch, bind at 1.
    destruct (known s x) eqn:Hk.
    + rewrite sendTo_known by assumption. unfold ret at 1.
      destruct (IH (Server.push_to x message s) error Hr) as (s' & Hs' & Hp).
      exists s'. split.
      * rewrite Hs'. reflexivity.
      * apply pushed_push; [assumption | exact Hp].
    + rewrite sendTo_unknown by assumption. cbn [Server.is_UnknownClient].
      unfold ret at 1.
      destruct (IH s true Hr) as (s' & Hs' & Hp).
      exists s'. split.
      * rewrite Hs'. cbn [negb orb]. now rewrite orb_true_r.
      * now apply pushed_skip.
Qed.

Lemma sendToAll_loop_spec message cs : forall s error,
  exists s',
    Server.sendToAll_loop message cs error s = (s', Ok error)
    /\ pushed (fun _ => true) message cs.*1 s s'.
Proof.
  induction cs as [|[x sock] cs IH]; intros s error.
  - exists s. split; [reflexivity | apply pushed_nil].
  - cbn [Server.sendToAll_loop fmap list_fmap fst].
    unfold bind at 1, try_catch, bind at 1, modify, ret at 1.
    destruct (IH (Server.push_to x message s) error) as (s' & Hs' & Hp).
    exists s'. split; [exact Hs' | now apply pushed_push].
Qed.

End Batch.

(** C7. On a running Server, [sendToArray(message, ids)] goes through the
    whole list: every id of the list that is in the client table gets the
    message on its outbound queue, once for each of its occurrences in the
    list, whatever ids precede it; the ids that are not in the table change
    nothing; the call raises BatchSendingFailed if and only if some id of
    the list is not in the table, and the state it leaves then still holds
    every message it enqueued. [sendToAll(message)] enqueues the message
    once for every client in the table and, as no target can be missing
    from the table, raises nothing. *)
Theorem batch_send_spec {App : Type} (s : Server.t App) (message : Message.t) :
  Server.isRunning s = true ->
  (forall ids, exists s' r,
      Server.sendToArray message ids s = (s', r)
      /\ pushed (known s) message ids s s'
      /\ (r = Throw BatchSendingFailed <-> exists id, id ∈ ids /\ known s id = false)
      /\ (r = Ok tt <-> forall id, id ∈ ids -> known s id = true))
  /\ (exists s',
      Server.sendToAll message s = (s', Ok tt)
      /\ (forall id, Server.queue s' id
                     = Server.queue s id
                       ++ (if known s id then [Message.copy message] else []))
      /\ (forall id, known s id = false ->
            Server.messagesToSend s' !! id = Server.messagesToSend s !! id)
      /\ s' = Server.set_messagesToSend (Server.messagesToSend s') s).
Proof.
  intros Hr. split.
  - intros ids.
    destruct (sendToArray_loop_spec message ids s false Hr) as (s' & Hs' & Hp).
    cbn [orb] in Hs'.
    assert (Hex : existsb (fun id => negb (known s id)) ids = true
                  <-> exists id, id ∈ ids /\ known s id = false).
    { rewrite existsb_exists. split; intros (id & Hin & Hk); exists id.
      - apply list_elem_of_In in Hin. split; [assumption|].
        now apply negb_true_iff.
      - apply list_elem_of_In in Hin. split; [assumption|].
        now apply negb_true_iff. }
    unfold Server.sendToArray. rewrite Hr. cbn [negb]. unfold bind. rewrite Hs'.
    destruct (existsb (fun id => negb (known s id)) ids) eqn:E.
    + exists s', (Throw BatchSendingFailed). repeat split; try apply Hp.
      * intros _. now apply Hex.
      * intros [=].
      * intros Hall. apply proj1 in Hex. destruct (Hex eq_refl) as (id & Hin & Hk).
        rewrite (Hall id Hin) in Hk. discriminate.
    + exists s', (Ok tt). repeat split; try apply Hp.
      * intros [=].
      * intros Hx. apply Hex in Hx. discriminate.
      * intros _ id Hin. destruct (known s id) eqn:Hk; [reflexivity|].
        assert (false = true) as [=]. apply Hex. eauto.
  - destruct (sendToAll_loop_spec message (map_to_list (Server.clients s)) s false)
      as (s' & Hs' & Hq & Hu & Hs).
    exists s'. unfold Server.sendToAll. rewrite Hr. cbn [negb]. unfold bind.
    rewrite Hs'. split; [reflexivity|]. split; [|split].
    + intros id. rewrite Hq. f_equal. unfold known.
      pose proof (NoDup_fst_map_to_list (Server.clients s)) as Hnd.
      destruct (Server.clients s !! id) as [sock|] eqn:E.
      * rewrite bool_decide_eq_true_2 by eauto.
        rewrite occurrences_NoDup; [reflexivity | assumption |].
        apply list_elem_of_fmap. exists (id, sock). split; [reflexivity|].
        now apply elem_of_map_to_list.
      * rewrite bool_decide_eq_false_2 by (now intros [? [=]]).
        rewrite occurrences_not_in; [reflexivity|].
        intros Hin. apply list_elem_of_fmap in Hin as ([id' sock] & -> & Hin).
        apply elem_of_map_to_list in Hin. cbn in E. congruence.
    + intros id Hk. unfold known in Hk. apply bool_decide_eq_false in Hk.
      destruct (decide (id ∈ (map_to_list (Server.clients s)).*1)) as [Hin|Hn].
      * exfalso. apply Hk.
        apply list_elem_of_fmap in Hin as ([id' sock] & -> & Hin).
        apply elem_of_map_to_list in Hin. eauto.
      * specialize (Hq id). cbn [negb] in Hq.
        rewrite occurrences_not_in in Hq by assumption.
        clear Hk. (* the entry itself is untouched: no push mentions [id] *)
        revert Hn Hs'. generalize (map_to_list (Server.clients s)).
        clear. intros cs. revert s. generalize false.
        induction cs as [|[x sock] cs IH]; intros error s Hn Hs'.
        -- cbn in Hs'. unfold ret in Hs'. now inversion Hs'.
        -- cbn [fmap list_fmap fst] in Hn. apply not_elem_of_cons in Hn as [Hx Hn].
           cbn [Server.sendToAll_loop] in Hs'.
           unfold bind at 1, try_catch, bind at 1, modify, ret at 1 in Hs'.
           rewrite (IH _ _ Hn Hs'). cbn [fst]. apply lookup_push_to_ne. exact Hx.
    + exact Hs.
Qed.

Lemma batch_send_spec_witness :
  exists s' r,
    Server.sendToArray msg_seven [1; 7; 2; 1] server_two_clients = (s', r)
    /\ r = Throw BatchSendingFailed
    /\ Server.queue s' 1 = [msg_empty; msg_seven; msg_seven]
    /\ Server.queue s' 2 = [msg_seven].
Proof.
  destruct (batch_send_spec server_two_clients msg_seven eq_refl) as [Harr _].
  destruct (Harr [1; 7; 2; 1]) as (s' & r & Hs & (Hq & _) & Hfail & _).
  exists s', r. split; [exact Hs|]. split.
  - apply Hfail. exists 7. split; [|reflexivity].
    apply list_elem_of_further, list_elem_of_here.
  - rewrite !Hq. split; reflexivity.
Defined.

(** ** disconnect *)

Section ReceiverLoop.
Context {App : Type}.
Implicit Types (c : Client.t App).

Lemma receiverLoop_body_frame r1 r2 i c tx c' tx' :
  Client.receiverLoop_body r1 r2 i c tx = Continue (c', tx')
  \/ Client.receiverLoop_body r1 r2 i c tx = Break (c', tx') ->
  same_connection c c'.
Proof.
  unfold Client.receiverLoop_body, Client.send_part, Client.recv_part, same_connection.
  destruct (Client.messagesToSend c) as [|front rest];
    [|destruct (Client.sendMessage front r1 r2 tx) as [tx1 [[]|e]]];
    destruct (recv_frame i) as [[msg|]| |];
    intros [H|H]; inversion H; subst; cbn; auto.
Qed.

(** However the loop is left, the thread's last statement has run. *)
Lemma receiverLoop_returns calls : forall c tx c' tx',
  Client.receiverLoop calls c tx = Some (c', tx') ->
  Client.isConnected c' = false
  /\ Client.sockfd c' = Client.sockfd c
  /\ Client.receiverThread c' = Client.receiverThread c
  /\ Client.actions c' = Client.actions c.
Proof.
  induction calls as [|[[r1 r2] i] calls IH]; intros c tx c' tx' H;
    cbn [Client.receiverLoop] in H;
    destruct (Client.isConnected c && negb (Client.shouldStop c)) eqn:Et;
    try discriminate; try (inversion H; subst; cbn; now auto).
  destruct (Client.receiverLoop_body r1 r2 i c tx) as [[c1 tx1]|[c1 tx1]|] eqn:Eb;
    try discriminate.
  - destruct (receiverLoop_body_frame r1 r2 i c tx c1 tx1 (or_introl Eb))
      as (Hs & _ & Ht & Ha).
    destruct (IH _ _ _ _ H) as (Hc & Hs' & Ht' & Ha').
    repeat split; congruence.
  - destruct (receiverLoop_body_frame r1 r2 i c tx c1 tx1 (or_intror Eb))
      as (Hs & _ & Ht & Ha).
    inversion H; subst. cbn. auto.
Qed.

(** Once [disconnect] has set the flags the loop test fails. *)
Lemma receiverLoop_stopped calls c tx :
  Client.shouldStop c = true ->
  Client.receiverLoop calls c tx = Some (Client.set_isConnected false c, tx).
Proof.
  intros Hs. destruct calls as [|[[r1 r2] i] calls]; cbn [Client.receiverLoop];
    rewrite Hs, andb_false_r; reflexivity.
Qed.

End ReceiverLoop.

Section Join.
Context {App : Type}.
Implicit Types (c : Client.t App).

(** The loop body never clears the stop flag. *)
Lemma receiverLoop_body_stop r1 r2 i c tx c' tx' :
  Client.shouldStop c = true ->
  Client.receiverLoop_body r1 r2 i c tx = Continue (c', tx')
  \/ Client.receiverLoop_body r1 r2 i c tx = Break (c', tx') ->
  Client.shouldStop c' = true.
Proof.
  unfold Client.receiverLoop_body, Client.send_part, Client.recv_part.
  intros Hs.
  destruct (Client.messagesToSend c) as [|front rest];
    [|destruct (Client.sendMessage front r1 r2 tx) as [tx1 [[]|e]]];
    destruct (recv_frame i) as [[msg|]| |];
    intros [H|H]; inversion H; subst; cbn; auto.
Qed.

Lemma recv_part_frame i c :
  match Client.recv_part i c with
  | Continue c' | Break c' =>
      same_connection c c'
      /\ (Client.shouldStop c = true -> Client.shouldStop c' = true)
  | Abort => True
  end.
Proof.
  unfold Client.recv_part, same_connection.
  destruct (recv_frame i) as [[msg|]| |]; cbn; auto 10.
Qed.

(** A thread that finds the stop flag set returns from wherever it is,
    if it returns, with the flag still set and the connection it had. *)
Lemma receiverLoop_from_stopped pos calls c tx c' tx' :
  Client.shouldStop c = true ->
  Client.receiverLoop_from pos calls c tx = Some (c', tx') ->
  Client.shouldStop c' = true
  /\ Client.isConnected c' = false
  /\ Client.sockfd c' = Client.sockfd c
  /\ Client.receiverThread c' = Client.receiverThread c
  /\ Client.actions c' = Client.actions c.
Proof.
  intros Hs H. unfold Client.receiverLoop_from in H.
  destruct pos.
  - rewrite receiverLoop_stopped in H by assumption.
    inversion H; subst. cbn. auto.
  - destruct calls as [|[[r1 r2] i] calls]; [discriminate|].
    destruct (Client.receiverLoop_body r1 r2 i c tx) as [[c1 tx1]|[c1 tx1]|] eqn:Eb;
      [| |discriminate].
    + pose proof (receiverLoop_body_stop _ _ _ _ _ _ _ Hs (or_introl Eb)) as Hs1.
      destruct (receiverLoop_body_frame _ _ _ _ _ _ _ (or_introl Eb))
        as (Hfd & _ & Ht & Ha).
      rewrite receiverLoop_stopped in H by assumption.
      inversion H; subst. cbn. auto.
    + pose proof (receiverLoop_body_stop _ _ _ _ _ _ _ Hs (or_intror Eb)) as Hs1.
      destruct (receiverLoop_body_frame _ _ _ _ _ _ _ (or_intror Eb))
        as (Hfd & _ & Ht & Ha).
      inversion H; subst. cbn. auto.
  - destruct calls as [|[[r1 r2] i] calls]; [discriminate|].
    pose proof (recv_part_frame i c) as Hf.
    destruct (Client.recv_part i c) as [c1|c1|]; [| |discriminate];
      destruct Hf as ((Hfd & _ & Ht & Ha) & Hs1); specialize (Hs1 Hs).
    + rewrite receiverLoop_stopped in H by assumption.
      inversion H; subst. cbn. auto.
    + inversion H; subst. cbn. auto.
Qed.

(** When such a thread returns: from its loop test always, from inside
    an iteration when the calls of the iteration return, unless an
    exception leaves the thread function. *)
Lemma receiverLoop_from_returns pos calls c tx :
  Client.shouldStop c = true ->
  Client.receiverLoop_from pos calls c tx = None
  <-> match pos, calls with
      | AtTest, _ => False
      | _, [] => True
      | AtSend, (r1, r2, i) :: _ => Client.receiverLoop_body r1 r2 i c tx = Abort
      | AtRecv, (_, _, i) :: _ => Client.recv_part i c = Abort
      end.
Proof.
  intros Hs. unfold Client.receiverLoop_from. destruct pos.
  - rewrite receiverLoop_stopped by assumption. split; [discriminate | tauto].
  - destruct calls as [|[[r1 r2] i] calls]; [tauto|].
    destruct (Client.receiverLoop_body r1 r2 i c tx) as [[c1 tx1]|[c1 tx1]|] eqn:Eb.
    + pose proof (receiverLoop_body_stop _ _ _ _ _ _ _ Hs (or_introl Eb)) as Hs1.
      rewrite receiverLoop_stopped by assumption. split; discriminate.
    + split; discriminate.
    + tauto.
  - destruct calls as [|[[r1 r2] i] calls]; [tauto|].
    pose proof (recv_part_frame i c) as Hf.
    destruct (Client.recv_part i c) as [c1|c1|].
    + destruct Hf as [_ Hs1]. rewrite receiverLoop_stopped by auto.
      split; discriminate.
    + split; discriminate.
    + tauto.
Qed.
End Join.

(** C8. [disconnect()] on a Client that is not connected changes nothing,
    however often it is called. On a connected Client it stores the two
    flags and joins the receiver thread, and it returns exactly when the
    thread returns: at once when the thread is at its loop test, after the
    iteration the thread is in when the calls of this iteration return and
    no exception leaves the thread function, and not while a [::recv] of
    this iteration has not returned. When [disconnect()] returns, the stop
    flag is set, the thread joined, the socket closed and [sockfd] at -1,
    both queues are empty and the action table is as it was; the Client is
    then not connected: [send] and [update] raise NotConnected, and a
    further [disconnect()] changes nothing. *)
Theorem disconnect_spec {App : Type} (c : Client.t App) (pos : thread_at)
    (calls : list (Z * Z * recv_io)) (fds : gset Z) :
  (Client.isConnected c = false ->
     Client.disconnect pos calls fds c = Some (c, fds))
  /\ (Client.isConnected c = true ->
      let flagged := Client.set_isConnected false (Client.set_shouldStop true c) in
      (Client.disconnect pos calls fds c = None
       <-> Client.receiverThread c = true
           /\ Client.receiverLoop_from pos calls flagged [] = None)
      /\ (Client.receiverLoop_from pos calls flagged [] = None
          <-> match pos, calls with
              | AtTest, _ => False
              | _, [] => True
              | AtSend, (r1, r2, i) :: _ =>
                  Client.receiverLoop_body r1 r2 i flagged [] = Abort
              | AtRecv, (_, _, i) :: _ => Client.recv_part i flagged = Abort
              end)
      /\ forall c' fds',
           Client.disconnect pos calls fds c = Some (c', fds') ->
           Client.shouldStop c' = true
           /\ Client.isConnected c' = false
           /\ Client.receiverThread c' = false
           /\ Client.sockfd c' = -1
           /\ fds' = fds ∖ {[Client.sockfd c]}
           /\ Client.receivedMessages c' = []
           /\ Client.messagesToSend c' = []
           /\ Client.actions c' = Client.actions c
           /\ (forall m, Client.send m c' = (c', Throw NotConnected))
           /\ (forall app,
                 Client.update (c', app) = ((c', app), Throw NotConnected))
           /\ (forall pos' calls',
                 Client.disconnect pos' calls' fds' c' = Some (c', fds'))).
Proof.
  split; intros Hc.
  - unfold Client.disconnect. now rewrite Hc.
  - intros flagged.
    assert (Hs : Client.shouldStop flagged = true) by reflexivity.
    split; [|split].
    + unfold Client.disconnect, Client.join. rewrite Hc. cbn [negb]. fold flagged.
      change (Client.receiverThread flagged) with (Client.receiverThread c).
      destruct (Client.receiverThread c).
      * destruct (Client.receiverLoop_from pos calls flagged []) as [[c1 tx1]|].
        -- split; [discriminate | intros [_ H]; discriminate].
        -- tauto.
      * split; [discriminate | intros [H _]; discriminate].
    + now apply receiverLoop_from_returns.
    + intros c' fds' H. unfold Client.disconnect, Client.join in H.
      rewrite Hc in H. cbn [negb] in H. fold flagged in H.
      change (Client.receiverThread flagged) with (Client.receiverThread c) in H.
      assert (Hpost : forall c1,
                 Client.sockfd c1 = Client.sockfd c ->
                 Client.actions c1 = Client.actions c ->
                 Client.shouldStop c1 = true ->
                 Client.isConnected c1 = false ->
                 Client.receiverThread c1 = false ->
                 Some (Client.set_messagesToSend []
                         (Client.set_receivedMessages [] (Client.set_sockfd (-1) c1)),
                       fds ∖ {[Client.sockfd c1]}) = Some (c', fds') ->
                 Client.shouldStop c' = true
                 /\ Client.isConnected c' = false
                 /\ Client.receiverThread c' = false
                 /\ Client.sockfd c' = -1
                 /\ fds' = fds ∖ {[Client.sockfd c]}
                 /\ Client.receivedMessages c' = []
                 /\ Client.messagesToSend c' = []
                 /\ Client.actions c' = Client.actions c
                 /\ (forall m, Client.send m c' = (c', Throw NotConnected))
                 /\ (forall app,
                       Client.update (c', app) = ((c', app), Throw NotConnected))
                 /\ (forall pos' calls',
                       Client.disconnect pos' calls' fds' c' = Some (c', fds'))).
      { intros c1 Hfd Ha Hst Hco Hth E. inversion E; subst c' fds'. clear E.
        destruct c1 as [fd conn stop thr inq outq acts]. cbn in *. subst.
        repeat split; reflexivity. }
      destruct (Client.receiverThread c) eqn:Ethr.
      * destruct (Client.receiverLoop_from pos calls flagged []) as [[c1 tx1]|] eqn:E;
          [|discriminate].
        destruct (receiverLoop_from_stopped _ _ _ _ _ _ Hs E)
          as (Hst & Hco & Hfd & Hth & Ha).
        apply (Hpost (Client.set_receiverThread false c1)); try assumption; reflexivity.
      * apply (Hpost flagged); try assumption; reflexivity.
Qed.

Lemma disconnect_spec_witness :
  Client.disconnect AtSend [(0, 0, idle)] {[3; 0]} client_two_received
  = Some (Client.mk (-1) false true false [] [] {[1 := Some read_int_cb]},
          {[3; 0]} ∖ {[3]}).
Proof.
  pose proof (disconnect_spec client_two_received AtSend [(0, 0, idle)] {[3; 0]})
    as [_ H].
  specialize (H eq_refl). cbv zeta in H. destruct H as (_ & _ & H).
  destruct (Client.disconnect AtSend [(0, 0, idle)] {[3; 0]} client_two_received)
    as [[c' fds']|] eqn:E; [|discriminate E].
  destruct (H c' fds' eq_refl)
    as (Hstop & Hconn & Hthr & Hfd & Hfds & Hrq & Hsq & Hact & _).
  destruct c'. cbn in *. subst. reflexivity.
Defined.

(** A connected Client whose receiver thread is in the [::recv] of an
    iteration that does not return, as when the peer has sent a part of a
    frame and nothing more: [disconnect()] does not return. The thread is
    not joined, the socket is not closed and the queues are not emptied. *)
Lemma disconnect_waits_for_recv :
  Client.isConnected client_two_received = true
  /\ Client.receiverLoop_from AtRecv []
       (Client.set_isConnected false (Client.set_shouldStop true client_two_received)) []
     = None
  /\ Client.disconnect AtRecv [] {[3; 0]} client_two_received = None.
Proof. repeat split; reflexivity. Qed.

Example three_accepts_ids : Run.assigned three_accepts (Run.init []) = [1; 2; 3].
Proof. vm_compute. reflexivity. Qed.

(** ** ClientIDs *)

Section NextClientID.
Context {App : Type}.
Implicit Types (s : Server.t App) (w : Run.world App).

Lemma sendTo_next message id s :
  Server.nextClientID (Server.sendTo message id s).1 = Server.nextClientID s.
Proof.
  unfold Server.sendTo. destruct (Server.isRunning s); cbn [negb]; [|reflexivity].
  destruct (Server.clients s !! id); reflexivity.
Qed.

Lemma sendToArray_next message ids s :
  Server.nextClientID (Server.sendToArray message ids s).1 = Server.nextClientID s.
Proof.
  unfold Server.sendToArray. destruct (Server.isRunning s) eqn:Hr; cbn [negb];
    [|reflexivity].
  destruct (sendToArray_loop_spec message ids s false Hr) as (s' & Hs' & _ & _ & Hs).
  unfold bind. rewrite Hs'.
  destruct (false || existsb (fun id => negb (known s id)) ids);
    cbn; rewrite Hs; reflexivity.
Qed.

Lemma sendToAll_next message s :
  Server.nextClientID (Server.sendToAll message s).1 = Server.nextClientID s.
Proof.
  unfold Server.sendToAll. destruct (Server.isRunning s) eqn:Hr; cbn [negb];
    [|reflexivity].
  destruct (sendToAll_loop_spec message (map_to_list (Server.clients s)) s false)
    as (s' & Hs' & _ & _ & Hs).
  unfold bind. rewrite Hs'. cbn. rewrite Hs. reflexivity.
Qed.

Lemma update_next s (a : App) :
  Server.nextClientID (Server.update (s, a)).1.1 = Server.nextClientID s.
Proof.
  unfold Server.update. destruct (Server.isRunning s); cbn [negb]; [|reflexivity].
  now destruct (Server.dispatch _ _ a).
Qed.

Lemma start_next sock o b l s (fds : gset Z) :
  Server.nextClientID (Server.start sock o b l (s, fds)).1.1 = Server.nextClientID s.
Proof.
  unfold Server.start. destruct (Server.isRunning s); [reflexivity|].
  destruct (sock <? 0); [reflexivity|].
  destruct (negb (o && b && l)); reflexivity.
Qed.

(** A flush changes nothing but the outbound queues. *)
Lemma flush_queue_frame id rets q : forall k s net s' net',
  Server.flush_queue id rets k q (s, net) = Some (s', net') ->
  s' = Server.set_messagesToSend (Server.messagesToSend s') s.
Proof.
  induction q as [|front rest IH]; intros k s net s' net' H;
    cbn [Server.flush_queue] in H.
  - inversion H; subst. now destruct s'.
  - unfold Server.sendToClient in H.
    destruct (Server.clients s !! id) as [sock|]; [|discriminate].
    destruct (send_frame front (rets k).1 (rets k).2 (default [] (net !! sock)))
      as [tx [[]|e]]; [|discriminate].
    apply IH in H. rewrite H at 1. reflexivity.
Qed.

Lemma flush_loop_frame rets ids : forall s net s' net',
  Server.flush_loop rets ids (s, net) = Some (s', net') ->
  s' = Server.set_messagesToSend (Server.messagesToSend s') s.
Proof.
  induction ids as [|id ids IH]; intros s net s' net' H;
    cbn [Server.flush_loop fst snd] in H.
  - inversion H; subst. now destruct s'.
  - destruct (Server.clients s !! id) as [sock|].
    + destruct (Server.flush_queue id (rets id) 0 (Server.queue s id) (s, net))
        as [[s1 net1]|] eqn:E; [|discriminate].
      apply flush_queue_frame in E. apply IH in H.
      rewrite H at 1. rewrite E at 1. reflexivity.
    + apply IH in H. rewrite H at 1. reflexivity.
Qed.

Lemma flush_loop_next rets ids s net s' net' :
  Server.flush_loop rets ids (s, net) = Some (s', net') ->
  Server.nextClientID s' = Server.nextClientID s.
Proof. intros H. apply flush_loop_frame in H. now rewrite H. Qed.

Lemma accept_part_next accepted s :
  match (Server.accept_part accepted s).2 with
  | Some (id, _) =>
      id = Server.nextClientID s
      /\ Server.nextClientID (Server.accept_part accepted s).1
         = llong_succ (Server.nextClientID s)
  | None =>
      Server.nextClientID (Server.accept_part accepted s).1 = Server.nextClientID s
  end.
Proof.
  unfold Server.accept_part. destruct accepted as [sock|]; [|reflexivity].
  destruct (0 <=? sock); cbn; auto.
Qed.

Lemma handleClient_body_next id i s :
  match Server.handleClient_body id i s with
  | Continue s' | Break s' => Server.nextClientID s' = Server.nextClientID s
  | Abort => True
  end.
Proof.
  unfold Server.handleClient_body. destruct (recv_frame i) as [[msg|]| |]; auto.
Qed.

(** A step assigns no ClientID, or it assigns [nextClientID] and leaves
    its successor there. *)
Lemma step_next ev w :
  match (Run.step ev w).2 with
  | None =>
      forall w', (Run.step ev w).1 = Some w' ->
        Server.nextClientID (Run.server w') = Server.nextClientID (Run.server w)
  | Some id =>
      id = Server.nextClientID (Run.server w)
      /\ forall w', (Run.step ev w).1 = Some w' ->
           Server.nextClientID (Run.server w')
           = llong_succ (Server.nextClientID (Run.server w))
  end.
Proof.
  destruct w as [s a net fds].
  destruct ev as [sock o b l|ty act|m id|m ids|m| |accepted rets|id sock i];
    cbn [Run.step Run.server Run.app Run.net Run.fds Run.with_server].
  - pose proof (start_next sock o b l s fds) as H.
    destruct (Server.start sock o b l (s, fds)) as [[s' fds'] r].
    cbn. intros w' [= <-]. exact H.
  - cbn. intros w' [= <-]. reflexivity.
  - cbn. intros w' [= <-]. apply sendTo_next.
  - cbn. intros w' [= <-]. apply sendToArray_next.
  - cbn. intros w' [= <-]. apply sendToAll_next.
  - pose proof (update_next s a) as H.
    destruct (Server.update (s, a)) as [[s' a'] r].
    cbn. intros w' [= <-]. exact H.
  - destruct (Server.isRunning s && negb (Server.shouldStop s));
      [|cbn; now intros w' [= <-]].
    unfold Server.acceptorLoop_body. cbn [fst snd].
    pose proof (accept_part_next accepted s) as H.
    destruct (Server.accept_part accepted s) as [s1 spawned]. cbn [fst snd] in *.
    destruct (Server.flush_loop rets (Server.keys (Server.messagesToSend s1)) (s1, net))
      as [[s2 net2]|] eqn:E.
    + apply flush_loop_next in E.
      destruct spawned as [[cid csock]|]; cbn.
      * destruct H as [-> H]. split; [reflexivity|]. intros w' [= <-]. cbn. congruence.
      * intros w' [= <-]. cbn. congruence.
    + destruct spawned as [[cid csock]|]; cbn.
      * destruct H as [-> H]. split; [reflexivity|]. intros w' [=].
      * intros w' [=].
  - destruct (Server.isRunning s && negb (Server.shouldStop s)).
    + pose proof (handleClient_body_next id i s) as H.
      destruct (Server.handleClient_body id i s) as [s'|s'|]; cbn.
      * intros w' [= <-]. exact H.
      * intros w' [= <-]. exact H.
      * intros w' [=].
    + cbn. intros w' [= <-]. reflexivity.
Qed.

End NextClientID.

Lemma llong_succ_no_wrap n : - 2 ^ 63 <= n < 2 ^ 63 - 1 -> llong_succ n = n + 1.
Proof.
  intros H. unfold llong_succ. rewrite Z.mod_small; lia.
Qed.

Lemma assigned_consecutive {App : Type} (evs : list (Run.event App)) :
  forall w : Run.world App,
    let ids := Run.assigned evs w in
    let n := Server.nextClientID (Run.server w) in
    (ids ≠ [] -> 1 <= n /\ n + size ids - 1 <= 2 ^ 63 - 1) ->
    ids = seqZ n (size ids).
Proof.
  induction evs as [|ev evs IH]; intros w; cbn zeta; [reflexivity|].
  cbn [Run.assigned]. pose proof (step_next ev w) as Hstep.
  destruct (Run.step ev w) as [ow [id|]]; cbn [snd fst option_list app] in *.
  - destruct Hstep as [-> Hnext].
    set (n := Server.nextClientID (Run.server w)) in *.
    set (rest := match ow with Some w' => Run.assigned evs w' | None => [] end).
    change (option_list (Some n) ++ rest) with (n :: rest).
    intros Hb. destruct Hb as [H1 Hle]; [discriminate|].
    unfold size in *. cbn [length] in *.
    rewrite seqZ_cons by lia. f_equal.
    replace (Z.pred (Z.of_nat (S (length rest)))) with (Z.of_nat (length rest)) by lia.
    subst rest. destruct ow as [w'|]; [|reflexivity].
    destruct (Run.assigned evs w') as [|x rest] eqn:E; [reflexivity|].
    rewrite <- E. specialize (Hnext w' eq_refl).
    rewrite llong_succ_no_wrap in Hnext by (cbn [length] in Hle; lia).
    replace (Z.succ n) with (Server.nextClientID (Run.server w')) by lia.
    apply IH. intros _. rewrite Hnext, E. cbn [length]. cbn [length] in Hle. lia.
  - destruct ow as [w'|]; [|reflexivity]. intros Hb.
    rewrite <- (Hstep w' eq_refl). apply IH. rewrite (Hstep w' eq_refl). exact Hb.
Qed.

(** C5. Along every run of a Server process from the construction of the
    Server (calls of the application, iterations of the acceptor thread and
    of the handler threads in any order, clients leaving the client table
    included), the ClientIDs assigned to the accepted connections are 1, 2,
    3, ... in the order of acceptance: the connection accepted in place
    [i] (from 0) gets [i + 1]. They are strictly increasing and pairwise
    distinct, so no ID is assigned twice. The number of accepted
    connections is within the range of [long long]. *)
Theorem client_ids_fresh {App : Type} (a : App) (evs : list (Run.event App)) :
  let ids := Run.assigned evs (Run.init a) in
  size ids <= 2 ^ 63 - 1 ->
  ids = seqZ 1 (size ids)
  /\ NoDup ids
  /\ (forall i x, ids !! i = Some x -> x = Z.of_nat i + 1)
  /\ (forall i j x y, ids !! i = Some x -> ids !! j = Some y -> (i < j)%nat -> x < y).
Proof.
  intros ids Hle.
  assert (Hseq : ids = seqZ 1 (size ids)).
  { apply (assigned_consecutive evs (Run.init a)). intros _.
    change (Server.nextClientID (Run.server (Run.init a))) with 1.
    fold ids. lia. }
  assert (Hlook : forall i x, ids !! i = Some x -> x = Z.of_nat i + 1).
  { intros i x Hi. rewrite Hseq in Hi. apply lookup_seqZ in Hi. lia. }
  split; [exact Hseq|]. split; [rewrite Hseq; apply NoDup_seqZ|].
  split; [exact Hlook|].
  intros i j x y Hi Hj Hij. apply Hlook in Hi, Hj. lia.
Qed.

Lemma client_ids_fresh_witness :
  Run.assigned three_accepts (Run.init []) = seqZ 1 3
  /\ NoDup (Run.assigned three_accepts (Run.init [])).
Proof.
  destruct (client_ids_fresh [] three_accepts) as (Hseq & Hnd & _).
  - vm_compute. discriminate.
  - split; [exact Hseq | exact Hnd].
Defined.

(** ** Frames on a connection *)

Lemma size_serialize m : size (Message.serialize m) = 4 + size (Message.buffer m).
Proof. unfold Message.serialize. now rewrite size_app, size_encode. Qed.

Lemma size_frame m : size (frame m) = 8 + size (Message.serialize m).
Proof. unfold frame. now rewrite size_app, size_encode. Qed.

Lemma deserialize_serialize m m0 :
  in_range Tint (Message.msgType m) ->
  Message.deserialize (Message.serialize m) m0 = (Message.copy m, Ok tt).
Proof.
  intros Ht. rewrite deserialize_enough.
  - unfold Message.serialize, Message.copy.
    assert (Hl : length (encode Tint (Message.msgType m)) = 4%nat)
      by apply length_le_bytes.
    rewrite <- Hl at 1 2. rewrite take_app_length, drop_app_length.
    now rewrite decode_encode.
  - rewrite size_serialize. pose proof (size_nonneg (Message.buffer m)). lia.
Qed.

Lemma send_frame_whole m tx :
  send_frame m (sends_whole m).1 (sends_whole m).2 tx = (tx ++ frame m, Ok tt).
Proof.
  unfold send_frame, sends_whole, bind, sys_send, frame. cbn [fst snd].
  rewrite Z.eqb_refl. cbn [negb]. rewrite Z.eqb_refl. cbn [negb]. unfold ret.
  rewrite !slice_all; [now rewrite <- app_assoc | lia |].
  rewrite size_encode. lia.
Qed.

Lemma read_frame_nil :
  read_frame [] = Some (mk_recv_io false RecvFailed RecvFailed, []).
Proof. reflexivity. Qed.

Lemma slice_prefix {A} (a r : list A) : slice 0 (size a) (a ++ r) = a.
Proof. apply (slice_middle [] a r). Qed.

Lemma read_frame_frame m rest :
  representable m ->
  read_frame (frame m ++ rest)
  = Some (mk_recv_io true (Recv (encode Tsize_t (size (Message.serialize m))))
            (Recv (Message.serialize m)),
          rest).
Proof.
  intros [Ht Hs]. unfold read_frame.
  pose proof (size_nonneg rest). pose proof (size_nonneg (Message.buffer m)).
  pose proof (size_serialize m) as Hser.
  assert (H8 : sizeof Tsize_t = 8) by reflexivity.
  assert (Hsz : size (frame m ++ rest)
                = sizeof Tsize_t + size (Message.serialize m) + size rest)
    by (rewrite size_app, size_frame, H8; reflexivity).
  assert (Hhdr : slice 0 (sizeof Tsize_t) (frame m ++ rest)
                 = encode Tsize_t (size (Message.serialize m))).
  { unfold frame. rewrite <- app_assoc.
    rewrite <- (size_encode Tsize_t (size (Message.serialize m))) at 1.
    apply slice_prefix. }
  rewrite Hhdr, Hsz. rewrite decode_encode by now apply in_range_size.
  destruct (Z.eqb_spec (sizeof Tsize_t + size (Message.serialize m) + size rest) 0);
    [lia|].
  destruct (Z.ltb_spec (sizeof Tsize_t + size (Message.serialize m) + size rest)
              (sizeof Tsize_t)); [lia|].
  destruct (Z.ltb_spec
              (sizeof Tsize_t + size (Message.serialize m) + size rest - sizeof Tsize_t)
              (size (Message.serialize m))); [lia|].
  do 3 f_equal.
  - f_equal. unfold frame. rewrite <- app_assoc.
    rewrite <- (size_encode Tsize_t (size (Message.serialize m))) at 1.
    apply slice_middle.
  - replace (sizeof Tsize_t + size (Message.serialize m)) with (size (frame m))
      by (rewrite size_frame, H8; reflexivity).
    rewrite <- size_app.
    apply slice_tail.
Qed.

Lemma recv_frame_whole m :
  representable m ->
  recv_frame (mk_recv_io true (Recv (encode Tsize_t (size (Message.serialize m))))
                (Recv (Message.serialize m)))
  = Continue (Some (Message.copy m)).
Proof.
  intros [Ht Hs]. unfold recv_frame. cbn [readable recv_hdr recv_body negb bytesRead received].
  rewrite size_encode. rewrite Z.eqb_refl.
  assert (H8 : sizeof Tsize_t = 8) by reflexivity.
  destruct (Z.leb_spec (sizeof Tsize_t) 0); [lia|].
  rewrite decode_encode by now apply in_range_size.
  pose proof (size_serialize m). pose proof (size_nonneg (Message.buffer m)).
  destruct (Z.ltb_spec max_size (size (Message.serialize m))); [lia|].
  destruct (Z.leb_spec (size (Message.serialize m)) 0); [lia|].
  rewrite Z.eqb_refl. cbn [negb orb].
  now rewrite deserialize_serialize.
Qed.

(** ** Order on a connection: Client to Server *)

Section Upstream.
Context {CApp SApp : Type} (cid : Z).
Implicit Types (st : Link.state CApp SApp) (ev : Link.event).

Lemma representable_copy m : representable m -> representable (Message.copy m).
Proof. intros H. exact H. Qed.

Lemma copy_copy m : Message.copy (Message.copy m) = Message.copy m.
Proof. reflexivity. Qed.

(** The parts of a list of copies are copies of representable Messages. *)
Lemma copies_part sent (l1 l2 : list Message.t) m :
  Forall representable sent ->
  Message.copy <$> sent = l1 ++ m :: l2 ->
  representable m /\ Message.copy m = m.
Proof.
  intros Hrep Heq.
  assert (Hin : m ∈ Message.copy <$> sent)
    by (rewrite Heq; apply elem_of_app; right; apply list_elem_of_here).
  apply list_elem_of_fmap in Hin as (x & -> & Hx).
  rewrite Forall_forall in Hrep.
  split; [apply representable_copy, Hrep, Hx | reflexivity].
Qed.

Lemma client_send_part_whole (c : Client.t CApp) :
  let rets := match Client.messagesToSend c with
              | front :: _ => sends_whole front
              | [] => (0, 0)
              end in
  Client.send_part rets.1 rets.2 c []
  = Continue (Client.set_messagesToSend (tail (Client.messagesToSend c)) c,
              match Client.messagesToSend c with
              | front :: _ => frame front
              | [] => []
              end).
Proof.
  unfold Client.send_part, Client.sendMessage.
  destruct (Client.messagesToSend c) as [|front rest] eqn:E; cbn zeta.
  - cbn. rewrite <- E. now destruct c.
  - now rewrite send_frame_whole.
Qed.

Lemma upstream_step st st' sent ev :
  Forall representable sent ->
  match ev with Link.ClientSend m => representable m | _ => True end ->
  upstream cid st sent ->
  Link.step cid ev st = Some st' ->
  upstream cid st'
    (sent ++ match ev with Link.ClientSend m => [m] | _ => [] end).
Proof.
  intros Hrep Hev (Hconn & done & flight & Hdone & Hup & Hsent) Hstep.
  destruct st as [c s up down]. cbn [Link.client Link.server Link.up] in *.
  destruct ev as [m|m| | |]; cbn [Link.step Link.client Link.server Link.up Link.down] in Hstep.
  - (* client.send(m) *)
    inversion Hstep; subst; clear Hstep. unfold Client.send. rewrite Hconn.
    cbn [negb fst Link.client Link.server Link.up].
    split; [exact Hconn|]. exists done, flight. repeat split; try assumption.
    cbn [Client.set_messagesToSend Client.messagesToSend].
    rewrite fmap_app, Hsent. cbn. now rewrite <- !app_assoc.
  - (* server.sendTo(m, cid) *)
    inversion Hstep; subst; clear Hstep. rewrite app_nil_r.
    split; [exact Hconn|]. exists done, flight. repeat split; try assumption.
    cbn [Link.server]. rewrite <- Hdone. unfold Server.sendTo.
    destruct (Server.isRunning s); cbn [negb]; [|reflexivity].
    destruct (Server.clients s !! cid); reflexivity.
  - (* an iteration of the receiver loop of the Client *)
    rewrite app_nil_r.
    destruct (Client.isConnected c && negb (Client.shouldStop c)); [|discriminate].
    destruct (read_frame down) as [[i rest]|]; [|discriminate].
    unfold Client.receiverLoop_body in Hstep.
    rewrite client_send_part_whole in Hstep.
    unfold Client.recv_part in Hstep.
    destruct (recv_frame i) as [[msg|]| |]; try discriminate;
      inversion Hstep; subst; clear Hstep;
      (split; [exact Hconn|]);
      cbn [Link.client Link.server Link.up Client.messagesToSend
             Client.set_messagesToSend Client.set_receivedMessages];
      destruct (Client.messagesToSend c) as [|front rest'] eqn:E;
      cbn [tail];
      [ exists done, flight | exists done, (flight ++ [front])
      | exists done, flight | exists done, (flight ++ [front]) ];
      repeat split; try assumption;
      try (now rewrite app_nil_r);
      try (now rewrite fmap_app, concat_app; cbn; rewrite app_nil_r);
      try (now rewrite Hsent, <- !app_assoc).
  - (* an iteration of the handler loop of the Server *)
    rewrite app_nil_r.
    destruct (Server.isRunning s && negb (Server.shouldStop s)); [|discriminate].
    destruct flight as [|m flight].
    + cbn in Hup. subst up. rewrite read_frame_nil in Hstep.
      unfold Server.handleClient_body, recv_frame in Hstep. cbn in Hstep.
      inversion Hstep; subst; clear Hstep.
      split; [exact Hconn|]. exists done, []. repeat split; assumption.
    + cbn [fmap list_fmap concat] in Hup. subst up.
      destruct (copies_part sent done (flight ++ Client.messagesToSend c) m Hrep)
        as [Hm Hcopy]; [now rewrite Hsent|].
      rewrite read_frame_frame in Hstep by assumption.
      unfold Server.handleClient_body in Hstep.
      rewrite recv_frame_whole in Hstep by assumption.
      inversion Hstep; subst; clear Hstep.
      split; [exact Hconn|]. exists (done ++ [m]), flight.
      cbn [Link.client Link.server Link.up Server.receivedMessages
             Server.set_receivedMessages].
      repeat split.
      * rewrite fmap_app, Hdone. cbn. now rewrite copy_copy, Hcopy.
      * now rewrite Hsent, <- !app_assoc.
  - (* an iteration of the acceptor loop of the Server *)
    rewrite app_nil_r.
    destruct (Server.isRunning s && negb (Server.shouldStop s)); [|discriminate].
    destruct (Server.clients s !! cid) as [sock|]; [|discriminate].
    unfold Server.acceptorLoop_body in Hstep. cbn [Server.accept_part fst snd] in Hstep.
    match type of Hstep with
    | context [Server.flush_loop ?r ?ids ?w] =>
        destruct (Server.flush_loop r ids w) as [[s' net]|] eqn:E; [|discriminate]
    end.
    inversion Hstep; subst; clear Hstep. apply flush_loop_frame in E.
    split; [exact Hconn|]. exists done, flight.
    cbn [Link.client Link.server Link.up]. rewrite E.
    repeat split; assumption.
Qed.

Lemma upstream_run evs : forall st st' sent,
  Forall representable sent ->
  Forall representable (Link.client_sent evs) ->
  upstream cid st sent ->
  Link.run cid evs st = Some st' ->
  upstream cid st' (sent ++ Link.client_sent evs).
Proof.
  induction evs as [|ev evs IH]; intros st st' sent Hrep Hevs Hinv Hrun.
  - cbn in *. inversion Hrun; subst. now rewrite app_nil_r.
  - cbn [Link.run] in Hrun.
    destruct (Link.step cid ev st) as [st1|] eqn:Hstep; [|discriminate].
    assert (Hsplit : Link.client_sent (ev :: evs)
              = match ev with Link.ClientSend m => [m] | _ => [] end
                ++ Link.client_sent evs)
      by (destruct ev; reflexivity).
    rewrite Hsplit in *. apply Forall_app in Hevs as [Hev Hevs].
    rewrite app_assoc. apply (IH st1).
    + apply Forall_app. split; assumption.
    + assumption.
    + apply (upstream_step st); try assumption.
      destruct ev; try exact I. now inversion Hev.
    + assumption.
Qed.

End Upstream.

(** ** Order on a connection: Server to Client *)

Section Flush.
Context {App : Type}.
Implicit Types (s : Server.t App) (net : gmap Z (list byte)).

(** Flushing the queue [q] of [id] with sends that take everything
    leaves the queue empty and the frames of [q] on the socket. *)
Lemma flush_queue_whole id sock rets q : forall k s net,
  Server.clients s !! id = Some sock ->
  (forall j m, q !! j = Some m -> rets (k + j)%nat = sends_whole m) ->
  Server.flush_queue id rets k q (s, net)
  = Some (match q with
          | [] => (s, net)
          | _ => (Server.set_messagesToSend (<[id := []]> (Server.messagesToSend s)) s,
                  <[sock := default [] (net !! sock) ++ concat (frame <$> q)]> net)
          end).
Proof.
  induction q as [|front rest IH]; intros k s net Hc Hrets; [reflexivity|].
  cbn [Server.flush_queue]. unfold Server.sendToClient. rewrite Hc.
  pose proof (Hrets 0%nat front eq_refl) as Hr0. rewrite Nat.add_0_r in Hr0.
  rewrite Hr0, send_frame_whole.
  rewrite IH; [|exact Hc|].
  - f_equal. destruct rest as [|m rest].
    + cbn. now rewrite app_nil_r.
    + cbn [Server.set_messagesToSend Server.messagesToSend fmap list_fmap concat].
      rewrite !insert_insert_eq, lookup_insert_eq. cbn [default]. unfold Datatypes.id.
      now rewrite <- !app_assoc.
  - intros j m Hj. replace (S k + j)%nat with (k + S j)%nat by lia.
    apply Hrets. exact Hj.
Qed.

(** Flushing the queue of another client, whose socket is another one,
    touches neither the queue of [cid] nor its socket. *)
Lemma flush_queue_other cid sock id rets q : forall k s net s' net',
  id ≠ cid ->
  Server.clients s !! id ≠ Some sock ->
  Server.flush_queue id rets k q (s, net) = Some (s', net') ->
  Server.queue s' cid = Server.queue s cid /\ net' !! sock = net !! sock.
Proof.
  induction q as [|front rest IH]; intros k s net s' net' Hid Hsock H;
    cbn [Server.flush_queue] in H.
  - inversion H; subst. auto.
  - unfold Server.sendToClient in H.
    destruct (Server.clients s !! id) as [sock'|] eqn:Ec; [|discriminate].
    destruct (send_frame front (rets k).1 (rets k).2 (default [] (net !! sock')))
      as [tx [[]|e]]; [|discriminate].
    apply IH in H; [|assumption|cbn; now rewrite Ec].
    destruct H as [Hq Hn]. split.
    + rewrite Hq. unfold Server.queue. cbn [Server.messagesToSend Server.set_messagesToSend].
      now rewrite lookup_insert_ne.
    + rewrite Hn. apply lookup_insert_ne. congruence.
Qed.

(** The flush of an acceptor iteration in which every send takes
    everything: a front part [pre] of the queue of [cid] has become
    frames on its socket, in queue order. *)
Lemma flush_loop_whole cid sock rets ids : forall s net s' net',
  Server.clients s !! cid = Some sock ->
  (forall id, id ≠ cid -> Server.clients s !! id ≠ Some sock) ->
  (forall j m, Server.queue s cid !! j = Some m -> rets cid j = sends_whole m) ->
  Server.flush_loop rets ids (s, net) = Some (s', net') ->
  exists pre,
    Server.queue s cid = pre ++ Server.queue s' cid
    /\ default [] (net' !! sock) = default [] (net !! sock) ++ concat (frame <$> pre).
Proof.
  induction ids as [|id ids IH]; intros s net s' net' Hc Hinj Hrets H;
    cbn [Server.flush_loop fst snd] in H.
  - inversion H; subst. exists []. cbn. now rewrite app_nil_r.
  - destruct (decide (id = cid)) as [->|Hne].
    + rewrite Hc in H.
      rewrite (flush_queue_whole cid sock) in H; [|exact Hc|exact Hrets].
      destruct (Server.queue s cid) as [|m q] eqn:Eq.
      * apply IH in H; [|exact Hc|exact Hinj|now rewrite Eq].
        now rewrite Eq in H.
      * apply IH in H.
        -- destruct H as (pre & Hpre & Hnet).
           unfold Server.queue in Hpre at 1.
           cbn [Server.messagesToSend Server.set_messagesToSend] in Hpre.
           rewrite lookup_insert_eq in Hpre. cbn [default] in Hpre.
           destruct pre; [|discriminate]. cbn [app] in Hpre.
           exists (m :: q). rewrite <- Hpre, app_nil_r. split; [reflexivity|].
           rewrite Hnet, lookup_insert_eq. cbn [default fmap list_fmap concat].
           now rewrite app_nil_r.
        -- exact Hc.
        -- exact Hinj.
        -- intros j m'. unfold Server.queue.
           cbn [Server.messagesToSend Server.set_messagesToSend].
           rewrite lookup_insert_eq. cbn. discriminate.
    + destruct (Server.clients s !! id) as [sock'|] eqn:Ec.
      * destruct (Server.flush_queue id (rets id) 0 (Server.queue s id) (s, net))
          as [[s1 net1]|] eqn:E; [|discriminate].
        pose proof (flush_queue_frame _ _ _ _ _ _ _ _ E) as Hfr.
        apply (flush_queue_other cid sock) in E;
          [|assumption|now apply Hinj].
        destruct E as [Hq Hn].
        assert (Hcl : Server.clients s1 = Server.clients s) by now rewrite Hfr.
        apply IH in H.
        -- destruct H as (pre & Hpre & Hnet). exists pre.
           rewrite <- Hq, <- Hn. auto.
        -- now rewrite Hcl.
        -- intros id' Hid'. rewrite Hcl. now apply Hinj.
        -- now rewrite Hq.
      * apply IH in H.
        -- destruct H as (pre & Hpre & Hnet). exists pre. split; [|exact Hnet].
           rewrite <- Hpre. unfold Server.queue.
           cbn [Server.messagesToSend Server.set_messagesToSend].
           now rewrite lookup_delete_ne.
        -- exact Hc.
        -- exact Hinj.
        -- intros j m. unfold Server.queue.
           cbn [Server.messagesToSend Server.set_messagesToSend].
           rewrite lookup_delete_ne by assumption. apply Hrets.
Qed.
End Flush.

Section Downstream.
Context {CApp SApp : Type} (cid : Z).
Implicit Types (st : Link.state CApp SApp) (ev : Link.event).

Lemma downstream_step st st' sent ev :
  Forall representable sent ->
  match ev with Link.ServerSendTo m => representable m | _ => True end ->
  downstream cid st sent ->
  Link.step cid ev st = Some st' ->
  downstream cid st'
    (sent ++ match ev with Link.ServerSendTo m => [m] | _ => [] end).
Proof.
  intros Hrep Hev (Hrun & (sock & Hsock & Hinj) & flight & Hdown & Hsent) Hstep.
  destruct st as [c s up down]. cbn [Link.client Link.server Link.down] in *.
  destruct ev as [m|m| | |]; cbn [Link.step Link.client Link.server Link.up Link.down] in Hstep.
  - (* client.send(m) *)
    inversion Hstep; subst; clear Hstep. rewrite app_nil_r.
    split; [exact Hrun|]. split; [eauto|]. exists flight.
    cbn [Link.client Link.server Link.down]. split; [reflexivity|].
    rewrite Hsent. unfold Client.send.
    destruct (Client.isConnected c); reflexivity.
  - (* server.sendTo(m, cid) *)
    inversion Hstep; subst; clear Hstep.
    rewrite sendTo_known;
      [|exact Hrun|apply bool_decide_eq_true; rewrite Hsock; eauto].
    cbn [fst Link.client Link.server Link.down].
    split; [exact Hrun|]. split; [exists sock; split; assumption|].
    exists flight. split; [reflexivity|].
    cbn [Link.client Link.server].
    rewrite queue_push_to_eq, fmap_app, Hsent. cbn. now rewrite <- !app_assoc.
  - (* an iteration of the receiver loop of the Client *)
    rewrite app_nil_r.
    destruct (Client.isConnected c && negb (Client.shouldStop c)); [|discriminate].
    destruct flight as [|m flight].
    + cbn in Hdown. subst down. rewrite read_frame_nil in Hstep.
      unfold Client.receiverLoop_body in Hstep.
      rewrite client_send_part_whole in Hstep.
      unfold Client.recv_part, recv_frame in Hstep. cbn in Hstep.
      inversion Hstep; subst; clear Hstep.
      split; [exact Hrun|]. split; [eauto|]. exists [].
      split; [reflexivity | exact Hsent].
    + cbn [fmap list_fmap concat] in Hdown. subst down.
      destruct (copies_part sent (Client.receivedMessages c)
                  (flight ++ Server.queue s cid) m Hrep) as [Hm Hcopy];
        [now rewrite Hsent|].
      rewrite read_frame_frame in Hstep by assumption.
      unfold Client.receiverLoop_body in Hstep.
      rewrite client_send_part_whole in Hstep.
      unfold Client.recv_part in Hstep.
      rewrite recv_frame_whole in Hstep by assumption.
      inversion Hstep; subst; clear Hstep.
      split; [exact Hrun|]. split; [eauto|]. exists flight.
      split; [reflexivity|].
      cbn [Link.client Link.server Client.receivedMessages
             Client.set_receivedMessages Client.set_messagesToSend].
      rewrite Hsent, copy_copy, Hcopy, <- !app_assoc. reflexivity.
  - (* an iteration of the handler loop of the Server *)
    rewrite app_nil_r.
    destruct (Server.isRunning s && negb (Server.shouldStop s)); [|discriminate].
    destruct (read_frame up) as [[i rest]|]; [|discriminate].
    unfold Server.handleClient_body in Hstep.
    destruct (recv_frame i) as [[msg|]| |]; try discriminate;
      inversion Hstep; subst; clear Hstep;
      (split; [exact Hrun|]); (split; [exists sock; split; assumption|]);
      exists flight; (split; [reflexivity | exact Hsent]).
  - (* an iteration of the acceptor loop of the Server *)
    rewrite app_nil_r.
    destruct (Server.isRunning s && negb (Server.shouldStop s)); [|discriminate].
    rewrite Hsock in Hstep.
    unfold Server.acceptorLoop_body in Hstep. cbn [Server.accept_part fst snd] in Hstep.
    match type of Hstep with
    | context [Server.flush_loop ?r ?ids ?w] =>
        destruct (Server.flush_loop r ids w) as [[s' net]|] eqn:E; [|discriminate]
    end.
    inversion Hstep; subst; clear Hstep.
    pose proof (flush_loop_frame _ _ _ _ _ _ E) as Hfr.
    apply (flush_loop_whole cid sock) in E; [|exact Hsock|exact Hinj|].
    + destruct E as (pre & Hpre & Hnet).
      rewrite lookup_empty in Hnet. cbn [default app] in Hnet.
      cbn [Link.client Link.server Link.down].
      split; [now rewrite Hfr|].
      split; [exists sock; rewrite Hfr; split; assumption|].
      exists (flight ++ pre). split.
      * now rewrite Hnet, fmap_app, concat_app.
      * rewrite Hsent, Hpre, <- !app_assoc. reflexivity.
    + intros j m Hj. now rewrite Hj.
Qed.

Lemma downstream_run evs : forall st st' sent,
  Forall representable sent ->
  Forall representable (Link.server_sent evs) ->
  downstream cid st sent ->
  Link.run cid evs st = Some st' ->
  downstream cid st' (sent ++ Link.server_sent evs).
Proof.
  induction evs as [|ev evs IH]; intros st st' sent Hrep Hevs Hinv Hrun.
  - cbn in *. inversion Hrun; subst. now rewrite app_nil_r.
  - cbn [Link.run] in Hrun.
    destruct (Link.step cid ev st) as [st1|] eqn:Hstep; [|discriminate].
    assert (Hsplit : Link.server_sent (ev :: evs)
              = match ev with Link.ServerSendTo m => [m] | _ => [] end
                ++ Link.server_sent evs)
      by (destruct ev; reflexivity).
    rewrite Hsplit in *. apply Forall_app in Hevs as [Hev Hevs].
    rewrite app_assoc. apply (IH st1).
    + apply Forall_app. split; assumption.
    + assumption.
    + apply (downstream_step st); try assumption.
      destruct ev; try exact I. now inversion Hev.
    + assumption.
Qed.

End Downstream.

(** ** A schedule that delivers *)

Section Delivery.
Context {CApp SApp : Type} (cid : Z).
Implicit Types (st : Link.state CApp SApp).

Lemma run_app evs1 evs2 st :
  Link.run cid (evs1 ++ evs2) st
  = match Link.run cid evs1 st with
    | Some st1 => Link.run cid evs2 st1
    | None => None
    end.
Proof.
  revert st. induction evs1 as [|ev evs1 IH]; intros st; [reflexivity|].
  cbn [app Link.run]. destruct (Link.step cid ev st); [apply IH | reflexivity].
Qed.

Lemma run_sends ms : forall st,
  Client.isConnected (Link.client st) = true ->
  Link.run cid (Link.ClientSend <$> ms) st
  = Some (Link.mk
            (Client.set_messagesToSend
               (Client.messagesToSend (Link.client st) ++ (Message.copy <$> ms))
               (Link.client st))
            (Link.server st) (Link.up st) (Link.down st)).
Proof.
  induction ms as [|m ms IH]; intros st Hc.
  - cbn. rewrite app_nil_r. destruct st as [[] ? ? ?]. reflexivity.
  - cbn [fmap list_fmap Link.run Link.step]. unfold Client.send. rewrite Hc.
    cbn [negb fst]. rewrite IH by exact Hc.
    cbn [Link.client Link.server Link.up Link.down Client.messagesToSend
           Client.set_messagesToSend Client.sockfd Client.isConnected
           Client.shouldStop Client.receiverThread Client.receivedMessages
           Client.actions].
    now rewrite <- app_assoc.
Qed.

Lemma run_client_iterations q : forall st,
  Client.isConnected (Link.client st) = true ->
  Client.shouldStop (Link.client st) = false ->
  Client.messagesToSend (Link.client st) = q ->
  Link.down st = [] ->
  Link.run cid (replicate (length q) Link.ClientIteration) st
  = Some (Link.mk (Client.set_messagesToSend [] (Link.client st))
            (Link.server st) (Link.up st ++ concat (frame <$> q)) []).
Proof.
  induction q as [|m q IH]; intros st Hc Hs Hq Hd.
  - cbn. rewrite app_nil_r. destruct st as [[] ? ? ?]. cbn in *. now subst.
  - cbn [length replicate Link.run Link.step]. rewrite Hc, Hs, Hd. cbn [negb andb].
    rewrite read_frame_nil. unfold Client.receiverLoop_body.
    rewrite client_send_part_whole. rewrite Hq. cbn [tail].
    unfold Client.recv_part, recv_frame. cbn [readable negb].
    rewrite IH; try assumption; try reflexivity.
    cbn [Link.client Link.server Link.up Link.down fmap list_fmap concat].
    now rewrite <- app_assoc.
Qed.

Lemma run_handler_iterations q : forall st,
  Server.isRunning (Link.server st) = true ->
  Server.shouldStop (Link.server st) = false ->
  Forall representable q ->
  Link.up st = concat (frame <$> q) ->
  Link.run cid (replicate (length q) Link.HandlerIteration) st
  = Some (Link.mk (Link.client st)
            (Server.set_receivedMessages
               (Server.receivedMessages (Link.server st)
                ++ ((fun m => (cid, Message.copy m)) <$> q))
               (Link.server st))
            [] (Link.down st)).
Proof.
  induction q as [|m q IH]; intros st Hr Hs Hrep Hup.
  - cbn. rewrite app_nil_r. destruct st as [? [] ? ?]. cbn in *. now subst.
  - inversion Hrep as [|? ? Hm Hq]; subst.
    cbn [length replicate Link.run Link.step]. rewrite Hr, Hs, Hup. cbn [negb andb].
    cbn [fmap list_fmap concat]. rewrite read_frame_frame by assumption.
    unfold Server.handleClient_body. rewrite recv_frame_whole by assumption.
    rewrite IH; try assumption; try reflexivity.
    cbn [Link.client Link.server Link.up Link.down Server.receivedMessages
           Server.set_receivedMessages fmap list_fmap].
    now rewrite copy_copy, <- app_assoc.
Qed.

(** Every list of representable Messages can be delivered: the schedule
    [deliver_all] runs on a connection that does not fail and leaves them
    in the Server's inbound queue in send order. *)
Lemma delivery_schedule ms st :
  Link.fresh cid st ->
  Client.shouldStop (Link.client st) = false ->
  Server.shouldStop (Link.server st) = false ->
  Forall representable ms ->
  exists st',
    Link.run cid (deliver_all ms) st = Some st'
    /\ Server.receivedMessages (Link.server st')
       = (fun m => (cid, Message.copy m)) <$> ms
    /\ Client.messagesToSend (Link.client st') = []
    /\ Link.up st' = [].
Proof.
  intros (Hconn & Hout & Hin & Hrun & Hsock & Hq & Hrecv & Hup & Hdown)
         Hcs Hss Hrep.
  unfold deliver_all. eexists. split.
  - rewrite run_app, run_sends by exact Hconn. rewrite Hout. cbn [app].
    rewrite run_app.
    rewrite <- (length_fmap Message.copy ms) at 1.
    rewrite run_client_iterations; try assumption; try reflexivity.
    cbn [Link.client Link.server Link.up Link.down].
    rewrite <- (length_fmap Message.copy ms).
    rewrite run_handler_iterations; try assumption; try reflexivity.
    + apply Forall_fmap. eapply Forall_impl; [exact Hrep|].
      intros m Hm. exact Hm.
    + cbn [Link.up]. now rewrite Hup.
  - cbn [Link.client Link.server Link.up Server.receivedMessages
           Server.set_receivedMessages Client.messagesToSend
           Client.set_messagesToSend].
    rewrite Hrecv. cbn [app]. repeat split.
    rewrite <- list_fmap_compose. reflexivity.
Qed.
End Delivery.

(** ** Order on a connection *)

Lemma frames_nil (flight : list Message.t) :
  concat (frame <$> flight) = [] -> flight = [].
Proof.
  destruct flight as [|m flight]; [reflexivity|].
  cbn [fmap list_fmap concat]. intros H.
  apply (f_equal size) in H. rewrite size_app, size_frame in H.
  pose proof (size_nonneg (concat (frame <$> flight))).
  pose proof (size_nonneg (Message.serialize m)).
  change (size (@nil byte)) with 0 in H. lia.
Qed.

(** C9. On one connection that does not fail, in every interleaving of the
    application's sends with the iterations of the I/O loops: the Messages
    the Client's application has handed to [send] are, in send order, those
    in the Server's inbound queue under the connection's ClientID, then
    those whose frames are on the stream, then those still in the Client's
    outbound queue; once the outbound queue and the stream are empty the
    inbound queue holds all of them in send order, and [update] invokes the
    callbacks for them in that order. The same holds from the Server's
    [sendTo] to the Client's inbound queue and [update]. A Message arrives
    as a copy: same type, same payload, cursor at zero. *)
Theorem fifo_per_connection {CApp SApp : Type} (cid : Z)
    (evs : list Link.event) (st st' : Link.state CApp SApp) :
  Link.fresh cid st ->
  Forall representable (Link.client_sent evs) ->
  Forall representable (Link.server_sent evs) ->
  Link.run cid evs st = Some st' ->
  let to_server := Message.copy <$> Link.client_sent evs in
  let to_client := Message.copy <$> Link.server_sent evs in
  (exists done flight,
      Server.receivedMessages (Link.server st') = (fun m => (cid, m)) <$> done
      /\ Link.up st' = concat (frame <$> flight)
      /\ to_server = done ++ flight ++ Client.messagesToSend (Link.client st'))
  /\ (Client.messagesToSend (Link.client st') = [] -> Link.up st' = [] ->
      Server.receivedMessages (Link.server st') = (fun m => (cid, m)) <$> to_server
      /\ forall app,
          let calls := server_calls (Server.actions (Link.server st'))
                         ((fun m => (cid, m)) <$> to_server) in
          Server.update (Link.server st', app)
          = ((Server.set_receivedMessages [] (Link.server st'),
              (run_all calls app).1), (run_all calls app).2))
  /\ (exists flight,
      Link.down st' = concat (frame <$> flight)
      /\ to_client = Client.receivedMessages (Link.client st') ++ flight
                     ++ Server.queue (Link.server st') cid)
  /\ (Server.queue (Link.server st') cid = [] -> Link.down st' = [] ->
      Client.receivedMessages (Link.client st') = to_client
      /\ forall app,
          let calls := client_calls (Client.actions (Link.client st')) to_client in
          Client.update (Link.client st', app)
          = ((Client.set_receivedMessages [] (Link.client st'),
              (run_all calls app).1), (run_all calls app).2)).
Proof.
  intros (Hconn & Hout & Hin & Hrun & Hsock & Hq & Hrecv & Hup & Hdown)
         Hrc Hrs Hsteps to_server to_client.
  assert (Hu : upstream cid st' (Link.client_sent evs)).
  { apply (upstream_run cid evs st st' []); try assumption; [constructor|].
    split; [exact Hconn|]. exists [], []. rewrite Hrecv, Hup, Hout. auto. }
  assert (Hd : downstream cid st' (Link.server_sent evs)).
  { apply (downstream_run cid evs st st' []); try assumption; [constructor|].
    split; [exact Hrun|]. split; [exact Hsock|]. exists [].
    rewrite Hdown, Hin, Hq. auto. }
  destruct Hu as (Hconn' & done & flight & Hdone & Hup' & Hsent).
  destruct Hd as (Hrun' & _ & flight' & Hdown' & Hsent').
  split; [exists done, flight; auto|]. split; [|split].
  - intros Hempty Hnil. rewrite Hnil in Hup'. symmetry in Hup'.
    apply frames_nil in Hup'. subst flight. rewrite Hempty in Hsent.
    cbn [app] in Hsent. rewrite app_nil_r in Hsent.
    assert (Hall : Server.receivedMessages (Link.server st')
                   = (fun m => (cid, m)) <$> to_server)
      by (unfold to_server; now rewrite Hsent).
    split; [exact Hall|]. intros app calls.
    unfold Server.update. rewrite Hrun'. cbn [negb].
    rewrite server_dispatch_calls, Hall. fold calls.
    now destruct (run_all calls app).
  - exists flight'. auto.
  - intros Hempty Hnil. rewrite Hnil in Hdown'. symmetry in Hdown'.
    apply frames_nil in Hdown'. subst flight'. rewrite Hempty in Hsent'.
    cbn [app] in Hsent'. rewrite app_nil_r in Hsent'.
    assert (Hall : Client.receivedMessages (Link.client st') = to_client)
      by (unfold to_client; now rewrite Hsent').
    split; [exact Hall|]. intros app calls.
    unfold Client.update. rewrite Hconn'. cbn [negb].
    rewrite client_dispatch_calls, Hall. fold calls.
    now destruct (run_all calls app).
Qed.

Lemma link_start_fresh : Link.fresh 1 link_start.
Proof.
  unfold Link.fresh, link_start. cbn [Link.client Link.server Link.up Link.down
    Client.isConnected Client.messagesToSend Client.receivedMessages
    Server.isRunning Server.clients Server.receivedMessages].
  repeat split.
  exists 4. split; [reflexivity|].
  intros id Hid. destruct (decide (id = 2)) as [->|H2].
  - rewrite lookup_insert_eq. discriminate.
  - rewrite lookup_insert_ne by congruence.
    rewrite lookup_singleton_ne by congruence. discriminate.
Qed.

Lemma abc_representable :
  representable msg_A /\ representable msg_B /\ representable msg_C.
Proof. repeat split; vm_compute; intuition discriminate. Qed.

Lemma fifo_per_connection_witness :
  Link.run 1 abc_schedule link_start = Some abc_final
  /\ Server.receivedMessages (Link.server abc_final)
     = [(1, msg_A); (1, msg_B); (1, msg_C)]
  /\ Client.receivedMessages (Link.client abc_final) = [msg_C; msg_A].
Proof.
  assert (E : Link.run 1 abc_schedule link_start = Some abc_final)
    by (vm_compute; reflexivity).
  destruct abc_representable as (HA & HB & HC).
  destruct (fifo_per_connection 1 abc_schedule link_start abc_final
              link_start_fresh) as (_ & Hup & _ & Hdown).
  - change (Link.client_sent abc_schedule) with [msg_A; msg_B; msg_C].
    repeat (constructor; [assumption|]). constructor.
  - change (Link.server_sent abc_schedule) with [msg_C; msg_A].
    repeat (constructor; [assumption|]). constructor.
  - exact E.
  - destruct (Hup eq_refl eq_refl) as [Hs _].
    destruct (Hdown eq_refl eq_refl) as [Hc _].
    split; [exact E|]. split.
    + etransitivity; [exact Hs|]. vm_compute. reflexivity.
    + etransitivity; [exact Hc|]. vm_compute. reflexivity.
Defined.

(** * Further properties *)

(** ** Object representations, the other way round *)

Lemma byte_of_Z_of_byte b v : byte_of_Z (Z_of_byte b + 256 * v) = b.
Proof.
  unfold byte_of_Z. pose proof (Z_of_byte_range b) as Hb.
  replace ((Z_of_byte b + 256 * v) mod 256) with (Z_of_byte b).
  - unfold Z_of_byte. rewrite N2Z.id, Byte.of_to_N. reflexivity.
  - apply (Z.mod_unique_pos _ 256 v); lia.
Qed.

Lemma le_bytes_le_value bs : le_bytes (length bs) (le_value bs) = bs.
Proof.
  induction bs as [|b bs IH]; [reflexivity|].
  cbn [length le_bytes le_value]. rewrite byte_of_Z_of_byte. f_equal.
  pose proof (Z_of_byte_range b).
  replace ((Z_of_byte b + 256 * le_value bs) / 256) with (le_value bs); [exact IH|].
  apply (Z.div_unique_pos _ 256 _ (Z_of_byte b)); lia.
Qed.

Lemma byte_of_Z_shift x k : byte_of_Z (x + k * 256) = byte_of_Z x.
Proof. unfold byte_of_Z. now rewrite Z.mod_add by lia. Qed.

Lemma le_bytes_shift n : forall x k,
  le_bytes n (x + k * 2 ^ (8 * Z.of_nat n)) = le_bytes n x.
Proof.
  induction n as [|n IH]; intros x k; [reflexivity|].
  cbn [le_bytes].
  replace (8 * Z.of_nat (S n)) with (8 * Z.of_nat n + 8) by lia.
  rewrite Z.pow_add_r by lia. change (2 ^ 8) with 256.
  rewrite Z.mul_assoc, byte_of_Z_shift. f_equal.
  rewrite Z.div_add by lia. apply IH.
Qed.

Lemma encode_decode ty bs :
  length bs = sizeof_nat ty -> encode ty (decode ty bs) = bs.
Proof.
  intros Hl. unfold encode, decode. rewrite <- Hl.
  destruct (is_signed ty && (2 ^ (bits ty - 1) <=? le_value bs)).
  - unfold bits, sizeof. rewrite <- Hl.
    replace (le_value bs - 2 ^ (8 * Z.of_nat (length bs)))
      with (le_value bs + (-1) * 2 ^ (8 * Z.of_nat (length bs))) by lia.
    rewrite le_bytes_shift. apply le_bytes_le_value.
  - apply le_bytes_le_value.
Qed.

(** ** Message: serialize and deserialize *)

(** X1. [deserialize] undoes [serialize]: whatever Message it is called
    on, it leaves a Message with the type and the payload of the serialized
    one and the cursor at zero. The type is an [int]. *)
Theorem deserialize_after_serialize (m m0 : Message.t) :
  in_range Tint (Message.msgType m) ->
  Message.deserialize (Message.serialize m) m0
  = (Message.mk (Message.msgType m) (Message.buffer m) 0, Ok tt).
Proof. intros Ht. now rewrite deserialize_serialize. Qed.

Lemma deserialize_after_serialize_witness :
  Message.deserialize (Message.serialize msg_consumed) msg_seven
  = (Message.mk 7 [x01; x02; x03; x04] 0, Ok tt).
Proof.
  apply (deserialize_after_serialize msg_consumed msg_seven).
  vm_compute. intuition discriminate.
Defined.

(** X2. [serialize] undoes [deserialize]: a byte sequence of at least 4
    bytes that has been deserialized into a Message serializes to the same
    bytes again, wherever the cursor of the Message has moved since. *)
Theorem serialize_after_deserialize (data : list byte) (m0 : Message.t) (pos : Z) :
  4 <= size data ->
  Message.serialize (Message.set_readPos pos (Message.deserialize data m0).1) = data.
Proof.
  intros H. rewrite deserialize_enough by assumption.
  unfold Message.serialize. cbn [fst Message.set_readPos Message.msgType Message.buffer].
  rewrite encode_decode.
  - apply take_drop.
  - rewrite length_take. unfold size in H. change (sizeof_nat Tint) with 4%nat. lia.
Qed.

Lemma serialize_after_deserialize_witness :
  Message.serialize
    (Message.set_readPos 2 (Message.deserialize (encode Tllong (-2)) msg_seven).1)
  = encode Tllong (-2).
Proof.
  apply (serialize_after_deserialize (encode Tllong (-2)) msg_seven 2).
  vm_compute. discriminate.
Defined.

(** ** Message: reads leave the content alone *)

Lemma pop_content ty m :
  Message.msgType (Message.pop ty m).1 = Message.msgType m
  /\ Message.buffer (Message.pop ty m).1 = Message.buffer m.
Proof.
  unfold Message.pop.
  destruct (size (Message.buffer m) <? size_add (Message.readPos m) (sizeof ty));
    split; reflexivity.
Qed.

Lemma pop_string_content m :
  Message.msgType (Message.pop_string m).1 = Message.msgType m
  /\ Message.buffer (Message.pop_string m).1 = Message.buffer m.
Proof.
  unfold Message.pop_string, bind. pose proof (pop_content Tsize_t m) as [Ht Hb].
  destruct (Message.pop Tsize_t m) as [m1 [n|e]]; cbn [fst] in *; [|auto].
  destruct (size (Message.buffer m1) <? size_add (Message.readPos m1) n); [auto|].
  destruct (Message.string_assign (Message.readPos m1) n m1); cbn; auto.
Qed.

Lemma pop_value_content ty m :
  Message.msgType (pop_value ty m).1 = Message.msgType m
  /\ Message.buffer (pop_value ty m).1 = Message.buffer m.
Proof.
  destruct ty as [ty|]; cbn [pop_value]; unfold bind, ret.
  - pose proof (pop_content ty m). now destruct (Message.pop ty m) as [m1 [x|e]].
  - pose proof (pop_string_content m). now destruct (Message.pop_string m) as [m1 [x|e]].
Qed.

Lemma pop_values_content tys : forall m,
  Message.msgType (pop_values tys m).1 = Message.msgType m
  /\ Message.buffer (pop_values tys m).1 = Message.buffer m.
Proof.
  induction tys as [|ty tys IH]; intros m; [split; reflexivity|].
  cbn [pop_values]. unfold bind, ret.
  pose proof (pop_value_content ty m) as [Ht Hb].
  destruct (pop_value ty m) as [m1 [v|e]]; cbn [fst] in *; [|auto].
  pose proof (IH m1) as [Ht' Hb'].
  destruct (pop_values tys m1) as [m2 [vs|e]]; cbn [fst] in *; split; congruence.
Qed.

(** X3. Reading never changes what a Message serializes to: after any
    sequence of reads, of any types, whether they succeed or raise, the
    type and the payload are what they were, and so is [serialize]. *)
Theorem serialize_ignores_reads (tys : list vtype) (m : Message.t) :
  Message.msgType (pop_values tys m).1 = Message.msgType m
  /\ Message.buffer (pop_values tys m).1 = Message.buffer m
  /\ Message.serialize (pop_values tys m).1 = Message.serialize m.
Proof.
  destruct (pop_values_content tys m) as [Ht Hb].
  split; [exact Ht|]. split; [exact Hb|].
  unfold Message.serialize. now rewrite Ht, Hb.
Qed.

(** ** Message: reading again, reading too much *)

Lemma pop_values_fresh vs mt :
  Forall value_ok vs -> size (payload vs) <= max_size ->
  pop_values (map type_of vs) (Message.mk mt (payload vs) 0)
  = (Message.mk mt (payload vs) (size (payload vs)), Ok vs).
Proof.
  intros Hok Hsz.
  pose proof (pop_values_at vs mt [] [] Hok) as H.
  rewrite app_nil_r in H. cbn [app] in H. change (size (@nil byte)) with 0 in H.
  rewrite Z.add_0_l in H. apply H. exact Hsz.
Qed.

(** X4. A payload can be read more than once: values appended to a fresh
    Message, read back, and read again after [resetRead] come back the same
    both times. *)
Theorem reread_after_reset (mt : Z) (vs : list value) :
  Forall value_ok vs ->
  size (payload vs) <= max_size ->
  (push_values vs >>> pop_values (map type_of vs)
   >>> Message.resetRead >>> pop_values (map type_of vs)) (Message.ctor mt)
  = (Message.mk mt (payload vs) (size (payload vs)), Ok vs).
Proof.
  intros Hok Hsz. unfold bind at 1. rewrite push_values_spec.
  unfold Message.set_buffer, Message.ctor.
  cbn [Message.msgType Message.buffer Message.readPos app].
  unfold bind at 1. rewrite pop_values_fresh by assumption.
  unfold bind, Message.resetRead, modify, Message.set_readPos.
  cbn [Message.msgType Message.buffer Message.readPos].
  now rewrite pop_values_fresh.
Qed.

Lemma reread_after_reset_witness :
  (push_values [VScalar Tint 7; VString bytes_net]
   >>> pop_values [TScalar Tint; TString]
   >>> Message.resetRead >>> pop_values [TScalar Tint; TString]) (Message.ctor 1)
  = (Message.mk 1 (payload [VScalar Tint 7; VString bytes_net]) 15,
     Ok [VScalar Tint 7; VString bytes_net]).
Proof.
  apply (reread_after_reset 1 [VScalar Tint 7; VString bytes_net]).
  - repeat constructor; vm_compute; intuition discriminate.
  - vm_compute. discriminate.
Defined.

Lemma pop_values_snoc tys ty m :
  pop_values (tys ++ [ty]) m
  = match pop_values tys m with
    | (m1, Ok vs) =>
        match pop_value ty m1 with
        | (m2, Ok v) => (m2, Ok (vs ++ [v]))
        | (m2, Throw e) => (m2, Throw e)
        end
    | (m1, Throw e) => (m1, Throw e)
    end.
Proof.
  revert m. induction tys as [|t tys IH]; intros m.
  - cbn [app pop_values]. unfold bind, ret.
    destruct (pop_value ty m) as [m2 [v|e]]; reflexivity.
  - cbn [app pop_values]. unfold bind, ret.
    destruct (pop_value t m) as [m1 [v|e]]; [|reflexivity].
    rewrite IH. destruct (pop_values tys m1) as [m2 [vs|e]]; [|reflexivity].
    destruct (pop_value ty m2) as [m3 [v'|e]]; reflexivity.
Qed.

(** X5. Reading one value more than was written fails: after all the
    values of a fresh Message have been read back, a further read of any
    type, scalar or string, raises DeserializationFailed and leaves the
    cursor at the end of the payload. *)
Theorem read_past_end_fails (mt : Z) (vs : list value) (ty : vtype) :
  Forall value_ok vs ->
  size (payload vs) <= max_size ->
  (push_values vs >>> pop_values (map type_of vs ++ [ty])) (Message.ctor mt)
  = (Message.mk mt (payload vs) (size (payload vs)), Throw DeserializationFailed).
Proof.
  intros Hok Hsz. unfold bind. rewrite push_values_spec.
  unfold Message.set_buffer, Message.ctor.
  cbn [Message.msgType Message.buffer Message.readPos app].
  rewrite pop_values_snoc, pop_values_fresh by assumption.
  set (m := Message.mk mt (payload vs) (size (payload vs))).
  assert (Hwf : Message.wf m).
  { unfold Message.wf, m. cbn. pose proof (size_nonneg (payload vs)). lia. }
  assert (Hrem : Message.remaining m = 0) by (unfold Message.remaining, m; cbn; lia).
  destruct ty as [ty|]; cbn [pop_value]; unfold bind.
  - rewrite pop_short; [reflexivity | exact Hwf |].
    rewrite Hrem. pose proof (sizeof_bounds ty). lia.
  - rewrite pop_string_short_prefix; [reflexivity | exact Hwf |].
    rewrite Hrem. reflexivity.
Qed.

Lemma read_past_end_fails_witness :
  (push_values [VScalar Tint 7] >>> pop_values [TScalar Tint; TString]) (Message.ctor 1)
  = (Message.mk 1 (payload [VScalar Tint 7]) 4, Throw DeserializationFailed).
Proof.
  apply (read_past_end_fails 1 [VScalar Tint 7] TString).
  - repeat constructor; vm_compute; intuition discriminate.
  - vm_compute. discriminate.
Defined.

(** ** Message: the cursor stays inside the payload *)

Lemma wf_pop_value ty m : Message.wf m -> Message.wf (pop_value ty m).1.
Proof.
  intros Hwf. destruct ty as [ty|]; cbn [pop_value]; unfold bind, ret.
  - pose proof (wf_pop ty m Hwf). now destruct (Message.pop ty m) as [m1 [x|e]].
  - pose proof (wf_pop_string m Hwf). now destruct (Message.pop_string m) as [m1 [x|e]].
Qed.

Lemma wf_pop_values tys : forall m, Message.wf m -> Message.wf (pop_values tys m).1.
Proof.
  induction tys as [|ty tys IH]; intros m Hwf; [exact Hwf|].
  cbn [pop_values]. unfold bind, ret.
  pose proof (wf_pop_value ty m Hwf) as H1.
  destruct (pop_value ty m) as [m1 [v|e]]; cbn [fst] in *; [|exact H1].
  pose proof (IH m1 H1) as H2.
  now destruct (pop_values tys m1) as [m2 [vs|e]].
Qed.

(** X6. The read cursor never leaves the payload. From a Message whose
    cursor is inside its payload, every sequence of reads, successful or
    not, every [resetRead], every append that fits a vector and every
    [deserialize] of a representable string leaves the cursor between zero
    and the size of the payload. *)
Theorem cursor_stays_inside (m : Message.t) :
  Message.wf m ->
  (forall tys, Message.wf (pop_values tys m).1)
  /\ Message.wf (Message.resetRead m).1
  /\ (forall v, size (Message.buffer m) + size (value_bytes v) <= max_size ->
        Message.wf (push_value v m).1)
  /\ (forall data, size data <= max_size ->
        Message.wf (Message.deserialize data m).1).
Proof.
  intros Hwf. split; [|split; [|split]].
  - intros tys. now apply wf_pop_values.
  - destruct Hwf as [Hp Hs]. unfold Message.wf. cbn. lia.
  - intros v Hfit. rewrite push_value_spec. destruct Hwf as [Hp Hs].
    unfold Message.wf. cbn. rewrite size_app.
    pose proof (size_nonneg (value_bytes v)). lia.
  - intros data Hd. now apply wf_deserialize.
Qed.

Lemma cursor_stays_inside_witness :
  Message.wf (pop_values [TString; TScalar Tint] msg_truncated_string).1.
Proof.
  apply (cursor_stays_inside msg_truncated_string msg_truncated_string_wf).
Defined.

(** ** Message: the guard of the string read *)

Lemma prefix_lt_modulus m : Message.prefix_at_cursor m < size_modulus.
Proof.
  unfold Message.prefix_at_cursor, decode. cbn [is_signed andb].
  pose proof (le_value_range
                (slice (Message.readPos m) (sizeof Tsize_t) (Message.buffer m)))
    as [_ Hlt].
  eapply Z.lt_le_trans; [exact Hlt|].
  unfold size_modulus. apply Z.pow_le_mono_r; [lia|].
  unfold slice, size. rewrite length_take. change (Z.to_nat (sizeof Tsize_t)) with 8%nat.
  lia.
Qed.

(** X7. The guard of the string read does not hold back a length prefix
    that makes cursor + 8 + n reach 2^64: the sum wraps, the guard passes
    although fewer than n bytes remain, and the read fails with another
    exception than DeserializationFailed, the cursor left behind the
    prefix. *)
Theorem pop_string_guard_wraps (m : Message.t) :
  Message.wf m ->
  sizeof Tsize_t <= Message.remaining m ->
  size_modulus <= Message.readPos m + sizeof Tsize_t + Message.prefix_at_cursor m ->
  Message.remaining m - sizeof Tsize_t < Message.prefix_at_cursor m
  /\ exists e,
      e <> DeserializationFailed
      /\ Message.pop_string m
         = (Message.set_readPos (Message.readPos m + sizeof Tsize_t) m, Throw e).
Proof.
  intros Hwf Hrem Hwrap.
  pose proof (prefix_lt_modulus m) as Hlt. pose proof (prefix_nonneg m) as Hge.
  pose proof max_size_headroom as Hhead. pose proof (sizeof_bounds Tsize_t) as H8.
  pose proof Hwf as [Hp Hs]. unfold Message.remaining in *.
  split; [lia|]. exists LengthError. split; [discriminate|].
  unfold Message.pop_string, bind. rewrite pop_enough by assumption.
  fold (Message.prefix_at_cursor m). unfold Message.set_readPos, Message.string_assign.
  cbn [Message.readPos Message.buffer Message.msgType].
  assert (Hsum : size_add (Message.readPos m + sizeof Tsize_t) (Message.prefix_at_cursor m)
                 = Message.readPos m + sizeof Tsize_t + Message.prefix_at_cursor m
                   - size_modulus).
  { unfold size_add. symmetry.
    apply (Z.mod_unique_pos _ size_modulus 1); lia. }
  rewrite Hsum.
  destruct (Z.ltb_spec (size (Message.buffer m))
              (Message.readPos m + sizeof Tsize_t + Message.prefix_at_cursor m
               - size_modulus)); [lia|].
  destruct (Z.leb_spec
              (Message.readPos m + sizeof Tsize_t + Message.prefix_at_cursor m)
              (size (Message.buffer m))); [lia | reflexivity].
Qed.

Lemma msg_huge_prefix_wf : Message.wf msg_huge_prefix.
Proof. vm_compute. intuition discriminate. Qed.

Lemma pop_string_guard_wraps_witness :
  exists e,
    e <> DeserializationFailed
    /\ Message.pop_string msg_huge_prefix
       = (Message.set_readPos 8 msg_huge_prefix, Throw e).
Proof.
  apply (pop_string_guard_wraps msg_huge_prefix msg_huge_prefix_wf);
    vm_compute; discriminate.
Defined.

(** ** Client: the receiver loop *)

(** X8. The bytes on the wire. When both [::send] calls take all they are
    given, [sendMessage] of a Message of type [mt] to which the values
    [vs] have been appended adds to the stream the 8-byte length
    4 + payload size, the 4 bytes of the type and the values in append
    order, each scalar verbatim and each string behind its 8-byte
    length. *)
Theorem wire_layout (mt : Z) (vs : list value) (tx : list byte) :
  Client.sendMessage (push_values vs (Message.ctor mt)).1
    (sizeof Tsize_t) (sizeof Tint + size (payload vs)) tx
  = (tx ++ encode Tsize_t (sizeof Tint + size (payload vs))
        ++ encode Tint mt ++ payload vs,
     Ok tt).
Proof.
  rewrite push_values_spec. cbn [fst]. unfold Client.sendMessage.
  set (m := Message.set_buffer _ _).
  assert (Hs : Message.serialize m = encode Tint mt ++ payload vs) by reflexivity.
  assert (Hz : size (Message.serialize m) = sizeof Tint + size (payload vs)).
  { rewrite Hs, size_app, size_encode. reflexivity. }
  pose proof (send_frame_whole m tx) as H. unfold sends_whole in H. cbn [fst snd] in H.
  rewrite Hz in H. rewrite H. unfold frame. now rewrite Hz, Hs.
Qed.

(** X9. A send that fails ends the connection and loses nothing from the
    queue. When one of the two [::send] calls for the Message at the front
    of the outbound queue does not take all it is given, the receiver
    thread leaves its loop in that iteration: it receives nothing more,
    makes no further call, sets the stop flag and clears [isConnected];
    the Message is still at the front of the outbound queue, the inbound
    queue, the socket and the callbacks are as they were. *)
Theorem failed_send_ends_loop {App : Type} (c : Client.t App)
    (front : Message.t) (rest : list Message.t) (r1 r2 : Z) (i : recv_io)
    (calls : list (Z * Z * recv_io)) (tx : list byte) :
  Client.isConnected c = true ->
  Client.shouldStop c = false ->
  Client.messagesToSend c = front :: rest ->
  ~ (r1 = sizeof Tsize_t /\ r2 = size (Message.serialize front)) ->
  exists tx',
    Client.receiverLoop ((r1, r2, i) :: calls) c tx
    = Some (Client.mk (Client.sockfd c) false true (Client.receiverThread c)
              (Client.receivedMessages c) (front :: rest) (Client.actions c),
            tx').
Proof.
  intros Hc Hs Hq Hr. cbn [Client.receiverLoop]. rewrite Hc, Hs. cbn [andb negb].
  unfold Client.receiverLoop_body, Client.send_part. rewrite Hq.
  unfold Client.sendMessage, send_frame, bind, sys_send, throw, ret.
  destruct (Z.eqb_spec r1 (sizeof Tsize_t)) as [E1|E1]; cbn [negb].
  - destruct (Z.eqb_spec r2 (size (Message.serialize front))) as [E2|E2]; cbn [negb].
    + tauto.
    + eexists. unfold Client.set_isConnected, Client.set_shouldStop. cbn.
      rewrite Hq. reflexivity.
  - eexists. unfold Client.set_isConnected, Client.set_shouldStop. cbn.
    rewrite Hq. reflexivity.
Qed.

Lemma failed_send_ends_loop_witness :
  exists tx',
    Client.receiverLoop [(8, -1, idle); (8, 4, idle)]
      (Client.mk 3 true false true [] [msg_empty; msg_seven] (∅ : gmap Z (Client.Action unit))) []
    = Some (Client.mk 3 false true true [] [msg_empty; msg_seven] ∅, tx').
Proof.
  apply (failed_send_ends_loop
           (Client.mk 3 true false true [] [msg_empty; msg_seven] ∅)
           msg_empty [msg_seven] 8 (-1) idle [(8, 4, idle)] []);
    try reflexivity.
  vm_compute. intros [_ H]. discriminate H.
Defined.

(** X10. Once the receiver thread has returned, for whatever reason, the
    Client is not connected: [send] and [update] raise NotConnected, so
    Messages that were received and not yet dispatched stay in the inbound
    queue, and [disconnect()] returns at once: it neither closes the
    socket, which [sockfd] still names, nor joins the thread. *)
Theorem lost_connection_is_final {App : Type} (c c' : Client.t App)
    (calls : list (Z * Z * recv_io)) (tx tx' : list byte) :
  Client.receiverLoop calls c tx = Some (c', tx') ->
  (forall m, Client.send m c' = (c', Throw NotConnected))
  /\ (forall app, Client.update (c', app) = ((c', app), Throw NotConnected))
  /\ (forall pos calls' fds, Client.disconnect pos calls' fds c' = Some (c', fds))
  /\ Client.sockfd c' = Client.sockfd c
  /\ Client.receiverThread c' = Client.receiverThread c.
Proof.
  intros H. apply receiverLoop_returns in H. destruct H as (Hc & Hs & Ht & _).
  repeat split; try assumption.
  - intros m. unfold Client.send. now rewrite Hc.
  - intros app. unfold Client.update. now rewrite Hc.
  - intros pos calls' fds. unfold Client.disconnect. now rewrite Hc.
Qed.

Lemma lost_connection_is_final_witness :
  Client.update (Client.mk 3 false true true [msg_seven] [] ∅, tt)
  = ((Client.mk 3 false true true [msg_seven] [] ∅, tt), Throw NotConnected).
Proof.
  apply (lost_connection_is_final
           client_idle (Client.mk 3 false true true [msg_seven] [] ∅)
           [(0, 0, mk_recv_io true (Recv (encode Tsize_t 8))
                     (Recv (Message.serialize msg_seven)));
            (0, 0, peer_closed)] [] []).
  vm_compute. reflexivity.
Defined.

(** X11. A Client whose receiver thread has returned on its own cannot be
    used again. The thread object is still joinable and nothing joins it:
    destroying the Client terminates the process, and so does a
    [connect()] that finds an address to connect to, also after a call of
    [disconnect()]. *)
Theorem lost_connection_terminates {App : Type} (c c' : Client.t App)
    (calls : list (Z * Z * recv_io)) (tx tx' : list byte) :
  Client.receiverLoop calls c tx = Some (c', tx') ->
  Client.receiverThread c = true ->
  (forall pos calls' fds, Client.dtor pos calls' fds c' = DtorTerminated)
  /\ (forall addrs fds,
        0 <= (connect_loop addrs (Client.sockfd c') fds).1 ->
        (Client.connect (Some addrs) fds c').2 = ConnectTerminated)
  /\ (forall addrs fds pos calls' fds0,
        0 <= (connect_loop addrs (Client.sockfd c') fds).1 ->
        exists c1 fds1,
          Client.disconnect pos calls' fds0 c' = Some (c1, fds1)
          /\ (Client.connect (Some addrs) fds c1).2 = ConnectTerminated).
Proof.
  intros H Hthr. apply receiverLoop_returns in H. destruct H as (Hc & Hs & Ht & _).
  rewrite Hthr in Ht.
  assert (Hd : forall pos calls' fds,
             Client.disconnect pos calls' fds c' = Some (c', fds)).
  { intros. unfold Client.disconnect. now rewrite Hc. }
  assert (Hconn : forall addrs fds,
             0 <= (connect_loop addrs (Client.sockfd c') fds).1 ->
             (Client.connect (Some addrs) fds c').2 = ConnectTerminated).
  { intros addrs fds Hfd. unfold Client.connect. rewrite Hc.
    destruct (connect_loop addrs (Client.sockfd c') fds) as [fd fds'].
    cbn [fst] in Hfd. destruct (Z.ltb_spec fd 0); [lia|].
    cbn. now rewrite Ht. }
  split; [|split].
  - intros. unfold Client.dtor. now rewrite Hd, Ht.
  - exact Hconn.
  - intros addrs fds pos calls' fds0 Hfd. exists c', fds0.
    split; [apply Hd | now apply Hconn].
Qed.

Lemma lost_connection_terminates_witness :
  Client.dtor AtTest [] {[3]}
    (Client.mk 3 false true true [] [] (∅ : gmap Z (Client.Action unit)))
  = DtorTerminated.
Proof.
  refine (proj1 (lost_connection_terminates
                   client_idle (Client.mk 3 false true true [] [] ∅)
                   [(0, 0, peer_closed)] [] [] _ _) AtTest [] {[3]});
    vm_compute; reflexivity.
Defined.

(** ** Frames that arrive *)

(** X12. When an iteration of a receiving loop delivers a Message. It
    does so exactly when [select] reports the socket readable, the first
    [::recv] returns 8 bytes, the second returns as many bytes as these 8
    bytes say, and they are at least the 4 bytes of a type and at most
    what a vector holds. The Message has the first 4 bytes as type, the
    rest as payload and the cursor at zero. *)
Theorem recv_frame_enqueues (i : recv_io) (msg : Message.t) :
  recv_frame i = Continue (Some msg)
  <-> readable i = true
      /\ bytesRead (recv_hdr i) = sizeof Tsize_t
      /\ bytesRead (recv_body i) = decode Tsize_t (received (recv_hdr i))
      /\ sizeof Tint <= bytesRead (recv_body i) <= max_size
      /\ msg = Message.mk (decode Tint (take 4 (received (recv_body i))))
                 (drop 4 (received (recv_body i))) 0.
Proof.
  unfold recv_frame.
  assert (H8 : sizeof Tsize_t = 8) by reflexivity.
  assert (H4 : sizeof Tint = 4) by reflexivity.
  assert (Hbody : 0 < bytesRead (recv_body i) ->
                  size (received (recv_body i)) = bytesRead (recv_body i)).
  { destruct (recv_body i); cbn [bytesRead received]; [reflexivity | lia]. }
  destruct (readable i); cbn [negb]; [|split; [discriminate | intros [? _]; discriminate]].
  destruct (Z.leb_spec (bytesRead (recv_hdr i)) 0);
    [split; [discriminate | intros (_ & ? & _); lia]|].
  destruct (Z.eqb_spec (bytesRead (recv_hdr i)) (sizeof Tsize_t));
    [|split; [discriminate | intros (_ & ? & _); lia]].
  set (n := decode Tsize_t (received (recv_hdr i))).
  destruct (Z.ltb_spec max_size n);
    [split; [discriminate | intros (_ & _ & ? & ? & _); lia]|].
  destruct (Z.leb_spec (bytesRead (recv_body i)) 0); cbn [orb];
    [split; [discriminate | intros (_ & _ & ? & ? & _); lia]|].
  destruct (Z.eqb_spec (bytesRead (recv_body i)) n); cbn [negb];
    [|split; [discriminate | intros (_ & _ & ? & _); lia]].
  specialize (Hbody ltac:(assumption)).
  destruct (Z_lt_le_dec (size (received (recv_body i))) 4) as [Hlt|Hge].
  - rewrite deserialize_short by assumption.
    split; [discriminate | intros (_ & _ & _ & ? & _); lia].
  - rewrite deserialize_enough by assumption.
    split.
    + intros Hm. inversion Hm. repeat split; try assumption; lia.
    + intros (_ & _ & _ & _ & ->). reflexivity.
Qed.

(** X13. Frames that deliver nothing, on the Client and on the Server
    alike. A length field of zero ends the connection, whatever the second
    [::recv] returns. A frame of 1 to 3 bytes is dropped and the loop goes
    on with the state it had. A length field above the largest vector
    size makes the vector constructor throw outside every handler: the
    thread function is left by an exception. *)
Theorem undelivered_frames {App : Type} (i : recv_io) (c : Client.t App)
    (s : Server.t App) (clientID : Z) :
  readable i = true ->
  bytesRead (recv_hdr i) = sizeof Tsize_t ->
  let n := decode Tsize_t (received (recv_hdr i)) in
  (n = 0 ->
     Client.recv_part i c = Break (Client.set_shouldStop true c)
     /\ Server.handleClient_body clientID i s = Break s)
  /\ (0 < n < sizeof Tint -> bytesRead (recv_body i) = n ->
     Client.recv_part i c = Continue c
     /\ Server.handleClient_body clientID i s = Continue s)
  /\ (max_size < n ->
     Client.recv_part i c = Abort
     /\ Server.handleClient_body clientID i s = Abort).
Proof.
  intros Hr Hh n.
  assert (H8 : sizeof Tsize_t = 8) by reflexivity.
  assert (H4 : sizeof Tint = 4) by reflexivity.
  pose proof max_size_lt_modulus as Hmax.
  assert (Hpos : 4 <= max_size) by (vm_compute; discriminate).
  unfold Client.recv_part, Server.handleClient_body, recv_frame.
  rewrite Hr, Hh. cbn [negb]. fold n.
  destruct (Z.leb_spec (sizeof Tsize_t) 0); [lia|]. rewrite Z.eqb_refl.
  split; [|split].
  - intros Hn. rewrite Hn.
    destruct (Z.ltb_spec max_size 0); [lia|].
    destruct (Z.leb_spec (bytesRead (recv_body i)) 0); cbn [orb]; [now split|].
    destruct (Z.eqb_spec (bytesRead (recv_body i)) 0); [lia|]. now split.
  - intros Hn Hb. rewrite Hb.
    destruct (Z.ltb_spec max_size n); [lia|].
    destruct (Z.leb_spec n 0); [lia|]. rewrite Z.eqb_refl. cbn [orb negb].
    rewrite deserialize_short; [now split|].
    destruct (recv_body i); cbn [bytesRead received] in *; lia.
  - intros Hn. destruct (Z.ltb_spec max_size n); [now split | lia].
Qed.

Lemma undelivered_frames_witness :
  Client.recv_part (mk_recv_io true (Recv (encode Tsize_t 0)) RecvFailed) client_idle
  = Break (Client.set_shouldStop true client_idle).
Proof.
  refine (proj1 (proj1 (undelivered_frames
                          (mk_recv_io true (Recv (encode Tsize_t 0)) RecvFailed)
                          client_idle (Server.ctor (App := unit)) 1 _ _) _));
    vm_compute; reflexivity.
Defined.

(** X14. What one side sends the other side receives. The bytes
    [Client::sendMessage] writes for a Message, read by the handler loop
    of the Server in front of whatever follows them on the stream, append
    to the Server's inbound queue this client's ID with a Message of the
    same type and payload, cursor at zero, and leave what follows on the
    stream. The same holds from [Server::sendToClient], which writes to
    the socket of the client, to the receiver loop of the Client. *)
Theorem wire_round_trip {App : Type} (m : Message.t) (rest : list byte)
    (c : Client.t App) (s : Server.t App) (clientID sock : Z)
    (net : gmap Z (list byte)) :
  representable m ->
  Server.clients s !! clientID = Some sock ->
  (exists i,
      read_frame
        ((Client.sendMessage m (sends_whole m).1 (sends_whole m).2 []).1 ++ rest)
      = Some (i, rest)
      /\ Server.handleClient_body clientID i s
         = Continue (Server.set_receivedMessages
                       (Server.receivedMessages s
                          ++ [(clientID, Message.mk (Message.msgType m)
                                           (Message.buffer m) 0)]) s))
  /\ (exists i tx,
        (Server.sendToClient m clientID (sends_whole m).1 (sends_whole m).2 (s, net)).1
        = (s, <[sock := default [] (net !! sock) ++ tx]> net)
        /\ read_frame (tx ++ rest) = Some (i, rest)
        /\ Client.recv_part i c
           = Continue (Client.set_receivedMessages
                         (Client.receivedMessages c
                            ++ [Message.mk (Message.msgType m) (Message.buffer m) 0]) c)).
Proof.
  intros Hrep Hc. split.
  - eexists. unfold Client.sendMessage. rewrite send_frame_whole. cbn [fst app].
    split; [now apply read_frame_frame|].
    unfold Server.handleClient_body. now rewrite recv_frame_whole.
  - exists (mk_recv_io true (Recv (encode Tsize_t (size (Message.serialize m))))
              (Recv (Message.serialize m))), (frame m).
    unfold Server.sendToClient. rewrite Hc, send_frame_whole. cbn [fst].
    split; [reflexivity|]. split; [now apply read_frame_frame|].
    unfold Client.recv_part. now rewrite recv_frame_whole.
Qed.

Lemma msg_A_representable : representable msg_A.
Proof. split; vm_compute; intuition discriminate. Qed.

Lemma wire_round_trip_witness :
  exists i,
    read_frame ((Client.sendMessage msg_A (sends_whole msg_A).1 (sends_whole msg_A).2 []).1
                ++ frame msg_B)
    = Some (i, frame msg_B)
    /\ Server.handleClient_body 1 i (Link.server link_start)
       = Continue (Server.set_receivedMessages
                     (Server.receivedMessages (Link.server link_start)
                        ++ [(1, Message.mk (Message.msgType msg_A)
                                  (Message.buffer msg_A) 0)]) (Link.server link_start)).
Proof.
  refine (proj1 (wire_round_trip msg_A (frame msg_B) client_idle (Link.server link_start)
                   1 4 ∅ msg_A_representable _)).
  reflexivity.
Defined.

(** ** Client: connect *)

Lemma connect_loop_all_fail (addrs : list (Z * bool)) : forall sockfd fds,
  Forall (fun a => a.1 < 0 \/ a.2 = false) addrs ->
  addrs <> [] ->
  exists fd,
    fd < 0
    /\ connect_loop addrs sockfd fds
       = (fd, fds ∖ list_to_set (filter (fun x => 0 <= x) addrs.*1)).
Proof.
  induction addrs as [|[fd conn] addrs IH]; intros sockfd fds Hall Hne; [done|].
  apply Forall_cons in Hall as [Ha Hall]. cbn [fst snd] in Ha.
  cbn [connect_loop fmap list_fmap fst].
  destruct (Z.ltb_spec fd 0) as [Hneg|Hpos].
  - rewrite filter_cons_False by lia.
    destruct addrs as [|a addrs].
    + exists fd. cbn. split; [lia|]. f_equal. set_solver.
    + apply IH; [assumption | discriminate].
  - destruct Ha as [Ha|Ha]; [lia|]. subst conn.
    rewrite filter_cons_True by lia. cbn [list_to_set].
    destruct addrs as [|a addrs].
    + exists (-1). cbn. split; [lia|]. f_equal. set_solver.
    + destruct (IH (-1) (fds ∖ {[fd]}) Hall ltac:(discriminate)) as (fd' & Hfd' & ->).
      exists fd'. split; [assumption|]. f_equal. set_solver.
Qed.

Lemma connect_loop_first_working pre : forall fd post sockfd fds,
  Forall (fun a => a.1 < 0 \/ a.2 = false) pre ->
  0 <= fd ->
  connect_loop (pre ++ (fd, true) :: post) sockfd fds
  = (fd, {[fd]} ∪ fds ∖ list_to_set (filter (fun x => 0 <= x) pre.*1)).
Proof.
  induction pre as [|[fd0 conn] pre IH]; intros fd post sockfd fds Hall Hfd.
  - cbn. destruct (Z.ltb_spec fd 0); [lia|]. f_equal. set_solver.
  - apply Forall_cons in Hall as [Ha Hall]. cbn [fst snd] in Ha.
    cbn [app connect_loop fmap list_fmap fst].
    destruct (Z.ltb_spec fd0 0) as [Hneg|Hpos].
    + rewrite filter_cons_False by lia. now apply IH.
    + destruct Ha as [Ha|Ha]; [lia|]. subst conn.
      rewrite filter_cons_True by lia. cbn [list_to_set].
      rewrite IH by assumption. f_equal. set_solver.
Qed.

(** X15. [connect] when no address works. If for every address of the
    resolved list either [socket] or [::connect] fails, [connect] raises
    ConnectionFailed; the Client is not connected, no receiver thread is
    started, [sockfd] is negative, queues and callbacks are untouched, and
    every socket that was opened has been closed again. *)
Theorem connect_all_fail {App : Type} (c : Client.t App)
    (addrs : list (Z * bool)) (fds : gset Z) :
  Client.isConnected c = false ->
  addrs <> [] ->
  Forall (fun a => a.1 < 0 \/ a.2 = false) addrs ->
  exists fd,
    fd < 0
    /\ Client.connect (Some addrs) fds c
       = (Client.set_sockfd fd c,
          fds ∖ list_to_set (filter (fun x => 0 <= x) addrs.*1),
          ConnectThrow ConnectionFailed).
Proof.
  intros Hc Hne Hall. unfold Client.connect. rewrite Hc.
  destruct (connect_loop_all_fail addrs (Client.sockfd c) fds Hall Hne)
    as (fd & Hfd & ->).
  exists fd. split; [assumption|].
  destruct (Z.ltb_spec fd 0); [reflexivity | lia].
Qed.

Lemma connect_all_fail_witness :
  exists fd,
    fd < 0
    /\ Client.connect (Some [(5, false); (-1, false)]) {[0; 3]} (Client.ctor (App := unit))
       = (Client.set_sockfd fd Client.ctor,
          {[0; 3]} ∖ list_to_set (filter (fun x => 0 <= x) [(5, false); (-1, false)].*1),
          ConnectThrow ConnectionFailed).
Proof.
  apply (connect_all_fail Client.ctor [(5, false); (-1, false)] {[0; 3]}).
  - reflexivity.
  - discriminate.
  - constructor; [right; reflexivity | constructor; [left; cbn; lia | constructor]].
Defined.

(** X16. [connect] takes the first address that works. On a Client that
    is not connected and has no thread to join, when the addresses before
    one fail and [::connect] succeeds on this one, [connect] returns with
    [sockfd] the socket of this address, [isConnected] set, the stop flag
    cleared and the receiver thread started; the sockets of the earlier
    addresses are closed, the later addresses are not tried, and queues
    and callbacks are as they were. *)
Theorem connect_first_working {App : Type} (c : Client.t App)
    (pre post : list (Z * bool)) (fd : Z) (fds : gset Z) :
  Client.isConnected c = false ->
  Client.receiverThread c = false ->
  Forall (fun a => a.1 < 0 \/ a.2 = false) pre ->
  0 <= fd ->
  Client.connect (Some (pre ++ (fd, true) :: post)) fds c
  = (Client.mk fd true false true (Client.receivedMessages c)
       (Client.messagesToSend c) (Client.actions c),
     {[fd]} ∪ fds ∖ list_to_set (filter (fun x => 0 <= x) pre.*1),
     ConnectOk).
Proof.
  intros Hc Ht Hall Hfd. unfold Client.connect. rewrite Hc.
  rewrite connect_loop_first_working by assumption.
  destruct (Z.ltb_spec fd 0); [lia|]. cbn. now rewrite Ht.
Qed.

Lemma connect_first_working_witness :
  Client.connect (Some three_candidates) {[0]} (Client.ctor (App := unit))
  = (Client.mk 6 true false true [] [] ∅,
     {[6]} ∪ {[0]} ∖ list_to_set (filter (fun x => 0 <= x) [(-1, false); (5, false)].*1),
     ConnectOk).
Proof.
  apply (connect_first_working Client.ctor [(-1, false); (5, false)] [] 6 {[0]});
    try reflexivity; [|lia].
  constructor; [left; cbn; lia | constructor; [right; reflexivity | constructor]].
Defined.

(** X17. A Client can be connected again after [disconnect()]. Wherever
    the receiver thread was and whatever its last iteration did, when
    [disconnect()] on a connected Client has returned, a [connect()] that
    finds a working address leaves a connected Client on the new socket,
    with a new receiver thread, empty queues and the callbacks that were
    registered before; the old socket is closed. *)
Theorem reconnect_after_disconnect {App : Type} (c c1 : Client.t App)
    (pos : thread_at) (calls : list (Z * Z * recv_io)) (fds fds1 : gset Z)
    (pre post : list (Z * bool)) (fd : Z) :
  Client.isConnected c = true ->
  Client.disconnect pos calls fds c = Some (c1, fds1) ->
  Forall (fun a => a.1 < 0 \/ a.2 = false) pre ->
  0 <= fd ->
  Client.connect (Some (pre ++ (fd, true) :: post)) fds1 c1
  = (Client.mk fd true false true [] [] (Client.actions c),
     {[fd]} ∪ (fds ∖ {[Client.sockfd c]})
            ∖ list_to_set (filter (fun x => 0 <= x) pre.*1),
     ConnectOk).
Proof.
  intros Hc Hd Hall Hfd. unfold Client.disconnect, Client.join in Hd.
  rewrite Hc in Hd. cbn [negb] in Hd.
  set (flagged := Client.set_isConnected false (Client.set_shouldStop true c)) in Hd.
  change (Client.receiverThread flagged) with (Client.receiverThread c) in Hd.
  assert (Hc1 : exists c0,
             Client.sockfd c0 = Client.sockfd c
             /\ Client.actions c0 = Client.actions c
             /\ Client.isConnected c0 = false
             /\ Client.receiverThread c0 = false
             /\ c1 = Client.set_messagesToSend []
                       (Client.set_receivedMessages [] (Client.set_sockfd (-1) c0))
             /\ fds1 = fds ∖ {[Client.sockfd c0]}).
  { destruct (Client.receiverThread c) eqn:Ethr.
    - destruct (Client.receiverLoop_from pos calls flagged []) as [[c0 tx0]|] eqn:E;
        [|discriminate].
      assert (Hs : Client.shouldStop flagged = true) by reflexivity.
      destruct (receiverLoop_from_stopped _ _ _ _ _ _ Hs E)
        as (_ & Hco & Hfd0 & _ & Ha).
      exists (Client.set_receiverThread false c0). inversion Hd; subst.
      repeat split; assumption.
    - exists flagged. inversion Hd; subst. repeat split; assumption. }
  destruct Hc1 as (c0 & Hfd0 & Ha & Hco & Hth & -> & ->).
  unfold Client.connect.
  cbn [Client.isConnected Client.sockfd Client.set_messagesToSend
       Client.set_receivedMessages Client.set_sockfd].
  rewrite Hco. rewrite connect_loop_first_working by assumption.
  destruct (Z.ltb_spec fd 0); [lia|].
  cbn [Client.receiverThread Client.set_shouldStop Client.set_isConnected Client.set_sockfd
       Client.sockfd Client.isConnected Client.shouldStop Client.receivedMessages
       Client.messagesToSend Client.actions Client.set_receiverThread
       Client.set_messagesToSend Client.set_receivedMessages].
  rewrite Hth.
  cbn [Client.receiverThread Client.set_shouldStop Client.set_isConnected Client.set_sockfd
       Client.sockfd Client.isConnected Client.shouldStop Client.receivedMessages
       Client.messagesToSend Client.actions Client.set_receiverThread
       Client.set_messagesToSend Client.set_receivedMessages].
  rewrite Hfd0, <- Ha. reflexivity.
Qed.

Lemma reconnect_after_disconnect_witness :
  Client.connect (Some three_candidates) ({[0; 3]} ∖ {[3]})
    (Client.mk (-1) false true false [] [] ∅)
  = (Client.mk 6 true false true [] [] (Client.actions client_idle),
     {[6]} ∪ ({[0; 3]} ∖ {[Client.sockfd client_idle]})
           ∖ list_to_set (filter (fun x => 0 <= x) [(-1, false); (5, false)].*1),
     ConnectOk).
Proof.
  refine (reconnect_after_disconnect client_idle _ AtRecv [(0, 0, idle)] {[0; 3]} _
            [(-1, false); (5, false)] [] 6 _ _ _ _);
    try reflexivity; [|lia].
  constructor; [left; cbn; lia | constructor; [right; reflexivity | constructor]].
Defined.

(** ** Server: start *)

(** X18. [start] starts the Server or leaves it stopped. On a Server that
    is not running: when [socket], [setsockopt], [bind] and [listen] all
    succeed, [start] sets [isRunning], starts the acceptor thread and
    keeps the listening socket open, and a further [start] raises
    AlreadyStarted and changes nothing; when one of them fails, [start]
    raises StartFailed, the Server is still not running, the socket, if
    one was made, is closed, and a later [start] succeeds. *)
Theorem start_all_or_nothing {App : Type} (s : Server.t App) (fds : gset Z)
    (sock : Z) (opt_ok bind_ok listen_ok : bool) (sock' : Z) :
  Server.isRunning s = false ->
  0 <= sock' ->
  let ok := (0 <=? sock) && opt_ok && bind_ok && listen_ok in
  let '((s1, fds1), r1) := Server.start sock opt_ok bind_ok listen_ok (s, fds) in
  (if ok
   then r1 = Ok tt
        /\ s1 = Server.set_acceptorThread true
                  (Server.set_isRunning true (Server.set_serverSocket sock s))
        /\ fds1 = {[sock]} ∪ fds
        /\ Server.start sock' true true true (s1, fds1)
           = ((s1, fds1), Throw AlreadyStarted)
   else r1 = Throw StartFailed
        /\ s1 = Server.set_serverSocket sock s
        /\ fds1 = (if 0 <=? sock then fds ∖ {[sock]} else fds)
        /\ Server.start sock' true true true (s1, fds1)
           = ((Server.set_acceptorThread true
                 (Server.set_isRunning true (Server.set_serverSocket sock' s)),
               {[sock']} ∪ fds1),
              Ok tt)).
Proof.
  intros Hr Hs'. unfold Server.start at 1. rewrite Hr.
  destruct (Z.ltb_spec sock 0) as [Hneg|Hpos].
  - destruct (Z.leb_spec 0 sock); [lia|]. cbn [andb].
    repeat split. unfold Server.start. cbn. rewrite Hr.
    destruct (Z.ltb_spec sock' 0); [lia|]. reflexivity.
  - destruct (Z.leb_spec 0 sock); [|lia]. cbn [andb].
    destruct opt_ok, bind_ok, listen_ok; cbn [andb negb];
      repeat split; unfold Server.start; cbn; rewrite ?Hr;
      try reflexivity;
      destruct (Z.ltb_spec sock' 0); try lia; reflexivity.
Qed.

Lemma start_all_or_nothing_witness :
  Server.start 4 true true true
    (Server.start 3 true false true (Server.ctor (App := unit), {[0]})).1
  = ((Server.mk 4 true false true ∅ [] ∅ ∅ 1, {[4]} ∪ {[0]} ∖ {[3]}), Ok tt).
Proof.
  refine (proj2 (proj2 (proj2
            (start_all_or_nothing Server.ctor {[0]} 3 true false true 4 _ _))));
    [reflexivity | lia].
Defined.

(** ** Server: the client table and the outbound queues *)

Section Agree.
Context {App : Type}.
Implicit Types (s : Server.t App) (net : gmap Z (list byte)).

Lemma elem_of_keys {V} (m : gmap Z V) id :
  id ∈ Server.keys m <-> is_Some (m !! id).
Proof.
  unfold Server.keys. rewrite merge_sort_Permutation.
  rewrite list_elem_of_fmap. split.
  - intros ([k v] & -> & Hin). apply elem_of_map_to_list in Hin. cbn. eauto.
  - intros [v Hv]. exists (id, v). split; [reflexivity|].
    now apply elem_of_map_to_list.
Qed.

(** What a completed flush of one queue leaves in the map. *)
Lemma flush_queue_queues id rets q : forall k s net s' net',
  Server.flush_queue id rets k q (s, net) = Some (s', net') ->
  Server.messagesToSend s'
  = match q with
    | [] => Server.messagesToSend s
    | _ => <[id := []]> (Server.messagesToSend s)
    end.
Proof.
  induction q as [|front rest IH]; intros k s net s' net' H;
    cbn [Server.flush_queue] in H.
  - now inversion H.
  - unfold Server.sendToClient in H.
    destruct (Server.clients s !! id) as [sock|]; [|discriminate].
    destruct (send_frame front (rets k).1 (rets k).2 (default [] (net !! sock)))
      as [tx [[]|e]]; [|discriminate].
    apply IH in H. rewrite H. cbn [Server.messagesToSend Server.set_messagesToSend].
    destruct rest; [reflexivity | apply insert_insert_eq].
Qed.

(** What a completed flush leaves in the map: the queues it has visited
    are empty, and those of unknown clients are gone. *)
Lemma flush_loop_queues rets ids : forall s net s' net',
  Server.flush_loop rets ids (s, net) = Some (s', net') ->
  forall id,
    Server.messagesToSend s' !! id
    = if decide (id ∈ ids) then
        match Server.clients s !! id with
        | Some _ => (fun _ => []) <$> Server.messagesToSend s !! id
        | None => None
        end
      else Server.messagesToSend s !! id.
Proof.
  induction ids as [|x ids IH]; intros s net s' net' H id;
    cbn [Server.flush_loop fst snd] in H.
  - inversion H; subst. rewrite decide_False by set_solver. reflexivity.
  - destruct (Server.clients s !! x) as [sock|] eqn:Ec.
    + destruct (Server.flush_queue x (rets x) 0 (Server.queue s x) (s, net))
        as [[s1 net1]|] eqn:E; [|discriminate].
      pose proof (flush_queue_frame _ _ _ _ _ _ _ _ E) as Hfr.
      apply flush_queue_queues in E.
      assert (Hcl : Server.clients s1 = Server.clients s) by now rewrite Hfr.
      rewrite (IH _ _ _ _ H id), Hcl.
      assert (Hx : Server.messagesToSend s1 !! x
                   = (fun _ => []) <$> Server.messagesToSend s !! x).
      { rewrite E. unfold Server.queue.
        destruct (Server.messagesToSend s !! x) as [[|m q]|] eqn:Eq; cbn.
        - exact Eq.
        - apply lookup_insert_eq.
        - exact Eq. }
      assert (Hne : id <> x ->
                    Server.messagesToSend s1 !! id = Server.messagesToSend s !! id).
      { intros Hne. rewrite E. destruct (Server.queue s x); [reflexivity|].
        now apply lookup_insert_ne. }
      destruct (decide (id = x)) as [->|Hidx].
      * rewrite (decide_True _ _ (list_elem_of_here x ids)), Ec, Hx.
        destruct (decide (x ∈ ids)); [|reflexivity].
        now destruct (Server.messagesToSend s !! x).
      * rewrite Hne by assumption.
        destruct (decide (id ∈ ids)) as [Hin|Hin].
        -- now rewrite decide_True by (now apply list_elem_of_further).
        -- rewrite decide_False; [reflexivity|].
           intros Hin'. apply elem_of_cons in Hin' as [?|?]; contradiction.
    + rewrite (IH _ _ _ _ H id).
      cbn [fst snd Server.messagesToSend Server.clients Server.set_messagesToSend].
      destruct (decide (id = x)) as [->|Hidx].
      * rewrite (decide_True _ _ (list_elem_of_here x ids)), Ec, lookup_delete_eq.
        now destruct (decide (x ∈ ids)).
      * rewrite lookup_delete_ne by congruence.
        destruct (decide (id ∈ ids)) as [Hin|Hin].
        -- now rewrite decide_True by (now apply list_elem_of_further).
        -- rewrite decide_False; [reflexivity|].
           intros Hin'. apply elem_of_cons in Hin' as [?|?]; contradiction.
Qed.

Lemma flush_loop_empties rets s net s' net' :
  Server.flush_loop rets (Server.keys (Server.messagesToSend s)) (s, net)
  = Some (s', net') ->
  forall id, Server.queue s' id = [].
Proof.
  intros H id. unfold Server.queue.
  rewrite (flush_loop_queues _ _ _ _ _ _ H id).
  destruct (decide (id ∈ Server.keys (Server.messagesToSend s))) as [Hin|Hin].
  - destruct (Server.clients s !! id); [|reflexivity].
    now destruct (Server.messagesToSend s !! id).
  - rewrite elem_of_keys in Hin.
    destruct (Server.messagesToSend s !! id) eqn:E; [|reflexivity].
    exfalso. apply Hin. eauto.
Qed.

(** With sends that take everything the flush completes. *)
Lemma flush_loop_total rets ids : forall s net,
  (forall id j m, Server.queue s id !! j = Some m -> rets id j = sends_whole m) ->
  exists s' net', Server.flush_loop rets ids (s, net) = Some (s', net').
Proof.
  induction ids as [|x ids IH]; intros s net Hrets; [now eexists _, _|].
  cbn [Server.flush_loop fst snd].
  destruct (Server.clients s !! x) as [sock|] eqn:Ec.
  - rewrite (flush_queue_whole x sock (rets x) (Server.queue s x) 0 s net Ec (Hrets x)).
    destruct (Server.queue s x) eqn:Eq; [now apply IH|].
    apply IH. intros id j m. unfold Server.queue.
    cbn [Server.messagesToSend Server.set_messagesToSend].
    destruct (decide (id = x)) as [->|Hne].
    + rewrite lookup_insert_eq. cbn. discriminate.
    + rewrite lookup_insert_ne by congruence. apply Hrets.
  - apply IH. intros id j m. unfold Server.queue.
    cbn [Server.messagesToSend Server.set_messagesToSend].
    destruct (decide (id = x)) as [->|Hne].
    + rewrite lookup_delete_eq. cbn. discriminate.
    + rewrite lookup_delete_ne by congruence. apply Hrets.
Qed.

End Agree.

(** ** Server: an iteration of the acceptor loop *)

(** Accepting a connection keeps the sends that take everything so. *)
Lemma accept_part_whole {App : Type} (s : Server.t App) (accepted : option Z)
    (rets : Z -> nat -> Z * Z) :
  (forall id j m, Server.queue s id !! j = Some m -> rets id j = sends_whole m) ->
  forall id j m,
    Server.queue (Server.accept_part accepted s).1 id !! j = Some m ->
    rets id j = sends_whole m.
Proof.
  intros Hrets id j m. unfold Server.accept_part.
  destruct accepted as [sock|]; [|apply Hrets].
  destruct (0 <=? sock); [|apply Hrets].
  cbn [fst]. unfold Server.queue.
  cbn [Server.messagesToSend Server.set_messagesToSend Server.set_clients
       Server.set_nextClientID].
  destruct (decide (id = Server.nextClientID s)) as [->|Hne].
  - rewrite lookup_insert_eq. cbn. discriminate.
  - rewrite lookup_insert_ne by congruence. apply Hrets.
Qed.

(** X19. An iteration of the acceptor loop empties the outbound queues.
    When every [::send] takes all it is given, the iteration completes,
    changes nothing but the outbound queues (and what accepting a
    connection changes), leaves every outbound queue empty, and has
    written to the socket of each client, provided no other client shares
    it, the frames of the Messages that were queued for this client, in
    queue order. *)
Theorem acceptor_iteration_flushes {App : Type} (s : Server.t App)
    (net : gmap Z (list byte)) (accepted : option Z) (rets : Z -> nat -> Z * Z) :
  (forall id j m, Server.queue s id !! j = Some m -> rets id j = sends_whole m) ->
  let s1 := (Server.accept_part accepted s).1 in
  exists s' net',
    Server.acceptorLoop_body accepted rets (s, net)
    = (Some (s', net'), (Server.accept_part accepted s).2)
    /\ s' = Server.set_messagesToSend (Server.messagesToSend s') s1
    /\ (forall id, Server.queue s' id = [])
    /\ (forall cid sock,
          Server.clients s1 !! cid = Some sock ->
          (forall id, id <> cid -> Server.clients s1 !! id <> Some sock) ->
          default [] (net' !! sock)
          = default [] (net !! sock) ++ concat (frame <$> Server.queue s1 cid)).
Proof.
  intros Hrets s1. unfold Server.acceptorLoop_body. cbn [fst snd].
  pose proof (accept_part_whole s accepted rets Hrets) as Hrets1. fold s1 in Hrets1.
  subst s1. destruct (Server.accept_part accepted s) as [s1 spawned]. cbn [fst snd] in *.
  destruct (flush_loop_total rets (Server.keys (Server.messagesToSend s1)) s1 net Hrets1)
    as (s' & net' & H).
  exists s', net'. rewrite H. split; [reflexivity|]. split; [|split].
  - now apply flush_loop_frame in H.
  - now apply (flush_loop_empties rets s1 net s' net').
  - intros cid sock Hc Hinj.
    destruct (flush_loop_whole cid sock rets _ s1 net s' net' Hc Hinj (Hrets1 cid) H)
      as (pre & Hpre & Hnet).
    rewrite (flush_loop_empties rets s1 net s' net' H cid), app_nil_r in Hpre.
    now rewrite Hpre.
Qed.

Lemma acceptor_iteration_flushes_witness :
  exists s' net',
    Server.acceptorLoop_body None
      (fun id k => match Server.queue server_two_clients id !! k with
                   | Some m => sends_whole m
                   | None => (0, 0)
                   end)
      (server_two_clients, ∅)
    = (Some (s', net'), None)
    /\ Server.queue s' 1 = []
    /\ default [] (net' !! 4) = frame msg_empty.
Proof.
  destruct (acceptor_iteration_flushes server_two_clients ∅ None
              (fun id k => match Server.queue server_two_clients id !! k with
                           | Some m => sends_whole m
                           | None => (0, 0)
                           end))
    as (s' & net' & Hb & _ & He & Hn).
  - intros id j m Hm. now rewrite Hm.
  - exists s', net'. split; [exact Hb|]. split; [exact (He 1)|].
    rewrite (Hn 1 4); [reflexivity | reflexivity |].
    intros id Hid. cbn [Server.accept_part fst Server.clients server_two_clients].
    destruct (decide (id = 2)) as [->|Hne2].
    + rewrite lookup_insert_eq. discriminate.
    + rewrite lookup_insert_ne by congruence.
      rewrite lookup_singleton_ne by congruence. discriminate.
Defined.

(** X20. What accepting does. In an iteration of the acceptor loop of a
    running Server whose sends succeed: when [accept] returns a socket,
    the client is entered in the client table under the ID that was next,
    with this socket and an empty outbound queue, the socket is open, and
    [sendTo] with this ID succeeds from then on; when [accept] fails, or
    no connection is pending, no ID is used up and the client table and
    the open descriptors are as they were. *)
Theorem accept_registers_client {App : Type} (w : Run.world App)
    (accepted : option Z) (rets : Z -> nat -> Z * Z) :
  Server.isRunning (Run.server w) = true ->
  Server.shouldStop (Run.server w) = false ->
  (forall id j m,
      Server.queue (Run.server w) id !! j = Some m -> rets id j = sends_whole m) ->
  exists w',
    (Run.step (Run.Acceptor accepted rets) w).1 = Some w'
    /\ match accepted with
       | Some sock =>
           if 0 <=? sock then
             let id := Server.nextClientID (Run.server w) in
             (Run.step (Run.Acceptor accepted rets) w).2 = Some id
             /\ Server.clients (Run.server w')
                = <[id := sock]> (Server.clients (Run.server w))
             /\ Server.messagesToSend (Run.server w') !! id = Some []
             /\ Run.fds w' = {[sock]} ∪ Run.fds w
             /\ forall m,
                  Server.sendTo m id (Run.server w')
                  = (Server.push_to id m (Run.server w'), Ok tt)
           else
             (Run.step (Run.Acceptor accepted rets) w).2 = None
             /\ Server.clients (Run.server w') = Server.clients (Run.server w)
             /\ Run.fds w' = Run.fds w
       | None =>
           (Run.step (Run.Acceptor accepted rets) w).2 = None
           /\ Server.clients (Run.server w') = Server.clients (Run.server w)
           /\ Run.fds w' = Run.fds w
       end.
Proof.
  intros Hr Hs Hrets. destruct w as [s a net fds]. cbn [Run.server] in *.
  cbn [Run.step Run.server Run.app Run.net Run.fds]. rewrite Hr, Hs. cbn [andb negb].
  unfold Server.acceptorLoop_body. cbn [fst snd].
  pose proof (accept_part_whole s accepted rets Hrets) as Hrets1.
  assert (Hacc : Server.accept_part accepted s
                 = match accepted with
                   | Some sock =>
                       if 0 <=? sock then
                         (Server.mk (Server.serverSocket s) (Server.isRunning s)
                            (Server.shouldStop s) (Server.acceptorThread s)
                            (<[Server.nextClientID s := sock]> (Server.clients s))
                            (Server.receivedMessages s)
                            (<[Server.nextClientID s := []]> (Server.messagesToSend s))
                            (Server.actions s) (llong_succ (Server.nextClientID s)),
                          Some (Server.nextClientID s, sock))
                       else (s, None)
                   | None => (s, None)
                   end).
  { unfold Server.accept_part. destruct accepted as [sock|]; [|reflexivity].
    destruct (0 <=? sock); reflexivity. }
  destruct (Server.accept_part accepted s) as [s1 spawned]. cbn [fst snd] in *.
  destruct (flush_loop_total rets (Server.keys (Server.messagesToSend s1)) s1 net Hrets1)
    as (s' & net' & H).
  rewrite H.
  pose proof (flush_loop_frame _ _ _ _ _ _ H) as Hfr.
  pose proof (flush_loop_queues _ _ _ _ _ _ H) as Hq.
  assert (Hcl : Server.clients s' = Server.clients s1) by now rewrite Hfr.
  assert (Hrun : Server.isRunning s' = Server.isRunning s1) by now rewrite Hfr.
  eexists. split; [reflexivity|]. cbn [Run.server Run.fds fst snd].
  destruct accepted as [sock|]; [destruct (0 <=? sock)|];
    inversion Hacc; subst s1 spawned; cbn [fmap option_fmap option_map fst];
    try (repeat split; exact Hcl).
  cbn [Server.clients Server.isRunning Server.messagesToSend] in *.
  repeat split; try assumption.
  - rewrite Hq, decide_True.
    + now rewrite !lookup_insert_eq.
    + apply elem_of_keys. rewrite lookup_insert_eq. eauto.
  - intros m. unfold Server.sendTo. rewrite Hrun, Hr, Hcl. cbn [negb].
    now rewrite lookup_insert_eq.
Qed.

Lemma accept_registers_client_witness :
  exists w',
    (Run.step (Run.Acceptor (Some 6) no_sends) three_accepts_final).1 = Some w'
    /\ (Run.step (Run.Acceptor (Some 6) no_sends) three_accepts_final).2 = Some 4
    /\ Server.clients (Run.server w')
       = <[4 := 6]> (Server.clients (Run.server three_accepts_final)).
Proof.
  destruct (accept_registers_client three_accepts_final (Some 6) no_sends)
    as (w' & Hw & Hid & Hcl & _).
  - reflexivity.
  - reflexivity.
  - intros id j m. unfold Server.queue. cbn [Run.server three_accepts_final
      Server.messagesToSend].
    destruct (decide (id = 3)) as [->|H3]; [rewrite lookup_insert_eq|
      rewrite lookup_insert_ne by congruence;
      destruct (decide (id = 2)) as [->|H2];
      [rewrite lookup_singleton_eq | rewrite lookup_singleton_ne by congruence]];
      cbn; discriminate.
  - exists w'. split; [exact Hw|]. split; [exact Hid | exact Hcl].
Defined.

(** ** Server: a client that leaves *)

(** X21. A client that leaves. When the handler thread of a client finds
    its socket readable and [::recv] returns nothing or fails, the thread
    closes the socket and removes the client from the client table and
    its outbound queue from the map, so that the Messages still queued
    for it are never sent. The Messages received from it stay in the
    inbound queue: [update] dispatches exactly what it would have
    dispatched before. On the running Server [sendTo] with this ID now
    raises UnknownClient. *)
Theorem departed_client {App : Type} (w : Run.world App) (cid sock : Z)
    (i : recv_io) :
  readable i = true ->
  bytesRead (recv_hdr i) <= 0 ->
  exists w',
    Run.step (Run.Handler cid sock i) w = (Some w', None)
    /\ Server.clients (Run.server w') = delete cid (Server.clients (Run.server w))
    /\ Server.messagesToSend (Run.server w')
       = delete cid (Server.messagesToSend (Run.server w))
    /\ Server.receivedMessages (Run.server w')
       = Server.receivedMessages (Run.server w)
    /\ Run.fds w' = Run.fds w ∖ {[sock]}
    /\ (Server.isRunning (Run.server w) = true ->
        forall m, Server.sendTo m cid (Run.server w')
                  = (Run.server w', Throw UnknownClient))
    /\ (forall a,
          (Server.update (Run.server w', a)).1.2 = (Server.update (Run.server w, a)).1.2
          /\ (Server.update (Run.server w', a)).2 = (Server.update (Run.server w, a)).2).
Proof.
  intros Hr Hh. destruct w as [s a net fds].
  cbn [Run.step Run.server Run.app Run.net Run.fds].
  assert (Hbody : Server.handleClient_body cid i s = Break s).
  { unfold Server.handleClient_body, recv_frame. rewrite Hr. cbn [negb].
    destruct (Z.leb_spec (bytesRead (recv_hdr i)) 0); [reflexivity | lia]. }
  rewrite Hbody. unfold Server.handleClient_exit. cbn [fst snd].
  eexists. split.
  { destruct (Server.isRunning s && negb (Server.shouldStop s)); reflexivity. }
  cbn [Run.server Run.fds Server.clients Server.messagesToSend Server.receivedMessages
       Server.set_messagesToSend Server.set_clients].
  repeat split.
  - intros Hrun m. unfold Server.sendTo.
    cbn [Server.isRunning Server.clients Server.set_messagesToSend Server.set_clients].
    rewrite Hrun, lookup_delete_eq. reflexivity.
  - unfold Server.update.
    cbn [Server.isRunning Server.actions Server.receivedMessages
         Server.set_messagesToSend Server.set_clients].
    destruct (Server.isRunning s); cbn [negb]; [|reflexivity].
    now destruct (Server.dispatch (Server.actions s) (Server.receivedMessages s) a0).
  - unfold Server.update.
    cbn [Server.isRunning Server.actions Server.receivedMessages
         Server.set_messagesToSend Server.set_clients].
    destruct (Server.isRunning s); cbn [negb]; [|reflexivity].
    now destruct (Server.dispatch (Server.actions s) (Server.receivedMessages s) a0).
Qed.

Lemma departed_client_witness :
  exists w',
    Run.step (Run.Handler 3 4 peer_closed) three_accepts_final = (Some w', None)
    /\ Server.clients (Run.server w')
       = delete 3 (Server.clients (Run.server three_accepts_final)).
Proof.
  destruct (departed_client three_accepts_final 3 4 peer_closed)
    as (w' & Hw & Hcl & _).
  - reflexivity.
  - vm_compute. discriminate.
  - exists w'. split; [exact Hw | exact Hcl].
Defined.

(** ** Server: what holds of every run *)

Section Invariant.
Context {App : Type}.
Implicit Types (s : Server.t App) (w : Run.world App).

Lemma inv_frame s s' :
  Server.clients s' = Server.clients s ->
  Server.messagesToSend s' = Server.messagesToSend s ->
  Server.receivedMessages s' = Server.receivedMessages s ->
  server_inv s -> server_inv s'.
Proof.
  intros Hc Hm Hr [Ha [Hrc Hq]]. split; [|split].
  - intros id. rewrite Hc, Hm. apply Ha.
  - now rewrite Hr.
  - intros id. unfold Server.queue. rewrite Hm. apply Hq.
Qed.

Lemma inv_push_to s id m :
  is_Some (Server.clients s !! id) -> server_inv s ->
  server_inv (Server.push_to id m s).
Proof.
  intros Hk [Ha [Hrc Hq]]. split; [|split].
  - intros id'. unfold Server.push_to.
    cbn [Server.clients Server.messagesToSend Server.set_messagesToSend].
    rewrite lookup_insert_is_Some. split.
    + intros Hid'. destruct (decide (id = id')); [now left | right].
      split; [assumption | now apply Ha].
    + intros [<-|[_ H]]; [assumption | now apply Ha].
  - exact Hrc.
  - intros id'. destruct (decide (id' = id)) as [->|Hne].
    + rewrite queue_push_to_eq. apply Forall_app. split; [apply Hq|].
      now repeat constructor.
    + rewrite queue_push_to_ne by assumption. apply Hq.
Qed.

Lemma inv_sendTo s m id : server_inv s -> server_inv (Server.sendTo m id s).1.
Proof.
  intros Hi. unfold Server.sendTo.
  destruct (Server.isRunning s); cbn [negb]; [|exact Hi].
  destruct (Server.clients s !! id) as [sock|] eqn:E; [|exact Hi].
  apply inv_push_to; [rewrite E; eauto | exact Hi].
Qed.

Lemma inv_sendToArray_loop m ids : forall error s,
  server_inv s -> server_inv (Server.sendToArray_loop m ids error s).1.
Proof.
  induction ids as [|x ids IH]; intros error s Hi; [exact Hi|].
  cbn [Server.sendToArray_loop]. unfold bind at 1, try_catch, bind at 1.
  pose proof (inv_sendTo s m x Hi) as H1.
  destruct (Server.sendTo m x s) as [s1 [[]|e]]; cbn [fst] in H1.
  - unfold ret at 1. now apply IH.
  - destruct (Server.is_UnknownClient e); [unfold ret at 1; now apply IH | exact H1].
Qed.

Lemma inv_sendToAll_loop m cs : forall error s,
  (forall c, c ∈ cs -> is_Some (Server.clients s !! c.1)) ->
  server_inv s -> server_inv (Server.sendToAll_loop m cs error s).1.
Proof.
  induction cs as [|c cs IH]; intros error s Hk Hi; [exact Hi|].
  cbn [Server.sendToAll_loop]. unfold bind at 1, try_catch, bind at 1, modify, ret at 1.
  apply IH.
  - intros c' Hc'. apply Hk. now apply list_elem_of_further.
  - apply inv_push_to; [|exact Hi]. apply Hk. apply list_elem_of_here.
Qed.

Lemma inv_accept_part accepted s :
  server_inv s -> server_inv (Server.accept_part accepted s).1.
Proof.
  intros [Ha [Hrc Hq]]. unfold Server.accept_part.
  destruct accepted as [sock|]; [|now split].
  destruct (0 <=? sock); [|now split].
  cbn [fst]. split; [|split].
  - intros id. cbn. rewrite !lookup_insert_is_Some. split.
    + intros [?|[? ?]]; [now left | right; split; [assumption | now apply Ha]].
    + intros [?|[? ?]]; [now left | right; split; [assumption | now apply Ha]].
  - exact Hrc.
  - intros id. unfold Server.queue. cbn.
    destruct (decide (id = Server.nextClientID s)) as [->|Hne].
    + rewrite lookup_insert_eq. constructor.
    + rewrite lookup_insert_ne by congruence. apply Hq.
Qed.

Lemma inv_flush_loop rets ids s net s' net' :
  Server.flush_loop rets ids (s, net) = Some (s', net') ->
  server_inv s -> server_inv s'.
Proof.
  intros H [Ha [Hrc Hq]].
  pose proof (flush_loop_frame _ _ _ _ _ _ H) as Hfr.
  pose proof (flush_loop_queues _ _ _ _ _ _ H) as Hm.
  assert (Hcl : Server.clients s' = Server.clients s) by now rewrite Hfr.
  assert (Hr : Server.receivedMessages s' = Server.receivedMessages s)
    by now rewrite Hfr.
  split; [|split].
  - intros id. rewrite Hcl, Hm.
    destruct (decide (id ∈ ids)); [|apply Ha].
    destruct (Server.clients s !! id) eqn:Ec.
    + rewrite fmap_is_Some. split; intros _; [|eauto].
      apply Ha. rewrite Ec. eauto.
    + split; intros [? ?]; discriminate.
  - now rewrite Hr.
  - intros id. unfold Server.queue. rewrite Hm.
    destruct (decide (id ∈ ids)); [|apply Hq].
    destruct (Server.clients s !! id); [|constructor].
    destruct (Server.messagesToSend s !! id); constructor.
Qed.

Lemma inv_handleClient_body id i s :
  server_inv s ->
  match Server.handleClient_body id i s with
  | Continue s' | Break s' => server_inv s'
  | Abort => True
  end.
Proof.
  intros Hi. unfold Server.handleClient_body.
  destruct (recv_frame i) as [[msg|]| |]; try exact Hi; [|exact I].
  destruct Hi as [Ha [Hrc Hq]]. split; [exact Ha|]. split; [|exact Hq].
  cbn. apply Forall_app. split; [exact Hrc|]. now repeat constructor.
Qed.

Lemma inv_handleClient_exit id sock s (fds : gset Z) :
  server_inv s -> server_inv (Server.handleClient_exit id sock (s, fds)).1.
Proof.
  intros [Ha [Hrc Hq]]. unfold Server.handleClient_exit. cbn [fst snd].
  split; [|split].
  - intros id'. cbn. rewrite !lookup_delete_is_Some.
    split; intros [? ?]; (split; [assumption | now apply Ha]).
  - exact Hrc.
  - intros id'. unfold Server.queue. cbn.
    destruct (decide (id' = id)) as [->|Hne].
    + rewrite lookup_delete_eq. constructor.
    + rewrite lookup_delete_ne by congruence. apply Hq.
Qed.

Lemma inv_step ev w w' :
  (Run.step ev w).1 = Some w' ->
  server_inv (Run.server w) -> server_inv (Run.server w').
Proof.
  destruct w as [s a net fds].
  destruct ev as [sock o b l|ty act|m id|m ids|m| |accepted rets|id sock i];
    cbn [Run.step Run.server Run.app Run.net Run.fds Run.with_server]; intros H Hi.
  - unfold Server.start in H.
    destruct (Server.isRunning s); [inversion H; subst; exact Hi|].
    destruct (sock <? 0); [inversion H; subst; revert Hi; now apply inv_frame|].
    destruct (negb (o && b && l)); inversion H; subst; revert Hi; now apply inv_frame.
  - inversion H; subst. cbn. revert Hi. now apply inv_frame.
  - inversion H; subst. cbn. now apply inv_sendTo.
  - inversion H; subst. cbn. unfold Server.sendToArray.
    destruct (Server.isRunning s); cbn [negb]; [|exact Hi].
    unfold bind.
    pose proof (inv_sendToArray_loop m ids false s Hi) as H1.
    destruct (Server.sendToArray_loop m ids false s) as [s1 [[]|e]]; exact H1.
  - inversion H; subst. cbn. unfold Server.sendToAll.
    destruct (Server.isRunning s); cbn [negb]; [|exact Hi].
    unfold bind.
    assert (Hk : forall c, c ∈ map_to_list (Server.clients s) ->
                           is_Some (Server.clients s !! c.1)).
    { intros [k v] Hc. apply elem_of_map_to_list in Hc. cbn. eauto. }
    pose proof (inv_sendToAll_loop m _ false s Hk Hi) as H1.
    destruct (Server.sendToAll_loop m (map_to_list (Server.clients s)) false s)
      as [s1 [[]|e]]; exact H1.
  - unfold Server.update in H.
    destruct (Server.isRunning s); cbn [negb] in H; [|inversion H; subst; exact Hi].
    destruct (Server.dispatch (Server.actions s) (Server.receivedMessages s) a)
      as [a' r].
    inversion H; subst. cbn. destruct Hi as [Ha [Hrc Hq]].
    split; [exact Ha|]. split; [constructor | exact Hq].
  - destruct (Server.isRunning s && negb (Server.shouldStop s));
      [|inversion H; subst; exact Hi].
    unfold Server.acceptorLoop_body in H. cbn [fst snd] in H.
    pose proof (inv_accept_part accepted s Hi) as H1.
    destruct (Server.accept_part accepted s) as [s1 spawned]. cbn [fst snd] in *.
    destruct (Server.flush_loop rets (Server.keys (Server.messagesToSend s1)) (s1, net))
      as [[s2 net2]|] eqn:E; [|discriminate].
    inversion H; subst. cbn. exact (inv_flush_loop _ _ _ _ _ _ E H1).
  - destruct (Server.isRunning s && negb (Server.shouldStop s)).
    + pose proof (inv_handleClient_body id i s Hi) as H1.
      destruct (Server.handleClient_body id i s) as [s'|s'|]; cbn in H.
      * inversion H; subst. exact H1.
      * inversion H; subst. cbn.
        exact (inv_handleClient_exit id sock s' fds H1).
      * discriminate.
    + cbn in H. inversion H; subst. cbn.
      exact (inv_handleClient_exit id sock s fds Hi).
Qed.

Lemma inv_exec evs : forall w w',
  Run.exec evs w = Some w' ->
  server_inv (Run.server w) -> server_inv (Run.server w').
Proof.
  induction evs as [|ev evs IH]; intros w w' H Hi; cbn [Run.exec] in H.
  - now inversion H; subst.
  - destruct (Run.step ev w).1 as [w1|] eqn:E; [|discriminate].
    apply (IH w1 w' H). exact (inv_step ev w w1 E Hi).
Qed.

Lemma inv_init (a : App) : server_inv (Run.server (Run.init a)).
Proof.
  split; [|split].
  - intros id. cbn. rewrite !lookup_empty. split; intros [? ?]; discriminate.
  - constructor.
  - intros id. unfold Server.queue. cbn. rewrite lookup_empty. constructor.
Qed.
End Invariant.

(** X22. On every run of a Server process, whatever the application
    calls and however the acceptor and handler threads interleave, the
    client table and the map of outbound queues have the same keys: no
    Message is ever queued for a client the Server does not know, and the
    acceptor loop never finds a queue to clean up. *)
Theorem clients_and_queues_agree {App : Type} (a : App)
    (evs : list (Run.event App)) (w : Run.world App) :
  Run.exec evs (Run.init a) = Some w ->
  agree_on_keys (Run.server w).
Proof. intros H. exact (proj1 (inv_exec evs _ _ H (inv_init a))). Qed.

Lemma served_run_final : Run.exec served_run (Run.init []) = Some served_final.
Proof. vm_compute. reflexivity. Qed.

Lemma clients_and_queues_agree_witness :
  agree_on_keys (Run.server served_final).
Proof.
  exact (clients_and_queues_agree [] served_run served_final served_run_final).
Defined.

(** X23. On every run of a Server process, every Message in the inbound
    queue and in the outbound queues has its read cursor at zero, wherever
    the cursor of the Message that was sent stood: a callback of [update]
    always reads a Message from its start. *)
Theorem cursors_start_at_zero {App : Type} (a : App)
    (evs : list (Run.event App)) (w : Run.world App) :
  Run.exec evs (Run.init a) = Some w ->
  cursors_at_start (Run.server w).
Proof. intros H. exact (proj2 (inv_exec evs _ _ H (inv_init a))). Qed.

Lemma cursors_start_at_zero_witness :
  cursors_at_start (Run.server served_final).
Proof.
  exact (cursors_start_at_zero [] served_run served_final served_run_final).
Defined.

(** ** Registering callbacks *)

Section DefineAction.
Context {App : Type}.

Lemma client_dispatch_other (acts : gmap Z (Client.Action App)) ty act q :
  Forall (fun m => Message.type m <> ty) q ->
  Client.dispatch (<[ty := act]> acts) q = Client.dispatch acts q.
Proof.
  induction 1 as [|m q Hm _ IH]; [reflexivity|].
  cbn [Client.dispatch]. rewrite IH.
  rewrite lookup_insert_ne; [reflexivity|].
  intros Heq. apply Hm. rewrite Heq. reflexivity.
Qed.

Lemma server_dispatch_other (acts : gmap Z (Server.Action App)) ty act q :
  Forall (fun p => Message.type p.2 <> ty) q ->
  Server.dispatch (<[ty := act]> acts) q = Server.dispatch acts q.
Proof.
  induction 1 as [|[id m] q Hm _ IH]; [reflexivity|].
  cbn [Server.dispatch]. rewrite IH.
  rewrite lookup_insert_ne; [reflexivity|].
  intros Heq. apply Hm. rewrite Heq. reflexivity.
Qed.

Lemma client_dispatch_unregistered (acts : gmap Z (Client.Action App)) ty q a :
  Forall (fun m => Message.type m = ty) q ->
  Client.dispatch (<[ty := None]> acts) q a = (a, Ok tt).
Proof.
  induction 1 as [|m q Hm _ IH]; [reflexivity|].
  cbn [Client.dispatch].
  replace (Message.type (Message.copy m)) with ty by (now rewrite <- Hm).
  now rewrite lookup_insert_eq.
Qed.

Lemma server_dispatch_unregistered (acts : gmap Z (Server.Action App)) ty q a :
  Forall (fun p => Message.type p.2 = ty) q ->
  Server.dispatch (<[ty := None]> acts) q a = (a, Ok tt).
Proof.
  induction 1 as [|[id m] q Hm _ IH]; [reflexivity|].
  cbn [Server.dispatch]. cbn [snd] in Hm. rewrite Hm.
  now rewrite lookup_insert_eq.
Qed.
End DefineAction.

(** X24. What [defineAction] changes, on the Client and on the Server. It
    touches the callback of the given type only: an
    [update] whose queue holds no Message of this type acts on the
    application and ends as it would have without the call. Registering
    the empty function unregisters: an [update] whose queue holds
    Messages of this type only then empties the queue, leaves the
    application as it is and returns normally. *)
Theorem defineAction_scope {App : Type} (c : Client.t App) (s : Server.t App)
    (ty : Z) (cact : Client.Action App) (sact : Server.Action App) (a : App) :
  (Forall (fun m => Message.type m <> ty) (Client.receivedMessages c) ->
     (Client.update ((Client.defineAction ty cact c).1, a)).1.2
     = (Client.update (c, a)).1.2
     /\ (Client.update ((Client.defineAction ty cact c).1, a)).2
        = (Client.update (c, a)).2)
  /\ (Forall (fun p => Message.type p.2 <> ty) (Server.receivedMessages s) ->
        (Server.update ((Server.defineAction ty sact s).1, a)).1.2
        = (Server.update (s, a)).1.2
        /\ (Server.update ((Server.defineAction ty sact s).1, a)).2
           = (Server.update (s, a)).2)
  /\ (Client.isConnected c = true ->
      Forall (fun m => Message.type m = ty) (Client.receivedMessages c) ->
      Client.update ((Client.defineAction ty None c).1, a)
      = ((Client.set_receivedMessages [] (Client.defineAction ty None c).1, a), Ok tt))
  /\ (Server.isRunning s = true ->
      Forall (fun p => Message.type p.2 = ty) (Server.receivedMessages s) ->
      Server.update ((Server.defineAction ty None s).1, a)
      = ((Server.set_receivedMessages [] (Server.defineAction ty None s).1, a), Ok tt)).
Proof.
  split; [|split; [|split]].
  - intros Hq. unfold Client.update, Client.defineAction, modify. cbn [fst].
    cbn [Client.isConnected Client.receivedMessages Client.actions Client.set_actions].
    destruct (Client.isConnected c); cbn [negb]; [|now split].
    rewrite client_dispatch_other by assumption.
    now destruct (Client.dispatch (Client.actions c) (Client.receivedMessages c) a).
  - intros Hq. unfold Server.update, Server.defineAction, modify. cbn [fst].
    cbn [Server.isRunning Server.receivedMessages Server.actions Server.set_actions].
    destruct (Server.isRunning s); cbn [negb]; [|now split].
    rewrite server_dispatch_other by assumption.
    now destruct (Server.dispatch (Server.actions s) (Server.receivedMessages s) a).
  - intros Hc Hq. unfold Client.update, Client.defineAction, modify. cbn [fst].
    cbn [Client.isConnected Client.receivedMessages Client.actions Client.set_actions].
    rewrite Hc. cbn [negb].
    match goal with
    | |- context [Client.dispatch ?x ?q a] =>
        replace (Client.dispatch x q a) with (a, @Ok unit tt); [reflexivity|]
    end.
    symmetry. now apply client_dispatch_unregistered.
  - intros Hr Hq. unfold Server.update, Server.defineAction, modify. cbn [fst].
    cbn [Server.isRunning Server.receivedMessages Server.actions Server.set_actions].
    rewrite Hr. cbn [negb].
    match goal with
    | |- context [Server.dispatch ?x ?q a] =>
        replace (Server.dispatch x q a) with (a, @Ok unit tt); [reflexivity|]
    end.
    symmetry. now apply server_dispatch_unregistered.
Qed.

